(** * combojsonapi: the permission plugin

    A shallow embedding of [combojsonapi/permission/permission_plugin.py]
    and the properties of its required-field closure, route interceptor,
    schema pruner and query rewriter.

    Python objects are represented by records, dictionaries by [gmap]s or
    association lists when the iteration order is visible, Python sets by
    [gset]s, and a raised exception by the [Raise] constructor of
    [result]. *)

From Stdlib Require Import Ascii.
From stdpp Require Import gmap strings list fin_maps relations.

(** ** Exceptions and the error monad *)

Inductive exception : Type :=
  | InvalidInclude (msg : string)
  | PermissionException (msg : string)
  | BadRequest (msg : string)
  | PyException (msg : string)
  | ValueError (msg : string)
  | AttributeError
  | KeyError
  | IndexError
  | RegistryError
  | RecursionError.

Inductive result (A : Type) : Type :=
  | Ok (a : A)
  | Raise (e : exception).
Arguments Ok {A} a.
Arguments Raise {A} e.

Definition rbind {A B : Type} (m : result A) (k : A → result B) : result B :=
  match m with
  | Ok a => k a
  | Raise e => Raise e
  end.

Declare Scope result_scope.
Delimit Scope result_scope with result.
Notation "x <~ m ;; k" := (rbind m (fun x => k))
  (at level 100, m at next level, right associativity,
   format "x  <~  m  ;;  '//' k") : result_scope.
Open Scope result_scope.

(** [for x in l: acc.extend(f(x))], stopping at the first exception. *)
Fixpoint extend_each {A B : Type} (f : A → result (list B)) (l : list A)
  : result (list B) :=
  match l with
  | [] => Ok []
  | x :: l' =>
      ys <~ f x;;
      rest <~ extend_each f l';;
      Ok (ys ++ rest)
  end.

(** [str(e)]. *)
Definition exception_str (e : exception) : string :=
  match e with
  | InvalidInclude msg | PermissionException msg | BadRequest msg
  | PyException msg | ValueError msg => msg
  | AttributeError => "AttributeError"
  | KeyError => "KeyError"
  | IndexError => "IndexError"
  | RegistryError => "RegistryError"
  | RecursionError => "RecursionError"
  end.

(** [try: m  except Exception as e: raise InvalidInclude(str(e))]. *)
Definition except_Exception_as_InvalidInclude {A} (m : result A) : result A :=
  match m with
  | Ok a => Ok a
  | Raise e => Raise (InvalidInclude (exception_str e))
  end.

(** [try: m  except ValueError as e: raise InvalidInclude(str(e))]. *)
Definition except_ValueError_as_InvalidInclude {A} (m : result A) : result A :=
  match m with
  | Raise (ValueError msg) => Raise (InvalidInclude msg)
  | other => other
  end.

(** ** Python string helpers *)

Module Py.

(** [s.split(sep)] for a one-character separator: never the empty list. *)
Fixpoint split (sep : ascii) (s : string) : list string :=
  match s with
  | EmptyString => [EmptyString]
  | String c s' =>
      if decide (c = sep) then EmptyString :: split sep s'
      else match split sep s' with
           | [] => [String c EmptyString]
           | w :: ws => String c w :: ws
           end
  end.

(** [sep.join(l)]. *)
Fixpoint join (sep : ascii) (l : list string) : string :=
  match l with
  | [] => EmptyString
  | [w] => w
  | w :: ws => w +:+ String sep (join sep ws)
  end.

(** [sep in s]. *)
Fixpoint contains (sep : ascii) (s : string) : bool :=
  match s with
  | EmptyString => false
  | String c s' => if decide (c = sep) then true else contains sep s'
  end.

(** [s.startswith(p)]. *)
Definition startswith (s p : string) : bool := String.prefix p s.

(** [l[n:]]. *)
Definition slice_from {A} (n : nat) (l : list A) : list A := drop n l.

(** [list(set(a) & set(b))] and [list(set(a) | set(b))]; the order of a
    Python set is unspecified, the order of [elements] stands for it. *)
Definition set_of (l : list string) : gset string := list_to_set l.

End Py.

Definition dot : ascii := "."%char.
Definition comma : ascii := ","%char.

(** [SPLIT_REL] of flask_combo_jsonapi.utils. *)
Definition SPLIT_REL : ascii := dot.

(** ** SQLAlchemy models *)

(** What [getattr(model, name)] finds: a mapped column, a relationship to
    the model named [target], or any other class attribute. *)
Inductive Attr : Type :=
  | AColumn
  | ARelationship (target : string)
  | AOther.

Global Instance Attr_eq_dec : EqDecision Attr.
Proof. solve_decision. Defined.

(** A mapped class: [__name__], the items of [__dict__] in order, the keys of
    [__table__.columns], and [Meta.required_fields] (empty when the model
    has no [Meta]). *)
Record Model : Type := {
  m_name : string;
  m_dict : list (string * Attr);
  m_table_columns : list string;
  m_required_fields : gmap string (list string);
}.

(** [d.get(k)] on the items of a dictionary kept in insertion order. *)
Fixpoint assoc {A : Type} (k : string) (l : list (string * A)) : option A :=
  match l with
  | [] => None
  | (k', v) :: l' => if decide (k = k') then Some v else assoc k l'
  end.

(** [get_columns_for_query]: the keys of [model.__dict__] bound to column
    attributes, in dictionary order. *)
Definition get_columns_for_query (model : Model) : list string :=
  (filter (λ kv, kv.2 = AColumn) (m_dict model)).*1.

(** [get_required_fields]; [fuel] bounds the depth of the Python call
    stack, and running out of it is the interpreter's [RecursionError]. *)
Fixpoint get_required_fields (fuel : nat) (field_name : string) (model : Model)
  : result (list string) :=
  match fuel with
  | 0 => Raise RecursionError
  | S fuel' =>
      let required_fields := m_required_fields model in
      match required_fields !! field_name with
      | Some deps =>
          rest <~ extend_each (λ i_field, get_required_fields fuel' i_field model) deps;;
          Ok (deps ++ rest)
      | None => Ok []
      end
  end.

(** [y] is listed under [x] in the model's [Meta.required_fields]. *)
Definition requires (model : Model) (x y : string) : Prop :=
  ∃ deps, m_required_fields model !! x = Some deps ∧ y ∈ deps.

(** The dependency declarations of the model contain no cycle. *)
Definition acyclic (model : Model) : Prop := ∀ x, ¬ tc (requires model) x x.

(** ** The route interceptor *)

Module Route.

(** Which framework base class the resource derives from. *)
Inductive ResourceBase : Type :=
  | BaseResourceList
  | BaseResourceDetail
  | BaseOther.

(** The four literals [after_route] passes as [type_method]. *)
Inductive Method : Type := GET | POST | PATCH | DELETE.

Global Instance Method_eq_dec : EqDecision Method.
Proof. solve_decision. Defined.

(** [type_method.lower()] and [type_method.upper()]. *)
Definition lower (m : Method) : string :=
  match m with GET => "get" | POST => "post" | PATCH => "patch" | DELETE => "delete" end.
Definition upper (m : Method) : string :=
  match m with GET => "GET" | POST => "POST" | PATCH => "PATCH" | DELETE => "DELETE" end.

(** A view method as found on the resource class: the one the class
    defines, the [wrapper] built by [permission], a decorator applied to
    a handler, or [_resource_method_bad_request]. *)
Inductive Handler : Type :=
  | HView (name : string)
  | HPermission (method : Handler) (request_type : string) (many : bool)
  | HDecorated (decorator : string) (inner : Handler)
  | HBadRequest.

Global Instance Handler_eq_dec : EqDecision Handler.
Proof. solve_decision. Defined.

(** [resource.data_layer]: the ["model"] entry and the other entries, of
    which only the [permission_<method>] lists are read. *)
Record DataLayer : Type := {
  dl_model : option Model;
  dl_entries : gmap string (list string);
}.

(** A resource class: its base, the [_permission_plugin_inited] marker,
    the [methods] and [event] attributes when it has them, its data layer,
    its view methods by name, and what
    [get_decorators_for_resource(resource, self_json_api)] returns. *)
Record Resource : Type := {
  r_base : ResourceBase;
  r_permission_plugin_inited : bool;
  r_methods : option (list string);
  r_event : option bool;
  r_data_layer : DataLayer;
  r_attrs : gmap string Handler;
  r_decorators : list string;
}.

(** Modelled from the spec: the Permission Registry ([PermissionToMapper]
    of permission_system, which is not part of the sources). "register
    (operation_kind, entity_type, rule_classes: ordered list) appends":
    the registry is the sequence of registrations it has received. *)
Definition Registry : Type := list (string * string * list string).

Definition add_permission (type_ : string) (model : Model)
    (permission_class : list string) (reg : Registry) : Registry :=
  reg ++ [(type_, m_name model, permission_class)].

Definition setattr (resource : Resource) (name : string) (h : Handler) : Resource :=
  {| r_base := r_base resource;
     r_permission_plugin_inited := r_permission_plugin_inited resource;
     r_methods := r_methods resource;
     r_event := r_event resource;
     r_data_layer := r_data_layer resource;
     r_attrs := <[name := h]> (r_attrs resource);
     r_decorators := r_decorators resource |}.

Definition set_inited (resource : Resource) : Resource :=
  {| r_base := r_base resource;
     r_permission_plugin_inited := true;
     r_methods := r_methods resource;
     r_event := r_event resource;
     r_data_layer := r_data_layer resource;
     r_attrs := r_attrs resource;
     r_decorators := r_decorators resource |}.

(** [permission(method, request_type, many, decorators)]. *)
Definition permission (method : Handler) (request_type : string) (many : bool)
    (decorators : list string) : Handler :=
  fold_left (λ wrapper i_decorator, HDecorated i_decorator wrapper)
            decorators (HPermission method request_type many).

(** [getattr(resource, "methods", default)]. *)
Definition methods_or (resource : Resource) (dflt : list string) : list string :=
  default dflt (r_methods resource).

(** [getattr(resource, "event", False) is False]. *)
Definition event_is_False (resource : Resource) : bool :=
  match r_event resource with
  | None | Some false => true
  | Some true => false
  end.

Definition no_permission_case (model : Model) (type_ : string) : string :=
  "No permission case for " +:+ m_name model +:+ " " +:+ type_.

(** [PermissionPlugin._permission_method]. *)
Definition _permission_method (strict : bool) (resource : Resource)
    (type_method : Method) (reg : Registry) : result (Resource * Registry) :=
  let l_type := lower type_method in
  let u_type := upper type_method in
  let continue (methods : list string) (type_ : string) (many : bool) :=
    model <~ match dl_model (r_data_layer resource) with
             | Some model => Ok model
             | None => Raise KeyError
             end;;
    match r_attrs resource !! l_type with
    | None => Ok (resource, reg)
    | Some old_method =>
        let permissions :=
          default [] (dl_entries (r_data_layer resource) !! ("permission_" +:+ l_type)) in
        let reg := add_permission type_ model permissions reg in
        if strict && event_is_False resource && bool_decide (u_type ∈ methods)
           && bool_decide (permissions = [])
        then Raise (PermissionException (no_permission_case model type_))
        else
          let new_method := permission old_method l_type many (r_decorators resource) in
          if bool_decide (u_type ∈ methods)
          then Ok (setattr resource l_type new_method, reg)
          else Ok (setattr resource l_type HBadRequest, reg)
    end in
  match r_base resource with
  | BaseResourceList =>
      continue (methods_or resource ["GET"; "POST"])
               (if bool_decide (l_type = "get") then "get_list" else l_type) true
  | BaseResourceDetail =>
      continue (methods_or resource ["GET"; "PATCH"; "DELETE"]) l_type false
  | BaseOther => Ok (resource, reg)
  end.

(** The body of [for method in methods: self._permission_method(...)]. *)
Fixpoint permission_methods (strict : bool) (methods : list Method)
    (resource : Resource) (reg : Registry) : result (Resource * Registry) :=
  match methods with
  | [] => Ok (resource, reg)
  | method :: rest =>
      st <~ _permission_method strict resource method reg;;
      permission_methods strict rest st.1 st.2
  end.

(** [PermissionPlugin.after_route]. *)
Definition after_route (strict : bool) (resource : Resource) (reg : Registry)
    : result (Resource * Registry) :=
  if r_permission_plugin_inited resource then Ok (resource, reg)
  else
    let install (methods : list Method) :=
      st <~ permission_methods strict methods resource reg;;
      Ok (set_inited st.1, st.2) in
    match r_base resource with
    | BaseResourceList => install [GET; POST]
    | BaseResourceDetail => install [GET; PATCH; DELETE; POST]
    | BaseOther => Ok (resource, reg)
    end.

(** The methods [after_route] walks through for a base class, the
    resource's effective [methods], and the [type_] and [many] that
    [_permission_method] derives. *)
Definition route_methods (base : ResourceBase) : list Method :=
  match base with
  | BaseResourceList => [GET; POST]
  | BaseResourceDetail => [GET; PATCH; DELETE; POST]
  | BaseOther => []
  end.

Definition enabled_methods (resource : Resource) : list string :=
  match r_base resource with
  | BaseResourceList => methods_or resource ["GET"; "POST"]
  | BaseResourceDetail => methods_or resource ["GET"; "PATCH"; "DELETE"]
  | BaseOther => []
  end.

Definition type_of (base : ResourceBase) (type_method : Method) : string :=
  match base with
  | BaseResourceList =>
      if bool_decide (lower type_method = "get") then "get_list" else lower type_method
  | _ => lower type_method
  end.

Definition many_of (base : ResourceBase) : bool :=
  match base with BaseResourceList => true | _ => false end.

(** [resource.data_layer.get(f"permission_{l_type}", [])]. *)
Definition permissions_of (resource : Resource) (type_method : Method) : list string :=
  default [] (dl_entries (r_data_layer resource) !! ("permission_" +:+ lower type_method)).

End Route.

(** ** Schemas, permissions and the query string *)

(** What a [Relationship] holds in [_Relationship__schema]: a schema
    instance, given by the name of its class, or the name under which the
    related schema class is registered. These are the two cases
    [_get_schema] tells apart. *)
Inductive RelatedSchema : Type :=
  | SchemaInstance (class_name : string)
  | RegisteredName (name : string).

Global Instance RelatedSchema_eq_dec : EqDecision RelatedSchema.
Proof. solve_decision. Defined.

(** A declared schema field: its [attribute] option and its kind. A
    [fields.Nested] field names the class of the embedded schema, a
    [Relationship] holds its related schema. *)
Inductive FieldKind : Type :=
  | FPlain
  | FNested (schema : string)
  | FRelationship (schema : RelatedSchema).

Global Instance FieldKind_eq_dec : EqDecision FieldKind.
Proof. solve_decision. Defined.

(** For a nested field also the [many], [only] and [exclude] it was
    declared with. *)
Record FieldDecl : Type := {
  fd_attribute : option string;
  fd_kind : FieldKind;
  fd_many : bool;
  fd_only : option (list string);
  fd_exclude : list string;
}.

(** A schema class: [__name__], [Meta.type_] and [_declared_fields]. *)
Record SchemaClass : Type := {
  sc_name : string;
  sc_type_ : string;
  sc_declared_fields : list (string * FieldDecl);
}.

(** A join spec is the argument tuple of [query.join], a filter the
    criterion handed to [query.filter]. *)
Definition JoinSpec : Type := list string.
Definition Filter : Type := string.

(** Modelled from the spec: the Access Descriptor ([PermissionForGet] of
    permission_system, which is not part of the sources),
    [{columns: set<FieldPath>, joins: ordered list of join specs, filters:
    list of predicates}]; [columns_and_jsonb_columns] is the flat set of
    allowed dotted paths the schema pruner receives. *)
Record PermissionForGet : Type := {
  columns : gset string;
  columns_and_jsonb_columns : list string;
  joins : list JoinSpec;
  filters : list Filter;
}.

(** Modelled from the spec: the Permission Resolver ([PermissionUser] of
    permission_system), request-scoped, which owns the Access Descriptor
    of each entity type for the current principal; the descriptor is
    found by the model's name. *)
Record PermissionUser : Type := {
  pu_descriptors : string → PermissionForGet;
}.

Definition permission_for_get (permission : PermissionUser) (model : Model)
  : PermissionForGet :=
  pu_descriptors permission (m_name model).

(** [QueryStringManager] of flask_combo_jsonapi: the [qs] dictionary of
    request parameters. The properties read from it follow the
    query-string contract [include=<path>,<path>] and
    [fields[<type>]=<name>,<name>]: the fields requested for a type are
    the comma-separated names under the key of the type, and no
    validation of the names is modelled. *)
Record QueryStringManager : Type := {
  qs : gmap string string;
}.

Definition fields_key (type_ : string) : string := "fields[" +:+ type_ +:+ "]".

(** [qs.include]. *)
Definition qs_include (q : QueryStringManager) : list string :=
  match qs q !! "include" with
  | Some include_param =>
      if bool_decide (include_param = "") then [] else Py.split comma include_param
  | None => []
  end.

(** [qs.fields.get(type_)] and [qs._get_key_values("fields").get(type_)]. *)
Definition qs_fields_get (q : QueryStringManager) (type_ : string)
  : option (list string) :=
  Py.split comma <$> qs q !! fields_key type_.

(** ** The SQLAlchemy query and its loader options *)

(** The attribute [getattr(model, key)] bound to its class. *)
Record BoundAttr : Type := {
  ba_model : string;
  ba_key : string;
  ba_attr : Attr;
}.

(** A [joinedload] chain: its path and the column sets of the [load_only]
    calls issued on it, in order. *)
Record JoinLoad : Type := {
  jl_path : list BoundAttr;
  jl_load_only : list (gset string);
}.

Inductive QueryOption : Type :=
  | OptLoadOnly (names : gset string)
  | OptJoinedLoad (joinload_object : option JoinLoad).

Record Query : Type := {
  q_joins : list JoinSpec;
  q_filters : list Filter;
  q_options : list QueryOption;
}.

Definition query_join (query : Query) (i_join : JoinSpec) : Query :=
  {| q_joins := q_joins query ++ [i_join];
     q_filters := q_filters query;
     q_options := q_options query |}.

Definition query_filter (query : Query) (criteria : list Filter) : Query :=
  {| q_joins := q_joins query;
     q_filters := q_filters query ++ criteria;
     q_options := q_options query |}.

Definition query_options (query : Query) (option : QueryOption) : Query :=
  {| q_joins := q_joins query;
     q_filters := q_filters query;
     q_options := q_options query ++ [option] |}.

(** [joinedload(attr)], [joinload_object.joinedload(attr)] and
    [joinload_object.load_only]. *)
Definition joinedload (attr : BoundAttr) : JoinLoad :=
  {| jl_path := [attr]; jl_load_only := [] |}.

Definition joinedload_next (joinload_object : JoinLoad) (attr : BoundAttr) : JoinLoad :=
  {| jl_path := jl_path joinload_object ++ [attr];
     jl_load_only := jl_load_only joinload_object |}.

Definition load_only (joinload_object : JoinLoad) (names : gset string) : JoinLoad :=
  {| jl_path := jl_path joinload_object;
     jl_load_only := jl_load_only joinload_object ++ [names] |}.

(** What [self_json_api.eagerload_includes] is bound to. *)
Inductive EagerloadIncludes : Type :=
  | EagerloadOriginal
  | EagerloadIdentity
  | EagerloadFalse.

(** [self_json_api]: the data layer's model, [resource.schema] and the
    [eagerload_includes] attribute. *)
Record Api : Type := {
  api_model : Model;
  api_schema : SchemaClass;
  api_eagerload_includes : EagerloadIncludes;
}.

Definition set_eagerload_includes (self_json_api : Api) (v : EagerloadIncludes) : Api :=
  {| api_model := api_model self_json_api;
     api_schema := api_schema self_json_api;
     api_eagerload_includes := v |}.

(** ** The query rewriter *)

Module Rewriter.

Section Rewriter.

(** The mapped classes by name and marshmallow's class registry. *)
Variable models : string → Model.
Variable class_registry : string → option SchemaClass.

(** The depth of call stack available to [get_required_fields]. *)
Variable fuel : nat.

Definition has_no_attribute (schema : SchemaClass) (field : string) : string :=
  sc_name schema +:+ " has no attribute " +:+ field.

(** [get_model_field] of flask_combo_jsonapi.schema: the model attribute a
    schema field stands for; an undeclared field raises [Exception]. *)
Definition get_model_field (schema : SchemaClass) (field : string) : result string :=
  match assoc field (sc_declared_fields schema) with
  | None => Raise (PyException (has_no_attribute schema field))
  | Some decl => Ok (default field (fd_attribute decl))
  end.

(** [get_related_schema] of flask_combo_jsonapi.schema: what the
    relationship field holds in [_Relationship__schema]; a field that is
    not declared or is no relationship raises [KeyError]. *)
Definition get_related_schema (schema : SchemaClass) (field : string)
  : result RelatedSchema :=
  match assoc field (sc_declared_fields schema) with
  | None => Raise KeyError
  | Some decl =>
      match fd_kind decl with
      | FRelationship related_schema_cls => Ok related_schema_cls
      | _ => Raise KeyError
      end
  end.

(** [class_registry.get_class] of marshmallow. *)
Definition get_class (name : string) : result SchemaClass :=
  match class_registry name with
  | Some cls => Ok cls
  | None => Raise RegistryError
  end.

(** [related_schema_cls.__class__] of a schema instance. marshmallow
    registers every schema class under its name when the class is
    created, so the class of an instance is found there. *)
Definition instance_class (class_name : string) : result SchemaClass :=
  get_class class_name.

(** [related_schema_cls.Meta.type_] on what [get_related_schema] returns:
    a registered name is a string and has no [Meta]. *)
Definition meta_type_ (related_schema_cls : RelatedSchema) : result string :=
  match related_schema_cls with
  | SchemaInstance class_name =>
      cls <~ instance_class class_name;;
      Ok (sc_type_ cls)
  | RegisteredName _ => Raise AttributeError
  end.

(** [getattr(model, name)]. *)
Definition getattr (model : Model) (name : string) : result BoundAttr :=
  match assoc name (m_dict model) with
  | Some attr => Ok {| ba_model := m_name model; ba_key := name; ba_attr := attr |}
  | None => Raise AttributeError
  end.

(** [attr.mapper.class_] and [attr.property.mapper.class_]. *)
Definition mapper_class_ (attr : Attr) : result Model :=
  match attr with
  | ARelationship target => Ok (models target)
  | _ => Raise AttributeError
  end.

Definition not_foreign_key (name : string) (mapper : Model) : string :=
  "Not foreign ket " +:+ name +:+ " in mapper " +:+ m_name mapper.

(** [PermissionPlugin._get_model]. *)
Fixpoint _get_model_loop (mapper : Model) (names : list string) : result Model :=
  match names with
  | [] => Ok mapper
  | i_name_foreign_key :: rest =>
      let mapper_old := mapper in
      match assoc i_name_foreign_key (m_dict mapper_old) with
      | None => Raise (ValueError (not_foreign_key i_name_foreign_key mapper_old))
      | Some attr =>
          mapper <~ mapper_class_ attr;;
          _get_model_loop mapper rest
      end
  end.

Definition _get_model (model : Model) (name_foreign_key : string) : result Model :=
  _get_model_loop model (Py.split SPLIT_REL name_foreign_key).

(** [PermissionPlugin._is_access_foreign_key]. *)
Definition _is_access_foreign_key (name_foreign_key : string) (model : Model)
    (permission : PermissionUser) : bool :=
  let permission_for_get := permission_for_get permission model in
  let name_foreign_key := List.last (Py.split SPLIT_REL name_foreign_key) "" in
  if bool_decide (name_foreign_key ∉ columns permission_for_get) then false else true.

(** [PermissionPlugin._update_qs_fields]. *)
Definition _update_qs_fields (type_schema : string) (fields : list string)
    (q : QueryStringManager) (name_foreign_key : string) : QueryStringManager :=
  let new_fields :=
    match qs_fields_get q type_schema with
    | Some old => elements (Py.set_of old ∩ Py.set_of fields)
    | None => fields
    end in
  let new_qs := filter (λ kv, kv.2 ≠ "") (qs q) in
  let include := Py.split comma (default "" (new_qs !! "include")) in
  if bool_decide (new_fields = []) && bool_decide (include ≠ [])
     && bool_decide (name_foreign_key ∈ include)
  then
    {| qs := <["include" :=
                 Py.join comma (filter (λ inc, inc ≠ name_foreign_key) include)]> new_qs |}
  else
    {| qs := <[fields_key type_schema := Py.join comma new_fields]> new_qs |}.

(** [PermissionPlugin._get_schema]. *)
Definition _get_schema (current_schema : SchemaClass) (obj : string)
  : result SchemaClass :=
  related_schema_cls <~ get_related_schema current_schema obj;;
  match related_schema_cls with
  | SchemaInstance class_name => instance_class class_name
  | RegisteredName name => get_class name
  end.

(** [PermissionPlugin._get_access_fields_in_schema]; the descriptor's
    [columns] are a set, never [None]. *)
Definition _get_access_fields_in_schema (name_foreign_key : string)
    (cls_schema : SchemaClass) (permission : PermissionUser) (model : Model)
    (q : QueryStringManager) : result (list string * QueryStringManager) :=
  field_foreign_key <~ get_model_field cls_schema name_foreign_key;;
  mapper <~ _get_model model field_foreign_key;;
  current_schema <~ _get_schema cls_schema name_foreign_key;;
  let permission_for_get := permission_for_get permission mapper in
  let name_columns :=
    elements (Py.set_of (sc_declared_fields current_schema).*1
              ∩ columns permission_for_get) in
  let q := _update_qs_fields (sc_type_ current_schema) name_columns q name_foreign_key in
  Ok (name_columns, q).

(** [joinload_object.path[i].property.mapper.class_]. *)
Definition path_class_ (joinload_object : JoinLoad) (i : nat) : result Model :=
  match jl_path joinload_object !! i with
  | None => Raise IndexError
  | Some attr => mapper_class_ (ba_attr attr)
  end.

(** The column restriction shared by both branches of
    [_eagerload_includes]: the accessible names, cut down to the requested
    ones and to the columns of the joined class, plus what they require. *)
Definition restrict_columns (name_columns : list string)
    (user_requested_columns : option (list string)) (joinload_object : JoinLoad)
    (i : nat) : result (gset string) :=
  let name_columns :=
    match user_requested_columns with
    | Some (c :: cs) => Py.set_of name_columns ∩ Py.set_of (c :: cs)
    | _ => Py.set_of name_columns
    end in
  joined <~ path_class_ joinload_object i;;
  let name_columns := name_columns ∩ Py.set_of (get_columns_for_query joined) in
  required_columns_names <~
    extend_each (λ i_name, get_required_fields fuel i_name joined)
                (elements name_columns);;
  Ok (name_columns ∪ Py.set_of required_columns_names).

(** The variables of the loop over the segments of a dotted include. *)
Record Walk : Type := {
  w_joinload_object : option JoinLoad;
  w_current_schema : SchemaClass;
  w_model : Model;
  w_qs : QueryStringManager;
}.

(** One iteration of [for i, obj in enumerate(include.split(SPLIT_REL))]. *)
Definition dotted_step (permission : PermissionUser) (i : nat) (obj : string)
    (w : Walk) : result Walk :=
  let current_schema := w_current_schema w in
  let model := w_model w in
  field <~ except_Exception_as_InvalidInclude (get_model_field current_schema obj);;
  if negb (_is_access_foreign_key obj model permission) then Ok w
  else
    attr <~ getattr model field;;
    let joinload_object :=
      match w_joinload_object w with
      | None => joinedload attr
      | Some joinload_object => joinedload_next joinload_object attr
      end in
    access <~ _get_access_fields_in_schema obj current_schema permission model (w_qs w);;
    let name_columns := access.1 in
    let q := access.2 in
    current_schema <~ _get_schema current_schema obj;;
    let user_requested_columns := qs_fields_get q (sc_type_ current_schema) in
    name_columns <~ restrict_columns name_columns user_requested_columns joinload_object i;;
    let joinload_object := load_only joinload_object name_columns in
    model <~ except_ValueError_as_InvalidInclude (_get_model model field);;
    Ok {| w_joinload_object := Some joinload_object;
          w_current_schema := current_schema;
          w_model := model;
          w_qs := q |}.

Fixpoint dotted_loop (permission : PermissionUser) (i : nat) (objs : list string)
    (w : Walk) : result Walk :=
  match objs with
  | [] => Ok w
  | obj :: rest =>
      w <~ dotted_step permission i obj w;;
      dotted_loop permission (S i) rest w
  end.

(** One iteration of [for include in qs.include]. *)
Definition eagerload_include (permission : PermissionUser) (self_json_api : Api)
    (include : string) (st : Query * QueryStringManager)
  : result (Query * QueryStringManager) :=
  let query := st.1 in
  let q := st.2 in
  if Py.contains SPLIT_REL include then
    w <~ dotted_loop permission 0 (Py.split SPLIT_REL include)
           {| w_joinload_object := None;
              w_current_schema := api_schema self_json_api;
              w_model := api_model self_json_api;
              w_qs := q |};;
    Ok (query_options query (OptJoinedLoad (w_joinload_object w)), w_qs w)
  else
    field <~ except_Exception_as_InvalidInclude
               (get_model_field (api_schema self_json_api) include);;
    if negb (_is_access_foreign_key include (api_model self_json_api) permission)
    then Ok (query, q)
    else
      attr <~ getattr (api_model self_json_api) field;;
      let joinload_object := joinedload attr in
      access <~ _get_access_fields_in_schema include (api_schema self_json_api)
                  permission (api_model self_json_api) q;;
      let name_columns := access.1 in
      let q := access.2 in
      related_schema_cls <~ get_related_schema (api_schema self_json_api) include;;
      type_ <~ meta_type_ related_schema_cls;;
      let user_requested_columns := qs_fields_get q type_ in
      name_columns <~ restrict_columns name_columns user_requested_columns joinload_object 0;;
      let joinload_object := load_only joinload_object name_columns in
      Ok (query_options query (OptJoinedLoad (Some joinload_object)), q).

Fixpoint eagerload_loop (permission : PermissionUser) (self_json_api : Api)
    (includes : list string) (st : Query * QueryStringManager)
  : result (Query * QueryStringManager) :=
  match includes with
  | [] => Ok st
  | include :: rest =>
      st <~ eagerload_include permission self_json_api include st;;
      eagerload_loop permission self_json_api rest st
  end.

(** [PermissionPlugin._eagerload_includes]; the rewritten query string is
    returned next to the query. *)
Definition _eagerload_includes (query : Query) (q : QueryStringManager)
    (permission : PermissionUser) (self_json_api : Api)
  : result (Query * QueryStringManager) :=
  eagerload_loop permission self_json_api (qs_include q) (query, q).

(** [PermissionPlugin._get_permission_user]. *)
Definition _get_permission_user (view_kwargs : option PermissionUser)
  : result PermissionUser :=
  match view_kwargs with
  | Some permission_user => Ok permission_user
  | None => Raise (PyException "No permission for user")
  end.

(** The joins and filters of the descriptor, applied in order. *)
Definition apply_joins_filters (query : Query) (permission_for_get : PermissionForGet)
  : Query :=
  let query := fold_left query_join (joins permission_for_get) query in
  query_filter query (filters permission_for_get).


(** [PermissionPlugin.data_layer_get_collection_update_query]. *)
Definition data_layer_get_collection_update_query (query : Query)
    (q : QueryStringManager) (view_kwargs : option PermissionUser)
    (self_json_api : Api)
  : result (Query * QueryStringManager * Api) :=
  permission <~ _get_permission_user view_kwargs;;
  let permission_for_get := permission_for_get permission (api_model self_json_api) in
  let query := apply_joins_filters query permission_for_get in
  let name_columns := columns permission_for_get in
  let name_columns :=
    match qs_fields_get q (sc_type_ (api_schema self_json_api)) with
    | Some (c :: cs) => name_columns ∩ Py.set_of (c :: cs)
    | _ => name_columns
    end in
  let name_columns :=
    name_columns ∩ Py.set_of (get_columns_for_query (api_model self_json_api)) in
  required_columns_names <~
    extend_each (λ i_name, get_required_fields fuel i_name (api_model self_json_api))
                (elements name_columns);;
  let name_columns := name_columns ∪ Py.set_of required_columns_names in
  let query := query_options query (OptLoadOnly name_columns) in
  let self_json_api := set_eagerload_includes self_json_api EagerloadFalse in
  st <~ _eagerload_includes query q permission self_json_api;;
  Ok (st.1, st.2, self_json_api).

End Rewriter.

End Rewriter.

(** ** The schema pruner *)

Module Pruner.

(** A field object of a schema instance: its declaration and the schema
    instance bound to it, if any. For a nested field this is the [_schema]
    cache, for a relationship the instance that replaced the registered
    name in [_Relationship__schema]. *)
Record Field : Type := {
  f_decl : FieldDecl;
  f_instance : option nat;
}.

(** A schema instance. [declared_fields] owns the field objects; [fields]
    and [dump_fields] are ordered dictionaries over the same objects and
    are kept as their key lists. *)
Record Schema : Type := {
  s_class : string;
  s_many : bool;
  s_declared_fields : list (string * Field);
  s_fields : list string;
  s_dump_fields : list string;
  s_only : option (gset string);
  s_include_data : list string;
}.

(** The schema instances of the process, by address. *)
Abbreviation Store := (gmap nat Schema).

(** The [schema] argument of the pruner: an instance, or the registered
    name or class a relationship still holds. *)
Inductive SchemaRef : Type :=
  | RefInstance (a : nat)
  | RefUnresolved.

Definition field_ref (f : Field) : SchemaRef :=
  match f_instance f with
  | Some a => RefInstance a
  | None => RefUnresolved
  end.

(** Whether the constructor keeps a declared field. *)
Definition selected (only : option (list string)) (exclude : list string)
    (name : string) : bool :=
  match only with
  | Some only => bool_decide (name ∈ only)
  | None => true
  end && bool_decide (name ∉ exclude).

(** [cls_schema(many=..., only=..., exclude=..., ...)]: a new instance with
    its own copies of the declared fields, restricted to [only] without
    [exclude]. *)
Definition new_schema (cls_schema : SchemaClass) (many : bool)
    (only : option (list string)) (exclude : list string) : Schema :=
  let names := filter (selected only exclude) (sc_declared_fields cls_schema).*1 in
  {| s_class := sc_name cls_schema;
     s_many := many;
     s_declared_fields :=
       prod_map id (λ decl, {| f_decl := decl; f_instance := None |})
         <$> sc_declared_fields cls_schema;
     s_fields := names;
     s_dump_fields := names;
     s_only := Py.set_of <$> only;
     s_include_data := [] |}.

(** The field object found under [name] gets [a] as its instance. *)
Fixpoint bind_field (name : string) (a : nat) (l : list (string * Field))
  : list (string * Field) :=
  match l with
  | [] => []
  | (k, f) :: l' =>
      if decide (name = k)
      then (k, {| f_decl := f_decl f; f_instance := Some a |}) :: l'
      else (k, f) :: bind_field name a l'
  end.

(** [i_field._schema = i_schema] on the field [name] of the schema. *)
Definition set_field_instance (name : string) (a : nat) (s : Schema) : Schema :=
  {| s_class := s_class s;
     s_many := s_many s;
     s_declared_fields := bind_field name a (s_declared_fields s);
     s_fields := s_fields s;
     s_dump_fields := s_dump_fields s;
     s_only := s_only s;
     s_include_data := s_include_data s |}.

(** The assignments to [fields], [dump_fields], [only] and
    [include_data]. *)
Definition restrict (s : Schema) (fields dump_fields : list string)
    (only : gset string) (include_data : list string) : Schema :=
  {| s_class := s_class s;
     s_many := s_many s;
     s_declared_fields := s_declared_fields s;
     s_fields := fields;
     s_dump_fields := dump_fields;
     s_only := Some only;
     s_include_data := include_data |}.

(** [f"{prefix_name_column}.{name}" if prefix_name_column else name]. *)
Definition extend_prefix (prefix_name_column name : string) : string :=
  if bool_decide (prefix_name_column = "") then name
  else prefix_name_column +:+ "." +:+ name.

(** The test of the loop over [columns]: the column lies under the
    prefix. *)
Definition under_prefix (prefix_name_column i_column : string) : bool :=
  let _prefix :=
    if bool_decide (prefix_name_column = "") then ""
    else prefix_name_column +:+ "." in
  Py.startswith i_column _prefix && bool_decide (i_column ≠ prefix_name_column).

(** The allowed names at the level of the prefix. *)
Definition permission_column_of (prefix_name_column : string) (columns : list string)
  : result (list string) :=
  let nesting_size_prefix_column :=
    if bool_decide (prefix_name_column = "") then 0
    else length (Py.split dot prefix_name_column) in
  permission_column <~
    extend_each
      (λ i_column,
         if under_prefix prefix_name_column i_column then
           match Py.slice_from nesting_size_prefix_column (Py.split dot i_column) with
           | i_name_0 :: _ => Ok [i_name_0]
           | [] => Raise IndexError
           end
         else Ok [])
      columns;;
  Ok (elements (Py.set_of permission_column)).

Section Pruner.

Variable models : string → Model.
Variable class_registry : string → option SchemaClass.

(** [get_model_field] on a schema instance. *)
Definition get_model_field (s : Schema) (field : string) : result string :=
  match assoc field (s_declared_fields s) with
  | None => Raise (PyException (s_class s +:+ " has no attribute " +:+ field))
  | Some f => Ok (default field (fd_attribute (f_decl f)))
  end.

(** [schema.declared_fields[i_include].__dict__["_Relationship__schema"]]. *)
Definition relationship_schema (s : Schema) (i_include : string) : result SchemaRef :=
  match assoc i_include (s_declared_fields s) with
  | None => Raise KeyError
  | Some f =>
      match fd_kind (f_decl f) with
      | FRelationship _ => Ok (field_ref f)
      | _ => Raise KeyError
      end
  end.

(** The loop over [schema.fields.items()]: every allowed nested field gets
    a new schema instance, which is pruned under the extended prefix.
    [recurse] is the pruner itself with [columns] and [is_nested=True]. *)
Fixpoint nested_loop (recurse : Store → SchemaRef → string → result Store)
    (a : nat) (permission_column : list string) (prefix_name_column : string)
    (names : list string) (σ : Store) : result Store :=
  match names with
  | [] => Ok σ
  | i_field_name :: rest =>
      σ <~ match σ !! a ≫= λ s, assoc i_field_name (s_declared_fields s) with
           | Some i_field =>
               match fd_kind (f_decl i_field) with
               | FNested nested =>
                   if bool_decide (i_field_name ∈ permission_column) then
                     match class_registry nested with
                     | None => Raise RegistryError
                     | Some cls_schema =>
                         let i_schema :=
                           new_schema cls_schema (fd_many (f_decl i_field))
                             (fd_only (f_decl i_field)) (fd_exclude (f_decl i_field)) in
                         let fresh_address := fresh (dom σ) in
                         let σ := <[fresh_address := i_schema]> σ in
                         let σ := alter (set_field_instance i_field_name fresh_address) a σ in
                         recurse σ (RefInstance fresh_address)
                                 (extend_prefix prefix_name_column i_field_name)
                     end
                   else Ok σ
               | _ => Ok σ
               end
           | None => Ok σ
           end;;
      nested_loop recurse a permission_column prefix_name_column rest σ
  end.

(** The loop over [include_data]: the schema a relationship refers to is
    pruned where it is. [recurse] is the pruner itself with [columns]. *)
Fixpoint include_loop (recurse : Store → SchemaRef → option Model → string → result Store)
    (a : nat) (model : option Model) (prefix_name_column : string)
    (includes : list string) (σ : Store) : result Store :=
  match includes with
  | [] => Ok σ
  | i_include :: rest =>
      σ <~ match σ !! a with
           | None => Raise AttributeError
           | Some s =>
               if bool_decide (i_include ∈ s_fields s) then
                 field <~ get_model_field s i_include;;
                 i_model <~ match model with
                            | Some model => Rewriter._get_model models model field
                            | None => Raise AttributeError
                            end;;
                 related <~ relationship_schema s i_include;;
                 recurse σ related (Some i_model)
                         (extend_prefix prefix_name_column i_include)
               else Ok σ
           end;;
      include_loop recurse a model prefix_name_column rest σ
  end.

(** [PermissionPlugin._permission_for_link_schema]; [fuel] bounds the
    depth of the recursion. *)
Fixpoint _permission_for_link_schema (fuel : nat) (σ : Store) (schema : SchemaRef)
    (model : option Model) (prefix_name_column : string)
    (columns : option (list string)) (is_nested : bool) : result Store :=
  match fuel with
  | 0 => Raise RecursionError
  | S fuel' =>
      match columns with
      | None | Some [] => Ok σ
      | Some (c :: cs) =>
          permission_column <~ permission_column_of prefix_name_column (c :: cs);;
          if bool_decide (permission_column = []) then Ok σ
          else
            match schema with
            | RefUnresolved => Raise AttributeError
            | RefInstance a =>
                match σ !! a with
                | None => Raise AttributeError
                | Some s =>
                    let name_fields :=
                      filter (λ i_name_field, i_name_field ∈ permission_column)
                             (s_declared_fields s).*1 in
                    let only :=
                      match s_only s with
                      | Some only =>
                          if bool_decide (only = ∅) then Py.set_of name_fields else only
                      | None => Py.set_of name_fields
                      end in
                    let only := only ∩ Py.set_of name_fields in
                    let fields := filter (λ name, name ∈ only) (s_fields s) in
                    let dump_fields := filter (λ name, name ∈ only) fields in
                    let include_data :=
                      filter (λ i_include, i_include ∈ name_fields) (s_include_data s) in
                    let σ := <[a := restrict s fields dump_fields only include_data]> σ in
                    σ <~ nested_loop
                           (λ σ i_schema prefix,
                              _permission_for_link_schema fuel' σ i_schema None prefix
                                columns true)
                           a permission_column prefix_name_column fields σ;;
                    if is_nested then Ok σ
                    else
                      include_loop
                        (λ σ related i_model prefix,
                           _permission_for_link_schema fuel' σ related i_model prefix
                             columns false)
                        a model prefix_name_column include_data σ
                end
            end
      end
  end.

(** [PermissionPlugin._permission_for_schema]. *)
Definition _permission_for_schema (fuel : nat) (σ : Store) (schema : nat)
    (model : Model) (permission_user : option PermissionUser) : result Store :=
  match permission_user with
  | None => Raise (PyException "No permission for user")
  | Some permission_user =>
      let permission_column :=
        columns_and_jsonb_columns (permission_for_get permission_user model) in
      _permission_for_link_schema fuel σ (RefInstance schema) (Some model) ""
        (Some permission_column) false
  end.

End Pruner.

(** The schema instances a relationship field of the schema refers to. *)
Definition rel_targets (s : Schema) : list nat :=
  omap (λ kv, match fd_kind (f_decl kv.2) with
              | FRelationship _ => f_instance kv.2
              | _ => None
              end)
       (s_declared_fields s).

(** [y] is the schema of a relationship of the schema at [x]. *)
Definition related (σ : Store) (x y : nat) : Prop :=
  ∃ s, σ !! x = Some s ∧ y ∈ rel_targets s.

(** No relationship refers to an instance that does not exist. *)
Definition closed (σ : Store) : Prop :=
  ∀ x s y, σ !! x = Some s → y ∈ rel_targets s → is_Some (σ !! y).

(** How the field objects of a schema instance may differ after pruning:
    the same names and declarations; a relationship keeps its schema; a
    nested field keeps its schema or is bound to an instance that did not
    exist in [σ]. *)
Definition field_evolves (σ : Store) (kv kv' : string * Field) : Prop :=
  kv'.1 = kv.1
  ∧ f_decl kv'.2 = f_decl kv.2
  ∧ (f_instance kv'.2 = f_instance kv.2
     ∨ ∃ nested n, fd_kind (f_decl kv.2) = FNested nested
                   ∧ f_instance kv'.2 = Some n ∧ σ !! n = None).

Definition fields_evolve (σ : Store) (l l' : list (string * Field)) : Prop :=
  Forall2 (field_evolves σ) l l'.

(** The instances the pruner works on in place: the schema it is called
    for and what is reachable from it through relationships. *)
Definition in_place (σ : Store) (schema : SchemaRef) (a : nat) : Prop :=
  ∃ r, schema = RefInstance r ∧ rtc (related σ) r a.

(** The store after some pruning relative to the store before: every
    instance is still there with evolved field objects, and the instances
    that are new refer to no related schema. *)
Definition preserves (σ σ' : Store) : Prop :=
  (∀ a s, σ !! a = Some s →
          ∃ s', σ' !! a = Some s'
                ∧ fields_evolve σ (s_declared_fields s) (s_declared_fields s'))
  ∧ (∀ a s', σ' !! a = Some s' → σ !! a = None → rel_targets s' = []).

(** What a run of the pruner may do to the store. *)
Definition frames (run : Store → SchemaRef → result Store) : Prop :=
  ∀ σ schema σ',
    run σ schema = Ok σ' → closed σ →
    preserves σ σ'
    ∧ ∀ a, is_Some (σ !! a) → ¬ in_place σ schema a → σ' !! a = σ !! a.

End Pruner.

(** ** What a rewritten query loads *)

(** The column sets of the [load_only] options of the query itself, in the
    order they were added. *)
Definition load_only_options (query : Query) : list (gset string) :=
  omap (λ o, match o with OptLoadOnly names => Some names | _ => None end)
       (q_options query).



(** The visible column set in the words of the specification: the
    descriptor's columns, intersected with the requested fields when the
    caller specified any, intersected with the scalar columns of the
    entity. *)
Definition visible_columns (allowed : gset string) (requested : option (list string))
    (scalar : list string) : gset string :=
  match requested with
  | Some (c :: cs) => allowed ∩ Py.set_of (c :: cs) ∩ Py.set_of scalar
  | _ => allowed ∩ Py.set_of scalar
  end.

(** [load] is [visible] together with the required-field closure of each
    of its columns. *)
Definition is_load_set (model : Model) (visible load : gset string) : Prop :=
  ∀ y, y ∈ load ↔ y ∈ visible ∨ ∃ x, x ∈ visible ∧ tc (requires model) x y.

(** The same in the words of the specification, without the functions of
    the plugin. A scalar column of the entity is an attribute of the
    mapped class that is a column (a relationship attribute is none); a
    table column is a key of the columns of its table. *)
Definition scalar_column (model : Model) (x : string) : Prop :=
  (x, AColumn) ∈ m_dict model.


(** [x] is visible: allowed by the descriptor, among the requested fields
    when the caller specified any, and a scalar column. *)
Definition visible_column (allowed : gset string) (requested : option (list string))
    (scalar : string → Prop) (x : string) : Prop :=
  x ∈ allowed
  ∧ match requested with
    | Some (c :: cs) => x ∈ c :: cs
    | _ => True
    end
  ∧ scalar x.

(** [load] holds the visible columns and everything they require, and
    nothing else. *)
Definition is_load_set_of (model : Model) (visible : string → Prop)
    (load : gset string) : Prop :=
  ∀ y, y ∈ load ↔ visible y ∨ ∃ x, visible x ∧ tc (requires model) x y.

(** ** Claims restated over the model *)


(** ** Sample data *)

Module Sample.

(** End-to-end scenario 3 of the specification: [total] is derived from
    [tax] and [subtotal]. *)
Definition invoice : Model :=
  {| m_name := "Invoice";
     m_dict := [("id", AColumn); ("total", AColumn); ("tax", AColumn);
                ("subtotal", AColumn)];
     m_table_columns := ["id"; "total"; "tax"; "subtotal"];
     m_required_fields := {["total" := ["tax"; "subtotal"]]} |}.

Definition invoice_rank (x : string) : nat :=
  if bool_decide (x = "total") then 1 else 0.

Definition person : Model :=
  {| m_name := "Person";
     m_dict := [("id", AColumn); ("name", AColumn)];
     m_table_columns := ["id"; "name"];
     m_required_fields := ∅ |}.

(** A list resource with a permission case for POST and none for GET. *)
Definition person_list : Route.Resource :=
  {| Route.r_base := Route.BaseResourceList;
     Route.r_permission_plugin_inited := false;
     Route.r_methods := None;
     Route.r_event := None;
     Route.r_data_layer :=
       {| Route.dl_model := Some person;
          Route.dl_entries := {["permission_post" := ["PersonPost"]]} |};
     Route.r_attrs :=
       <["get" := Route.HView "get"]> {["post" := Route.HView "post"]};
     Route.r_decorators := ["login_required"] |}.

Definition order : Model :=
  {| m_name := "Order";
     m_dict := [("id", AColumn); ("total", AColumn); ("shipping", AColumn);
                ("customer", ARelationship "Customer")];
     m_table_columns := ["id"; "total"; "shipping"; "customer_id"];
     m_required_fields := ∅ |}.

Definition customer : Model :=
  {| m_name := "Customer";
     m_dict := [("id", AColumn); ("email", AColumn); ("name", AColumn);
                ("address", ARelationship "Address")];
     m_table_columns := ["id"; "email"; "name"; "address_id"];
     m_required_fields := ∅ |}.

Definition address : Model :=
  {| m_name := "Address";
     m_dict := [("id", AColumn); ("city", AColumn)];
     m_table_columns := ["id"; "city"];
     m_required_fields := ∅ |}.

(** The order table mapped without its [customer] relationship. *)
Definition order_unmapped : Model :=
  {| m_name := "Order";
     m_dict := [("id", AColumn); ("total", AColumn)];
     m_table_columns := ["id"; "total"; "customer_id"];
     m_required_fields := ∅ |}.

Definition models (name : string) : Model :=
  if bool_decide (name = "Order") then order
  else if bool_decide (name = "Customer") then customer
  else if bool_decide (name = "Invoice") then invoice
  else address.

Definition plain : FieldDecl :=
  {| fd_attribute := None; fd_kind := FPlain;
     fd_many := false; fd_only := None; fd_exclude := [] |}.
Definition relationship (schema : string) : FieldDecl :=
  {| fd_attribute := None; fd_kind := FRelationship (RegisteredName schema);
     fd_many := false; fd_only := None; fd_exclude := [] |}.
Definition nested (schema : string) : FieldDecl :=
  {| fd_attribute := None; fd_kind := FNested schema;
     fd_many := false; fd_only := None; fd_exclude := [] |}.

Definition order_schema : SchemaClass :=
  {| sc_name := "OrderSchema"; sc_type_ := "order";
     sc_declared_fields :=
       [("id", plain); ("total", plain); ("shipping", nested "AddressSchema");
        ("customer", relationship "CustomerSchema")] |}.

Definition customer_schema : SchemaClass :=
  {| sc_name := "CustomerSchema"; sc_type_ := "customer";
     sc_declared_fields :=
       [("id", plain); ("email", plain); ("name", plain);
        ("address", relationship "AddressSchema")] |}.

Definition address_schema : SchemaClass :=
  {| sc_name := "AddressSchema"; sc_type_ := "address";
     sc_declared_fields := [("id", plain); ("city", plain)] |}.

Definition invoice_schema : SchemaClass :=
  {| sc_name := "InvoiceSchema"; sc_type_ := "invoice";
     sc_declared_fields :=
       [("id", plain); ("total", plain); ("tax", plain); ("subtotal", plain)] |}.

Definition class_registry (name : string) : option SchemaClass :=
  if bool_decide (name = "OrderSchema") then Some order_schema
  else if bool_decide (name = "CustomerSchema") then Some customer_schema
  else if bool_decide (name = "AddressSchema") then Some address_schema
  else if bool_decide (name = "InvoiceSchema") then Some invoice_schema
  else None.

Definition descriptor (allowed : list string) : PermissionForGet :=
  {| columns := list_to_set allowed;
     columns_and_jsonb_columns := allowed;
     joins := [];
     filters := [] |}.

(** A principal who may read the scalar columns of an order but not its
    [customer] relationship. *)
Definition clerk : PermissionUser :=
  {| pu_descriptors := λ name,
       if bool_decide (name = "Order") then descriptor ["id"; "total"]
       else if bool_decide (name = "Customer") then descriptor ["id"; "email"]
       else descriptor ["id"; "city"] |}.

(** A principal who may follow [customer], reads [id] and [name] of a
    customer, and sees only the orders of the own tenant. *)
Definition manager : PermissionUser :=
  {| pu_descriptors := λ name,
       if bool_decide (name = "Order") then
         {| columns := {["id"; "total"; "customer"]};
            columns_and_jsonb_columns := ["id"; "total"; "customer"];
            joins := [["Customer"; "Order.customer_id == Customer.id"]];
            filters := ["Customer.tenant_id == :tenant"] |}
       else if bool_decide (name = "Customer") then descriptor ["id"; "name"]
       else if bool_decide (name = "Invoice") then descriptor ["total"]
       else descriptor ["id"; "city"] |}.

Definition order_api : Api :=
  {| api_model := order; api_schema := order_schema;
     api_eagerload_includes := EagerloadOriginal |}.

Definition order_unmapped_api : Api :=
  {| api_model := order_unmapped; api_schema := order_schema;
     api_eagerload_includes := EagerloadOriginal |}.

Definition invoice_api : Api :=
  {| api_model := invoice; api_schema := invoice_schema;
     api_eagerload_includes := EagerloadOriginal |}.

Definition empty_query : Query :=
  {| q_joins := []; q_filters := []; q_options := [] |}.

Definition request (params : list (string * string)) : QueryStringManager :=
  {| qs := list_to_map params |}.

(** A schema instance of the class with all declared fields, the given
    instances bound to its fields and the given [include_data]. *)
Definition instance_of (cls : SchemaClass) (bound : list (string * nat))
    (include_data : list string) : Pruner.Schema :=
  {| Pruner.s_class := sc_name cls;
     Pruner.s_many := false;
     Pruner.s_declared_fields :=
       (λ kv, (kv.1, {| Pruner.f_decl := kv.2; Pruner.f_instance := assoc kv.1 bound |}))
         <$> sc_declared_fields cls;
     Pruner.s_fields := (sc_declared_fields cls).*1;
     Pruner.s_dump_fields := (sc_declared_fields cls).*1;
     Pruner.s_only := None;
     Pruner.s_include_data := include_data |}.

(** Two order schemas, one per request, at addresses 0 and 1. Both include
    [customer] and refer to the customer schema at address 2; both cache
    the address schema at address 3 on their nested field [shipping]. *)
Definition schemas : gmap nat Pruner.Schema :=
  <[0 := instance_of order_schema [("customer", 2); ("shipping", 3)] ["customer"]]>
  (<[1 := instance_of order_schema [("customer", 2); ("shipping", 3)] ["customer"]]>
  (<[2 := instance_of customer_schema [] []]>
  (<[3 := instance_of address_schema [] []]> ∅))).

(** The allowed field paths of two principals. *)
Definition paths_A : list string :=
  ["id"; "customer"; "customer.id"; "shipping"; "shipping.city"].

End Sample.

(** ** Further notions used by the properties *)

(** A dependency cycle can be reached from the field. *)
Definition reaches_cycle (model : Model) (x : string) : Prop :=
  ∃ y, rtc (requires model) x y ∧ tc (requires model) y y.

(** *** Route installation *)

Module RouteSpec.

Import Route.

(** What installation puts in the place of a view method: the permission
    wrapper when the method is among the resource's [methods], the
    bad-request stub otherwise. *)
Definition installed (resource : Resource) (m : Method) (old_method : Handler)
  : Handler :=
  if bool_decide (upper m ∈ enabled_methods resource)
  then permission old_method (lower m) (many_of (r_base resource))
                  (r_decorators resource)
  else HBadRequest.

(** The operation a strict plugin refuses: a view method that exists, is
    enabled, belongs to no event resource and has no permission case. *)
Definition offending (resource : Resource) (m : Method) : bool :=
  bool_decide (is_Some (r_attrs resource !! lower m))
  && event_is_False resource
  && bool_decide (upper m ∈ enabled_methods resource)
  && bool_decide (permissions_of resource m = []).

(** The registrations of an installation, in the order of the methods:
    one for each view method the resource has. *)
Definition registrations (resource : Resource) (model : Model)
    (methods : list Method) : Registry :=
  omap (λ m, if bool_decide (is_Some (r_attrs resource !! lower m))
             then Some (type_of (r_base resource) m, m_name model,
                        permissions_of resource m)
             else None)
       methods.

End RouteSpec.

(** *** The query string *)

(** The field list [_update_qs_fields] computes: the requested fields of
    the type that are accessible, or all accessible fields when none were
    requested. *)
Definition requested_accessible (q : QueryStringManager) (type_schema : string)
    (fields : list string) : list string :=
  match qs_fields_get q type_schema with
  | Some old => elements (Py.set_of old ∩ Py.set_of fields)
  | None => fields
  end.

(** *** The walk over a dotted include *)

(** The [joinedload] path built so far and the [load_only] calls issued on
    it. *)
Definition walk_path (w : Rewriter.Walk) : list BoundAttr :=
  match Rewriter.w_joinload_object w with
  | Some joinload_object => jl_path joinload_object
  | None => []
  end.

Definition walk_load_only (w : Rewriter.Walk) : list (gset string) :=
  match Rewriter.w_joinload_object w with
  | Some joinload_object => jl_load_only joinload_object
  | None => []
  end.

(** ** Further sample data *)

Module Sample2.

(** [net] is derived from [gross]; [a] and [b] require each other. *)
Definition ledger : Model :=
  {| m_name := "Ledger";
     m_dict := [("id", AColumn); ("net", AColumn); ("gross", AColumn);
                ("a", AColumn); ("b", AColumn)];
     m_table_columns := ["id"; "net"; "gross"; "a"; "b"];
     m_required_fields :=
       <["net" := ["gross"]]> (<["a" := ["b"]]> {["b" := ["a"]]}) |}.

(** A detail resource that enables GET only and has a permission case for
    it; it also has the view methods for PATCH and DELETE. *)
Definition person_detail : Route.Resource :=
  {| Route.r_base := Route.BaseResourceDetail;
     Route.r_permission_plugin_inited := false;
     Route.r_methods := Some ["GET"];
     Route.r_event := None;
     Route.r_data_layer :=
       {| Route.dl_model := Some Sample.person;
          Route.dl_entries := {["permission_get" := ["PersonGet"]]} |};
     Route.r_attrs :=
       <["get" := Route.HView "get"]>
       (<["patch" := Route.HView "patch"]> {["delete" := Route.HView "delete"]});
     Route.r_decorators := [] |}.

(** The order schema with its [customer] relationship holding a schema
    instance, and the data layer of its resource. *)
Definition order_schema_bound : SchemaClass :=
  {| sc_name := "OrderSchema"; sc_type_ := "order";
     sc_declared_fields :=
       [("id", Sample.plain); ("total", Sample.plain);
        ("shipping", Sample.nested "AddressSchema");
        ("customer",
         {| fd_attribute := None;
            fd_kind := FRelationship (SchemaInstance "CustomerSchema");
            fd_many := false; fd_only := None; fd_exclude := [] |})] |}.

Definition order_bound_api : Api :=
  {| api_model := Sample.order; api_schema := order_schema_bound;
     api_eagerload_includes := EagerloadOriginal |}.

(** A principal who reads [id] and [total] of an invoice. *)
Definition accountant : PermissionUser :=
  {| pu_descriptors := λ _,
       {| columns := {["id"; "total"]};
          columns_and_jsonb_columns := ["id"; "total"];
          joins := []; filters := [] |} |}.

(** A resource that is neither a list nor a detail resource, with an
    enabled [GET] and no permission case. *)
Definition other_resource : Route.Resource :=
  {| Route.r_base := Route.BaseOther;
     Route.r_permission_plugin_inited := false;
     Route.r_methods := Some ["GET"];
     Route.r_event := None;
     Route.r_data_layer :=
       {| Route.dl_model := Some Sample.person; Route.dl_entries := ∅ |};
     Route.r_attrs := {["get" := Route.HView "get"]};
     Route.r_decorators := [] |}.

(** A list resource without view methods and without permission cases. *)
Definition bare_list : Route.Resource :=
  {| Route.r_base := Route.BaseResourceList;
     Route.r_permission_plugin_inited := false;
     Route.r_methods := None;
     Route.r_event := None;
     Route.r_data_layer :=
       {| Route.dl_model := Some Sample.person; Route.dl_entries := ∅ |};
     Route.r_attrs := ∅;
     Route.r_decorators := [] |}.

(** A principal whose allowed field paths are [paths_A] for every entity. *)
Definition auditor : PermissionUser :=
  {| pu_descriptors := λ _,
       {| columns := ∅; columns_and_jsonb_columns := Sample.paths_A;
          joins := []; filters := [] |} |}.

End Sample2.

(** ** What pruning may do to a schema instance *)

Module PrunerSpec.

Import Pruner.

(** The schema instance [s'] is [s] after some pruning: the same class and
    declared field names, [fields] and [include_data] with some entries
    removed and the others in their order, and [dump_fields] either
    untouched together with [fields] or rebuilt from [fields]. *)
Definition shrinks_to (s s' : Schema) : Prop :=
  s_class s' = s_class s
  ∧ s_many s' = s_many s
  ∧ (s_declared_fields s').*1 = (s_declared_fields s).*1
  ∧ s_fields s' `sublist_of` s_fields s
  ∧ s_include_data s' `sublist_of` s_include_data s
  ∧ ((s_fields s' = s_fields s ∧ s_dump_fields s' = s_dump_fields s)
     ∨ s_dump_fields s' = s_fields s').

(** Every instance of [σ] is still in [σ'], pruned or as it was. *)
Definition store_shrinks (σ σ' : Store) : Prop :=
  ∀ a s, σ !! a = Some s → ∃ s', σ' !! a = Some s' ∧ shrinks_to s s'.

End PrunerSpec.

(** * Properties *)

(** ** The required-field closure *)

Section RequiredFieldClosure.

Variable model : Model.

#[local] Abbreviation requires := (requires model).
#[local] Abbreviation acyclic := (acyclic model).

Lemma extend_each_elem {A B} (f : A → result (list B)) l r y :
  extend_each f l = Ok r →
  y ∈ r ↔ ∃ x ys, x ∈ l ∧ f x = Ok ys ∧ y ∈ ys.
Proof.
  revert r. induction l as [|a l IH]; intros r; simpl.
  - intros [= <-]. split; [by intros ?%elem_of_nil|].
    by intros (? & ? & ?%elem_of_nil & _).
  - destruct (f a) as [ys|] eqn:Ha; [|done]. simpl.
    destruct (extend_each f l) as [rest|] eqn:Hl; [|done]. simpl.
    intros [= <-]. rewrite elem_of_app, (IH rest eq_refl). split.
    + intros [Hy|(x & zs & Hx & Hfx & Hy)].
      * exists a, ys. by rewrite elem_of_cons; auto.
      * exists x, zs. by rewrite elem_of_cons; auto.
    + intros (x & zs & [->|Hx]%elem_of_cons & Hfx & Hy).
      * left. congruence.
      * right. eauto.
Qed.

Lemma extend_each_Ok_inv {A B} (f : A → result (list B)) l r x :
  extend_each f l = Ok r → x ∈ l → ∃ ys, f x = Ok ys.
Proof.
  revert r. induction l as [|a l IH]; intros r; simpl.
  - by intros _ ?%elem_of_nil.
  - destruct (f a) as [ys|] eqn:Ha; [|done]. simpl.
    destruct (extend_each f l) as [rest|] eqn:Hl; [|done].
    intros _ [->|Hx]%elem_of_cons; eauto.
Qed.

Lemma extend_each_Raise_inv {A B} (f : A → result (list B)) l e :
  extend_each f l = Raise e → ∃ x, x ∈ l ∧ f x = Raise e.
Proof.
  induction l as [|a l IH]; simpl; [done|].
  destruct (f a) as [ys|e'] eqn:Ha; simpl.
  - destruct (extend_each f l) as [rest|e'] eqn:Hl; [done|].
    intros [= <-]. destruct (IH eq_refl) as (x & Hx & Hfx).
    exists x. by rewrite elem_of_cons; auto.
  - intros [= <-]. exists a. by rewrite elem_of_cons; auto.
Qed.

(** Whatever the call returns is the set of fields reachable in one or more
    dependency steps. *)
Lemma get_required_fields_reachable fuel field_name found :
  get_required_fields fuel field_name model = Ok found →
  ∀ y, y ∈ found ↔ tc requires field_name y.
Proof.
  revert field_name found.
  induction fuel as [|fuel IH]; intros x found; simpl; [done|].
  destruct (m_required_fields model !! x) as [deps|] eqn:Hx.
  - destruct (extend_each _ deps) as [rest|] eqn:Hrest; [|done].
    simpl. intros [= <-] y. rewrite elem_of_app.
    rewrite (extend_each_elem _ _ _ y Hrest). split.
    + intros [Hy|(d & ys & Hd & Hrec & Hy)].
      * apply tc_once. by exists deps.
      * eapply tc_l; [by exists deps|]. by eapply IH.
    + intros Htc. inversion Htc as [? ? (deps' & Hx' & Hy)|? z ? (deps' & Hx' & Hz) Hzy];
        subst; rewrite Hx in Hx'; injection Hx' as <-.
      * by left.
      * right. destruct (extend_each_Ok_inv _ _ _ z Hrest Hz) as [ys Hrec].
        exists z, ys. split_and!; [done..|]. by eapply IH.
  - intros [= <-] y. split; [by intros ?%elem_of_nil|].
    intros Htc. inversion Htc as [? ? (deps' & Hx' & _)|? z ? (deps' & Hx' & _) _];
      congruence.
Qed.

(** A call that fails has used up its fuel along a dependency chain. *)
Lemma get_required_fields_Raise fuel field_name e :
  get_required_fields fuel field_name model = Raise e →
  e = RecursionError ∧ ∃ y, nsteps requires fuel field_name y.
Proof.
  revert field_name.
  induction fuel as [|fuel IH]; intros x; simpl.
  - intros [= <-]. split; [done|]. exists x. constructor.
  - destruct (m_required_fields model !! x) as [deps|] eqn:Hx; [|done].
    destruct (extend_each _ deps) as [rest|e'] eqn:Hrest; [done|].
    simpl. intros [= <-].
    destruct (extend_each_Raise_inv _ _ _ Hrest) as (d & Hd & Hrec).
    destruct (IH _ Hrec) as (-> & y & Hy). split; [done|].
    exists y. eapply nsteps_l; [|done]. by exists deps.
Qed.

(** In an acyclic declaration a dependency chain visits distinct keys. *)
Lemma acyclic_chain_bound (visited : gset string) n x y :
  acyclic →
  visited ⊆ dom (m_required_fields model) →
  (∀ v, v ∈ visited → tc requires v x) →
  nsteps requires n x y →
  size visited + n ≤ size (dom (m_required_fields model)).
Proof.
  intros Hacyc. revert visited x.
  induction n as [|n IH]; intros visited x Hsub Hreach Hsteps.
  - rewrite Nat.add_0_r. by apply subseteq_size.
  - inversion Hsteps as [|? ? x' ? Hstep Hrest]; subst.
    assert (x ∉ visited) as Hfresh.
    { intros Hin. by apply (Hacyc x), Hreach. }
    assert (x ∈ dom (m_required_fields model)) as Hdom.
    { destruct Hstep as (deps & Hx & _). apply elem_of_dom. eauto. }
    specialize (IH ({[x]} ∪ visited) x').
    rewrite size_union in IH by (by apply disjoint_singleton_l).
    rewrite size_singleton in IH.
    etrans; [|apply IH; [|clear IH|done]]; [lia|..].
    { apply union_subseteq. split; [|done]. by apply singleton_subseteq_l. }
    intros v [->%elem_of_singleton|Hv]%elem_of_union.
    + by apply tc_once.
    + eapply tc_r; [by apply Hreach|done].
Qed.

(** A rank that decreases along every declared dependency excludes
    cycles. *)
Lemma acyclic_of_rank (rank : string → nat) :
  (∀ x y, requires x y → rank y < rank x) → acyclic.
Proof.
  intros Hrank x Hx.
  assert (∀ a b, tc requires a b → rank b < rank a) as Htc.
  { induction 1 as [a b Hab|a b c Hab _ IH]; [by apply Hrank|].
    apply Hrank in Hab. lia. }
  apply Htc in Hx. lia.
Qed.

End RequiredFieldClosure.


(** ** The route interceptor *)

Section RouteInterceptor.

Import Route.

Lemma lower_inj m1 m2 : lower m1 = lower m2 → m1 = m2.
Proof. by destruct m1, m2. Qed.

(** One call of [_permission_method] touches the view method it is called
    for and nothing else on the resource. *)
Lemma permission_method_frame strict resource m reg resource' reg' :
  _permission_method strict resource m reg = Ok (resource', reg') →
  r_base resource' = r_base resource
  ∧ r_permission_plugin_inited resource' = r_permission_plugin_inited resource
  ∧ r_methods resource' = r_methods resource
  ∧ r_event resource' = r_event resource
  ∧ r_data_layer resource' = r_data_layer resource
  ∧ r_decorators resource' = r_decorators resource
  ∧ ∀ k, k ≠ lower m → r_attrs resource' !! k = r_attrs resource !! k.
Proof.
  unfold _permission_method.
  destruct (r_base resource) eqn:Hbase;
    (destruct (dl_model (r_data_layer resource)); simpl; [|try done]);
    try (destruct (r_attrs resource !! lower m); simpl);
    try (destruct (strict && _ && _ && _); simpl; [done|]);
    try (destruct (bool_decide (upper m ∈ _)); simpl);
    intros [= <- <-]; simpl; split_and!; try done;
    by intros k Hk; rewrite lookup_insert_ne.
Qed.

(** With a model in the data layer, the only exception is the strict-mode
    one. *)
Lemma permission_method_Raise strict resource m reg e :
  _permission_method strict resource m reg = Raise e →
  is_Some (dl_model (r_data_layer resource)) →
  ∃ msg, e = PermissionException msg.
Proof.
  unfold _permission_method. intros Hrun [model Hmodel]. rewrite Hmodel in Hrun.
  destruct (r_base resource); simpl in Hrun; [| |done];
    (destruct (r_attrs resource !! lower m); simpl in Hrun; [|done]);
    (destruct (strict && _ && _ && _); simpl in Hrun;
      [injection Hrun as <-; eauto|]);
    by destruct (bool_decide (upper m ∈ _)).
Qed.

(** The strict-mode check of one call. *)
Lemma permission_method_strict resource m reg model old_method :
  r_base resource ≠ BaseOther →
  dl_model (r_data_layer resource) = Some model →
  r_attrs resource !! lower m = Some old_method →
  upper m ∈ enabled_methods resource →
  event_is_False resource = true →
  permissions_of resource m = [] →
  _permission_method true resource m reg
  = Raise (PermissionException (no_permission_case model (type_of (r_base resource) m))).
Proof.
  unfold _permission_method, enabled_methods, permissions_of, type_of.
  intros Hbase -> -> Hin -> ->.
  destruct (r_base resource); [| |done]; simpl;
    by rewrite bool_decide_eq_true_2.
Qed.

(** Without strict mode the call wraps the view method of an enabled
    operation and registers its permission list. *)
Lemma permission_method_lenient resource m reg model old_method :
  r_base resource ≠ BaseOther →
  dl_model (r_data_layer resource) = Some model →
  r_attrs resource !! lower m = Some old_method →
  upper m ∈ enabled_methods resource →
  _permission_method false resource m reg
  = Ok (setattr resource (lower m)
          (permission old_method (lower m) (many_of (r_base resource))
                      (r_decorators resource)),
        add_permission (type_of (r_base resource) m) model
                       (permissions_of resource m) reg).
Proof.
  unfold _permission_method, enabled_methods, permissions_of, type_of, many_of.
  intros Hbase -> -> Hin.
  destruct (r_base resource); [| |done]; simpl;
    by rewrite bool_decide_eq_true_2.
Qed.

Lemma permission_methods_strict methods resource reg m model old_method :
  m ∈ methods →
  r_base resource ≠ BaseOther →
  dl_model (r_data_layer resource) = Some model →
  r_attrs resource !! lower m = Some old_method →
  upper m ∈ enabled_methods resource →
  event_is_False resource = true →
  permissions_of resource m = [] →
  ∃ msg, permission_methods true methods resource reg
         = Raise (PermissionException msg).
Proof.
  revert resource reg.
  induction methods as [|m' methods IH]; intros resource reg Hm Hbase Hmodel Hattr Hen Hev Hperm.
  { by apply elem_of_nil in Hm. }
  simpl. destruct (decide (m' = m)) as [->|Hne].
  { erewrite permission_method_strict by done. simpl. eauto. }
  apply elem_of_cons in Hm as [->|Hm]; [done|].
  destruct (_permission_method true resource m' reg) as [[resource' reg']|e] eqn:Hstep; simpl.
  - apply permission_method_frame in Hstep
      as (Hb & _ & Hmeth & Hevent & Hdl & _ & Hattrs).
    apply IH; try done.
    + by rewrite Hb.
    + by rewrite Hdl.
    + rewrite Hattrs; [done|]. intros Heq. by apply Hne, lower_inj.
    + unfold enabled_methods, methods_or in *. by rewrite Hb, Hmeth.
    + unfold event_is_False in *. by rewrite Hevent.
    + unfold permissions_of in *. by rewrite Hdl.
  - apply permission_method_Raise in Hstep as [msg ->]; [eauto|].
    by rewrite Hmodel.
Qed.

Lemma permission_methods_lenient_Ok methods resource reg :
  is_Some (dl_model (r_data_layer resource)) →
  ∃ resource' reg',
    permission_methods false methods resource reg = Ok (resource', reg').
Proof.
  revert resource reg. induction methods as [|m methods IH]; intros resource reg Hmodel.
  { simpl. eauto. }
  simpl.
  destruct (_permission_method false resource m reg) as [[resource' reg']|e] eqn:Hstep; simpl.
  - apply IH. apply permission_method_frame in Hstep as (_ & _ & _ & _ & -> & _). done.
  - exfalso. revert Hstep. unfold _permission_method.
    destruct Hmodel as [model ->].
    destruct (r_base resource); simpl; [| |done];
      (destruct (r_attrs resource !! lower m); simpl; [|done]);
      by destruct (bool_decide (upper m ∈ _)).
Qed.

Lemma permission_methods_frame strict methods resource reg resource' reg' :
  permission_methods strict methods resource reg = Ok (resource', reg') →
  r_decorators resource' = r_decorators resource
  ∧ (∀ k, (∀ m, m ∈ methods → k ≠ lower m) →
          r_attrs resource' !! k = r_attrs resource !! k)
  ∧ ∀ entry, entry ∈ reg → entry ∈ reg'.
Proof.
  revert resource reg. induction methods as [|m methods IH]; intros resource reg; simpl.
  { by intros [= <- <-]. }
  destruct (_permission_method strict resource m reg) as [[resource1 reg1]|e] eqn:Hstep;
    simpl; [|done].
  intros (Hdec & Hattrs & Hreg)%IH.
  pose proof Hstep as (_ & _ & _ & _ & _ & Hdec1 & Hattrs1)%permission_method_frame.
  split_and!.
  - by rewrite Hdec.
  - intros k Hk. rewrite Hattrs, Hattrs1; [done| |].
    + apply Hk. by left.
    + intros m' Hm'. apply Hk. by right.
  - intros entry Hentry. apply Hreg. revert Hstep. unfold _permission_method.
    destruct (r_base resource); simpl;
      (destruct (dl_model (r_data_layer resource)); simpl; [|try done]);
      try (destruct (r_attrs resource !! lower m); simpl);
      try (destruct (strict && _ && _ && _); simpl; [done|]);
      try (destruct (bool_decide (upper m ∈ _)); simpl);
      intros [= <- <-]; try done;
      unfold add_permission; rewrite elem_of_app; by left.
Qed.

Lemma permission_methods_lenient methods resource reg resource' reg' m model old_method :
  NoDup methods →
  m ∈ methods →
  r_base resource ≠ BaseOther →
  dl_model (r_data_layer resource) = Some model →
  r_attrs resource !! lower m = Some old_method →
  upper m ∈ enabled_methods resource →
  permission_methods false methods resource reg = Ok (resource', reg') →
  r_attrs resource' !! lower m
    = Some (permission old_method (lower m) (many_of (r_base resource))
                       (r_decorators resource))
  ∧ (type_of (r_base resource) m, m_name model, permissions_of resource m) ∈ reg'.
Proof.
  revert resource reg.
  induction methods as [|m' methods IH];
    intros resource reg Hnd Hm Hbase Hmodel Hattr Hen; simpl.
  { by apply elem_of_nil in Hm. }
  apply NoDup_cons in Hnd as [Hfresh Hnd].
  destruct (decide (m' = m)) as [->|Hne].
  - erewrite permission_method_lenient by done. simpl.
    intros (_ & Hattrs & Hreg)%permission_methods_frame. split.
    + rewrite Hattrs; [by simpl; rewrite lookup_insert_eq|].
      intros m' Hm' Heq. apply lower_inj in Heq as ->. done.
    + apply Hreg. unfold add_permission. rewrite elem_of_app, list_elem_of_singleton.
      by right.
  - apply elem_of_cons in Hm as [->|Hm]; [done|].
    destruct (_permission_method false resource m' reg) as [[resource1 reg1]|e] eqn:Hstep;
      simpl; [|done].
    apply permission_method_frame in Hstep
      as (Hb & _ & Hmeth & Hevent & Hdl & Hdec & Hattrs).
    intros Hrun. eapply IH in Hrun; try done.
    + unfold permissions_of in *. by rewrite Hb, Hdec, Hdl in Hrun.
    + by rewrite Hb.
    + by rewrite Hdl.
    + rewrite Hattrs; [done|]. intros Heq. by apply Hne, lower_inj.
    + unfold enabled_methods, methods_or in *. by rewrite Hb, Hmeth.
Qed.

End RouteInterceptor.

(** ** Claims on the required-field closure and on route installation *)

(** C3: for every model and field name, [get_required_fields] returns the
    fields transitively reachable from the field name through the model's
    [Meta.required_fields] declarations, and when these declarations are
    acyclic the recursion terminates: a call stack deeper than the number
    of declared keys is never needed. *)
Theorem get_required_fields_closure (model : Model) (field_name : string) (fuel : nat) :
  acyclic model →
  size (dom (m_required_fields model)) < fuel →
  ∃ found,
    get_required_fields fuel field_name model = Ok found
    ∧ ∀ y, y ∈ found ↔ tc (requires model) field_name y.
Proof.
  intros Hacyc Hfuel.
  destruct (get_required_fields fuel field_name model) as [found|e] eqn:Hrun.
  - exists found. split; [done|]. by apply get_required_fields_reachable with fuel.
  - apply get_required_fields_Raise in Hrun as (_ & y & Hsteps).
    pose proof (acyclic_chain_bound model ∅ fuel field_name y Hacyc) as Hbound.
    rewrite size_empty in Hbound. simpl in Hbound.
    assert (fuel ≤ size (dom (m_required_fields model))); [|lia].
    apply Hbound; [done| |done]. by intros v ?%not_elem_of_empty.
Qed.

Lemma invoice_acyclic : acyclic Sample.invoice.
Proof.
  apply (acyclic_of_rank _ Sample.invoice_rank).
  intros x y (deps & Hx & Hy). simpl in Hx.
  apply lookup_singleton_Some in Hx as [<- <-].
  apply elem_of_cons in Hy as [->|Hy]; [vm_compute; lia|].
  apply list_elem_of_singleton in Hy as ->. vm_compute; lia.
Qed.

Lemma get_required_fields_closure_witness :
  ∃ found,
    get_required_fields 2 "total" Sample.invoice = Ok found
    ∧ ∀ y, y ∈ found ↔ tc (requires Sample.invoice) "total" y.
Proof.
  apply (get_required_fields_closure Sample.invoice "total" 2).
  - exact invoice_acyclic.
  - vm_compute. lia.
Defined.

(** End-to-end scenario 3: the fields required by [total]. *)
Example invoice_total_requires :
  get_required_fields 2 "total" Sample.invoice = Ok ["tax"; "subtotal"].
Proof. reflexivity. Qed.

(** A dependency cycle exhausts every call stack. *)
Example cycle_raises_RecursionError :
  let model := {| m_name := "Loop"; m_dict := []; m_table_columns := [];
                  m_required_fields := {["a" := ["a"]]} |} in
  get_required_fields 50 "a" model = Raise RecursionError.
Proof. reflexivity. Qed.

Section RouteClaims.

Import Route.

(** C7 (amended): on the first installation for a list or detail resource
    with a data-layer model, when one of the methods [after_route] walks
    through for the base class has a view method, is enabled, belongs to
    no event resource and has an empty permission list, [after_route] of a
    strict plugin raises [PermissionException], and [after_route] of a
    non-strict plugin installs: the view method is the permission wrapper
    around the original one and the registered permission list is empty. *)
Theorem strict_install_fails_fast resource reg type_method model old_method :
  r_permission_plugin_inited resource = false →
  type_method ∈ route_methods (r_base resource) →
  dl_model (r_data_layer resource) = Some model →
  r_attrs resource !! lower type_method = Some old_method →
  upper type_method ∈ enabled_methods resource →
  event_is_False resource = true →
  permissions_of resource type_method = [] →
  (∃ msg, after_route true resource reg = Raise (PermissionException msg))
  ∧ ∃ resource' reg',
      after_route false resource reg = Ok (resource', reg')
      ∧ r_attrs resource' !! lower type_method
        = Some (permission old_method (lower type_method)
                           (many_of (r_base resource)) (r_decorators resource))
      ∧ (type_of (r_base resource) type_method, m_name model, []) ∈ reg'.
Proof.
  intros Hinit Hm Hmodel Hattr Hen Hev Hperm.
  assert (r_base resource ≠ BaseOther) as Hbase.
  { intros Heq. rewrite Heq in Hm. by apply elem_of_nil in Hm. }
  assert (NoDup (route_methods (r_base resource))) as Hnd.
  { destruct (r_base resource); simpl; compute_done. }
  split.
  - destruct (permission_methods_strict (route_methods (r_base resource))
                resource reg type_method model old_method) as [msg Hmsg]; try done.
    exists msg. unfold after_route. rewrite Hinit.
    by destruct (r_base resource); simpl in *; [rewrite Hmsg..|].
  - destruct (permission_methods_lenient_Ok (route_methods (r_base resource))
                resource reg) as (resource1 & reg1 & Hrun); [by rewrite Hmodel|].
    pose proof Hrun as [Hwrap Hreg]%(permission_methods_lenient _ _ _ _ _
                                       type_method model old_method); try done.
    rewrite Hperm in Hreg.
    exists (set_inited resource1), reg1. unfold after_route. rewrite Hinit.
    by destruct (r_base resource); simpl in *; [rewrite Hrun..|].
Qed.

Lemma strict_install_fails_fast_witness :
  (∃ msg, after_route true Sample.person_list [] = Raise (PermissionException msg))
  ∧ ∃ resource' reg',
      after_route false Sample.person_list [] = Ok (resource', reg')
      ∧ r_attrs resource' !! "get"
        = Some (HDecorated "login_required" (HPermission (HView "get") "get" true))
      ∧ ("get_list", "Person", []) ∈ reg'.
Proof.
  apply (strict_install_fails_fast Sample.person_list [] GET Sample.person (HView "get")).
  - reflexivity.
  - vm_compute. by left.
  - reflexivity.
  - reflexivity.
  - vm_compute. by left.
  - reflexivity.
  - reflexivity.
Defined.

(** A strict plugin installs without an exception on a resource that is
    neither a list nor a detail resource, although its [GET] is enabled,
    belongs to no event resource and has no permission case; and on a list
    resource whose enabled [GET] has no view method. *)
Lemma strict_install_counterexample :
  (r_methods Sample2.other_resource = Some ["GET"]
   ∧ event_is_False Sample2.other_resource = true
   ∧ permissions_of Sample2.other_resource GET = []
   ∧ r_attrs Sample2.other_resource !! "get" = Some (HView "get")
   ∧ after_route true Sample2.other_resource [] = Ok (Sample2.other_resource, []))
  ∧ (upper GET ∈ enabled_methods Sample2.bare_list
     ∧ event_is_False Sample2.bare_list = true
     ∧ permissions_of Sample2.bare_list GET = []
     ∧ after_route true Sample2.bare_list []
       = Ok (set_inited Sample2.bare_list, [])).
Proof.
  split; split_and!; try reflexivity. vm_compute. by left.
Qed.

(** C9: installing the route interceptor is idempotent. Once [after_route]
    has completed for a resource class, a second call returns without
    wrapping a method or registering a permission: the resource and the
    registry are those of the first installation. *)
Theorem after_route_idempotent strict strict' resource reg resource' reg' :
  after_route strict resource reg = Ok (resource', reg') →
  after_route strict' resource' reg' = Ok (resource', reg').
Proof.
  unfold after_route.
  destruct (r_permission_plugin_inited resource) eqn:Hinit.
  { intros [= <- <-]. by rewrite Hinit. }
  destruct (r_base resource) eqn:Hbase.
  - destruct (permission_methods strict _ resource reg) as [st|]; simpl; [|done].
    by intros [= <- <-].
  - destruct (permission_methods strict _ resource reg) as [st|]; simpl; [|done].
    by intros [= <- <-].
  - intros [= <- <-]. by rewrite Hinit, Hbase.
Qed.

Lemma after_route_idempotent_witness :
  ∃ resource' reg',
    after_route false Sample.person_list [] = Ok (resource', reg')
    ∧ after_route true resource' reg' = Ok (resource', reg').
Proof.
  destruct (after_route false Sample.person_list []) as [[resource' reg']|e] eqn:Hrun.
  - exists resource', reg'. split; [done|].
    exact (after_route_idempotent false true Sample.person_list [] resource' reg' Hrun).
  - exfalso. vm_compute in Hrun. discriminate Hrun.
Defined.

(** The marker is what stops the second installation. *)
Example second_install_sees_marker :
  ∃ resource' reg',
    after_route false Sample.person_list [] = Ok (resource', reg')
    ∧ r_permission_plugin_inited resource' = true
    ∧ reg' = [("get_list", "Person", []); ("post", "Person", ["PersonPost"])].
Proof. eexists _, _. split_and!; reflexivity. Qed.

End RouteClaims.

(** ** The query rewriter: joins, filters and the primary load set *)

Lemma rbind_Ok {A B} (m : result A) (k : A → result B) b :
  rbind m k = Ok b → ∃ a, m = Ok a ∧ k a = Ok b.
Proof. destruct m as [a|e]; simpl; [eauto|done]. Qed.

(** Splits a successful sequence of binds into its steps. *)
Ltac inv_bind H :=
  repeat match type of H with
  | rbind _ _ = Ok _ =>
      let a := fresh "a" in
      let Ha := fresh "Hstep" in
      apply rbind_Ok in H as (a & Ha & H); simpl in H
  end.

Section RewriterFacts.

Import Rewriter.

Variable models : string → Model.
Variable class_registry : string → option SchemaClass.
Variable fuel : nat.

#[local] Abbreviation eagerload_include := (eagerload_include models class_registry fuel).
#[local] Abbreviation eagerload_loop := (eagerload_loop models class_registry fuel).
#[local] Abbreviation _eagerload_includes := (_eagerload_includes models class_registry fuel).










(** The names collected by the loop over [get_required_fields] are the
    fields reachable from the visited names. *)
Lemma required_columns_names_spec model names required :
  extend_each (λ i_name, get_required_fields fuel i_name model) names = Ok required →
  ∀ y, y ∈ required ↔ ∃ x, x ∈ names ∧ tc (requires model) x y.
Proof.
  intros Hrun y. rewrite (extend_each_elem _ _ _ y Hrun). split.
  - intros (x & ys & Hx & Hrec & Hy). exists x. split; [done|].
    by eapply get_required_fields_reachable.
  - intros (x & Hx & Htc).
    destruct (extend_each_Ok_inv _ _ _ x Hrun Hx) as [ys Hrec].
    exists x, ys. split_and!; [done..|]. by eapply get_required_fields_reachable.
Qed.

Lemma is_load_set_intro model (visible : gset string) names required :
  (∀ x, x ∈ names ↔ x ∈ visible) →
  extend_each (λ i_name, get_required_fields fuel i_name model) names = Ok required →
  is_load_set model visible (visible ∪ Py.set_of required).
Proof.
  intros Hnames Hrun y. unfold Py.set_of.
  rewrite elem_of_union, elem_of_list_to_set.
  rewrite (required_columns_names_spec _ _ _ Hrun y).
  by setoid_rewrite Hnames.
Qed.



End RewriterFacts.

(** The load set in the words of the specification. *)

Lemma get_columns_for_query_spec model x :
  x ∈ get_columns_for_query model ↔ scalar_column model x.
Proof.
  unfold get_columns_for_query, scalar_column. rewrite list_elem_of_fmap. split.
  - intros ([k attr] & -> & [Hattr Hin]%list_elem_of_filter). simpl in *. by subst attr.
  - intros Hin. exists (x, AColumn). split; [done|]. by apply list_elem_of_filter.
Qed.

Lemma visible_columns_spec allowed requested (scalar : list string) x :
  x ∈ visible_columns allowed requested scalar
  ↔ visible_column allowed requested (λ x, x ∈ scalar) x.
Proof.
  unfold visible_columns, visible_column, Py.set_of.
  destruct requested as [[|c cs]|];
    rewrite ?elem_of_intersection, ?elem_of_list_to_set; tauto.
Qed.

Lemma is_load_set_spec model allowed requested (scalar : list string)
    (scalar' : string → Prop) load :
  (∀ x, x ∈ scalar ↔ scalar' x) →
  is_load_set model (visible_columns allowed requested scalar) load →
  is_load_set_of model (visible_column allowed requested scalar') load.
Proof.
  intros Hscalar Hload y.
  assert (∀ x, x ∈ visible_columns allowed requested scalar
               ↔ visible_column allowed requested scalar' x) as Hvisible.
  { intros x. rewrite visible_columns_spec. unfold visible_column.
    by rewrite Hscalar. }
  rewrite (Hload y), Hvisible. by setoid_rewrite Hvisible.
Qed.



Section RewriterClaims.

Import Rewriter.

Variable models : string → Model.
Variable class_registry : string → option SchemaClass.
Variable fuel : nat.




End RewriterClaims.

Section RewriterWitnesses.

Import Rewriter Sample.


(** End-to-end scenario 3: the principal may read [total] only, and the
    query loads [total], [tax] and [subtotal]. *)
Example requested_fields_load_set :
  ∃ query' q' api',
    data_layer_get_collection_update_query models class_registry 3
      empty_query (request [("fields[invoice]", "total,tax")])
      (Some Sample2.accountant) invoice_api = Ok (query', q', api')
    ∧ elements <$> load_only_options query' = [["subtotal"; "total"; "tax"]].
Proof. eexists _, _, _. split; [reflexivity|]. vm_compute. reflexivity. Qed.

Example scenario_3_load_set :
  ∃ query' q' api',
    data_layer_get_collection_update_query models class_registry 3
      empty_query (request []) (Some manager) invoice_api = Ok (query', q', api')
    ∧ elements <$> load_only_options query' = [["subtotal"; "total"; "tax"]].
Proof. eexists _, _, _. split; [reflexivity|]. vm_compute. reflexivity. Qed.


End RewriterWitnesses.

(** ** Splitting and joining *)

Section SplitJoin.

Variable sep : ascii.

Lemma split_nonempty s : Py.split sep s ≠ [].
Proof.
  destruct s as [|c s]; simpl; [done|].
  destruct (decide (c = sep)); [done|]. by destruct (Py.split sep s).
Qed.


Lemma split_word w : Py.contains sep w = false → Py.split sep w = [w].
Proof.
  induction w as [|c w IH]; simpl; [done|].
  destruct (decide (c = sep)); [done|]. intros Hw. by rewrite IH.
Qed.

Lemma split_word_sep w rest :
  Py.contains sep w = false →
  Py.split sep (w +:+ String sep rest) = w :: Py.split sep rest.
Proof.
  induction w as [|c w IH]; simpl.
  { intros _. by rewrite decide_True. }
  destruct (decide (c = sep)); [done|]. intros Hw. by rewrite IH.
Qed.

Lemma split_join l :
  l ≠ [] → Forall (λ w, Py.contains sep w = false) l →
  Py.split sep (Py.join sep l) = l.
Proof.
  intros Hl Hws. induction Hws as [|w ws Hw Hws IH]; [done|].
  destruct ws as [|w' ws].
  - simpl. by apply split_word.
  - change (Py.join sep (w :: w' :: ws))
      with (w +:+ String sep (Py.join sep (w' :: ws))).
    rewrite split_word_sep by done. by rewrite IH.
Qed.

Lemma split_app_sep p rest :
  Py.split sep (p +:+ String sep rest) = Py.split sep p ++ Py.split sep rest.
Proof.
  induction p as [|c p IH]; simpl.
  { by rewrite decide_True. }
  destruct (decide (c = sep)); [by rewrite IH|].
  rewrite IH. pose proof (split_nonempty p) as Hp.
  by destruct (Py.split sep p).
Qed.

End SplitJoin.

Lemma startswith_app s p : Py.startswith s p = true → ∃ rest, s = p +:+ rest.
Proof.
  unfold Py.startswith. revert s. induction p as [|c p IH]; intros s; simpl.
  { intros _. by exists s. }
  destruct s as [|c' s]; simpl; [done|].
  destruct (Ascii.ascii_dec c c') as [->|]; [|done].
  intros [rest ->]%IH. by exists rest.
Qed.

Lemma append_assoc_String p (c : ascii) rest :
  (p +:+ String c "") +:+ rest = p +:+ String c rest.
Proof.
  induction p as [|c' p IH]; [done|].
  change (String c' ((p +:+ String c "") +:+ rest) = String c' (p +:+ String c rest)).
  by f_equal.
Qed.

(** ** The query rewriter: the query string and the includes *)

Section QueryString.

Import Rewriter.


(** The list [include] of [_update_qs_fields] and the includes of the
    request hold the same relationship names. *)
Lemma include_entries q name :
  name ≠ "" →
  name ∈ Py.split comma (default "" (filter (λ kv, kv.2 ≠ "") (qs q) !! "include"))
  ↔ name ∈ qs_include q.
Proof.
  intros Hname. unfold qs_include. rewrite map_lookup_filter.
  destruct (qs q !! "include") as [v|]; simpl.
  - case_guard as Hv; simpl in *.
    + by rewrite bool_decide_eq_false_2.
    + subst v. simpl.
      rewrite list_elem_of_singleton, elem_of_nil. tauto.
  - rewrite list_elem_of_singleton, elem_of_nil. tauto.
Qed.


End QueryString.

Section QueryStringClaims.

Import Rewriter.

(** The field list [_update_qs_fields] works with: the requested fields
    that are accessible, or all accessible fields when none were
    requested. *)
Lemma new_fields_spec (q : QueryStringManager) type_schema (fields : list string) x :
  x ∈ match qs_fields_get q type_schema with
      | Some old => elements (Py.set_of old ∩ Py.set_of fields)
      | None => fields
      end
  ↔ x ∈ fields ∧ ∀ old, qs_fields_get q type_schema = Some old → x ∈ old.
Proof.
  destruct (qs_fields_get q type_schema) as [old|].
  - unfold Py.set_of.
    rewrite elem_of_elements, elem_of_intersection, !elem_of_list_to_set.
    split; [intros [? ?]; split; [done|by intros ? [= <-]]|].
    intros [? Hold]. split; [by apply Hold|done].
  - split; [by intros ?|by intros [? _]].
Qed.




Example update_qs_fields_drops_include :
  let q := Sample.request [("include", "customer"); ("fields[customer]", "email")] in
  map_to_list (qs (_update_qs_fields "customer" ["id"] q "customer"))
  = [("include", ""); ("fields[customer]", "email")].
Proof. vm_compute. reflexivity. Qed.

End QueryStringClaims.

(** ** The query rewriter: walking a dotted include *)

Section IncludeWalk.

Import Rewriter.

Variable models : string → Model.
Variable class_registry : string → option SchemaClass.
Variable fuel : nat.

#[local] Abbreviation dotted_step := (dotted_step models class_registry fuel).
#[local] Abbreviation dotted_loop := (dotted_loop models class_registry fuel).

Lemma rbind_Raise {A B} (m : result A) (k : A → result B) e :
  rbind m k = Raise e → m = Raise e ∨ ∃ a, m = Ok a ∧ k a = Raise e.
Proof. destruct m as [a|e']; simpl; [eauto|by intros [= <-]; left]. Qed.

Lemma mapper_class_Raise attr e :
  mapper_class_ models attr = Raise e → e = AttributeError.
Proof. destruct attr; simpl; congruence. Qed.

Lemma get_model_loop_Raise mapper names e :
  _get_model_loop models mapper names = Raise e →
  e = AttributeError ∨ ∃ msg, e = ValueError msg.
Proof.
  revert mapper. induction names as [|name names IH]; intros mapper; simpl; [done|].
  destruct (assoc name (m_dict mapper)) as [attr|]; [|by intros [= <-]; eauto].
  intros [Hattr|(mapper' & _ & Hrest)]%rbind_Raise.
  - left. by eapply mapper_class_Raise.
  - by eapply IH.
Qed.

Lemma restrict_columns_Raise name_columns requested joinload_object i e :
  restrict_columns models fuel name_columns requested joinload_object i = Raise e →
  e = IndexError ∨ e = AttributeError ∨ e = RecursionError.
Proof.
  unfold restrict_columns.
  intros [Hpath|(joined & _ & [Hreq|(required & _ & ?)]%rbind_Raise)]%rbind_Raise;
    [|by apply extend_each_Raise_inv in Hreq
           as (x & _ & [-> _]%get_required_fields_Raise); auto|done].
  unfold path_class_ in Hpath.
  destruct (jl_path joinload_object !! i) as [attr|].
  - apply mapper_class_Raise in Hpath as ->. auto.
  - injection Hpath as <-. auto.
Qed.

Lemma get_schema_Raise current_schema obj e :
  _get_schema class_registry current_schema obj = Raise e →
  e = KeyError ∨ e = RegistryError.
Proof.
  unfold _get_schema, get_related_schema, instance_class, get_class.
  destruct (assoc obj _) as [decl|]; [|by intros [= <-]; left].
  destruct (fd_kind decl) as [| |[class_name|name]]; simpl;
    try (by intros [= <-]; left).
  - destruct (class_registry class_name); [done|by intros [= <-]; right].
  - destruct (class_registry name); [done|by intros [= <-]; right].
Qed.

(** A segment that does not resolve to a field of the current schema
    raises [InvalidInclude] with the message of the failed lookup. *)
Lemma unresolved_segment_raises permission i obj w e :
  get_model_field (w_current_schema w) obj = Raise e →
  dotted_step permission i obj w = Raise (InvalidInclude (exception_str e)).
Proof. unfold dotted_step, Rewriter.dotted_step. by intros ->. Qed.

(** A relationship that the mapper lacks surfaces as [AttributeError]: the
    attribute is read before the guarded [_get_model] call is reached. *)
Lemma unmapped_segment_raises permission i obj w field :
  get_model_field (w_current_schema w) obj = Ok field →
  _is_access_foreign_key obj (w_model w) permission = true →
  assoc field (m_dict (w_model w)) = None →
  dotted_step permission i obj w = Raise AttributeError.
Proof.
  intros Hfield Haccess Hattr.
  unfold dotted_step, Rewriter.dotted_step. cbv zeta.
  rewrite Hfield. simpl. rewrite Haccess. simpl.
  unfold getattr. by rewrite Hattr.
Qed.

(** The only [InvalidInclude] a segment raises is the one for a field that
    the current schema does not declare: the handler around the last
    [_get_model] call never fires, the same call has succeeded inside
    [_get_access_fields_in_schema]. *)
Lemma dotted_step_InvalidInclude permission i obj w msg :
  dotted_step permission i obj w = Raise (InvalidInclude msg) →
  ∃ e, get_model_field (w_current_schema w) obj = Raise e ∧ msg = exception_str e.
Proof.
  unfold dotted_step, Rewriter.dotted_step.
  destruct (get_model_field (w_current_schema w) obj) as [field|e] eqn:Hfield; simpl;
    [|by intros [= <-]; eauto].
  destruct (negb _); [done|].
  intros [Hattr|(attr & _ & H)]%rbind_Raise.
  { unfold getattr in Hattr. by destruct (assoc field _). }
  apply rbind_Raise in H as [Haccess|(access & Haccess & H)].
  { unfold _get_access_fields_in_schema in Haccess. rewrite Hfield in Haccess.
    simpl in Haccess.
    apply rbind_Raise in Haccess as [Hmodel|(mapper & _ & Hschema)].
    - by apply get_model_loop_Raise in Hmodel as [?|[? ?]].
    - apply rbind_Raise in Hschema as [Hschema|(? & _ & ?)]; [|done].
      by apply get_schema_Raise in Hschema as [?|?]. }
  apply rbind_Raise in H as [Hschema|(schema & _ & H)].
  { by apply get_schema_Raise in Hschema as [?|?]. }
  apply rbind_Raise in H as [Hcols|(cols & _ & H)].
  { by apply restrict_columns_Raise in Hcols as [?|[?|?]]. }
  unfold _get_access_fields_in_schema in Haccess. rewrite Hfield in Haccess.
  simpl in Haccess. apply rbind_Ok in Haccess as (mapper & Hmodel & _).
  rewrite Hmodel in H. done.
Qed.

(** An include without a dot whose foreign key is not accessible is
    skipped as a whole: no option is added to the query and the query
    string stays as it is. *)
Lemma inaccessible_include_skipped permission self_json_api include query q field :
  Py.contains SPLIT_REL include = false →
  get_model_field (api_schema self_json_api) include = Ok field →
  _is_access_foreign_key include (api_model self_json_api) permission = false →
  eagerload_include models class_registry fuel permission self_json_api include (query, q)
  = Ok (query, q).
Proof.
  intros Hdot Hfield Haccess. unfold eagerload_include. simpl.
  by rewrite Hdot, Hfield, Haccess.
Qed.


End IncludeWalk.

Section IncludeWalkExamples.

Import Rewriter Sample.



(** C8: an include whose relationship is declared by the schema and missing
    on the mapper. The manager may follow [customer], the order model is
    mapped without it: the rewriter raises [AttributeError], not
    [InvalidInclude]. *)
Theorem missing_relationship_escapes :
  _is_access_foreign_key "customer" order_unmapped manager = true
  ∧ get_model_field order_schema "customer" = Ok "customer"
  ∧ _get_model models order_unmapped "customer"
    = Raise (ValueError "Not foreign ket customer in mapper Order")
  ∧ _eagerload_includes models class_registry 3 empty_query
      (request [("include", "customer.address")]) manager order_unmapped_api
    = Raise AttributeError.
Proof. split_and!; vm_compute; reflexivity. Qed.

(** The same include on the mapped model is loaded, and the field
    selection of the related type is written to the query string. *)
Example accessible_include_loaded :
  ∃ query' q' joinload_object,
    _eagerload_includes models class_registry 3 empty_query
      (request [("include", "customer.address")]) manager order_api = Ok (query', q')
    ∧ q_options query' = [OptJoinedLoad (Some joinload_object)]
    ∧ ba_key <$> jl_path joinload_object = ["customer"]
    ∧ elements <$> jl_load_only joinload_object = [["id"; "name"]]
    ∧ qs q' !! fields_key "customer" = Some "id,name".
Proof. eexists _, _, _. split_and!; [reflexivity| reflexivity |vm_compute; reflexivity..]. Qed.

End IncludeWalkExamples.

(** ** The schema pruner: the empty allowlist *)

Section PrunerAllowlist.

Import Pruner.

Lemma extend_each_nil {A B} (f : A → result (list B)) l :
  Forall (λ x, f x = Ok []) l → extend_each f l = Ok [].
Proof.
  induction 1 as [|x l Hx _ IH]; simpl; [done|]. by rewrite Hx, IH.
Qed.

(** No column under the prefix, no allowed name at its level. *)
Lemma permission_column_of_empty prefix_name_column columns :
  Forall (λ i_column, under_prefix prefix_name_column i_column = false) columns →
  permission_column_of prefix_name_column columns = Ok [].
Proof.
  intros Hcols. unfold permission_column_of.
  rewrite extend_each_nil; [done|].
  eapply Forall_impl; [exact Hcols|]. intros i_column Hc. simpl. by rewrite Hc.
Qed.

(** And the allowed names are empty only then. *)
Lemma permission_column_of_empty_inv prefix_name_column columns :
  permission_column_of prefix_name_column columns = Ok [] →
  Forall (λ i_column, under_prefix prefix_name_column i_column = false) columns.
Proof.
  unfold permission_column_of. intros H. inv_bind H. injection H as Hempty.
  apply elements_empty_inv in Hempty. apply leibniz_equiv in Hempty.
  rewrite Forall_forall. intros i_column Hin.
  destruct (under_prefix prefix_name_column i_column) eqn:Hunder; [|done].
  destruct (extend_each_Ok_inv _ _ _ i_column Hstep Hin) as [ys Hys].
  rewrite Hunder in Hys.
  destruct (Py.slice_from _ _) as [|i_name_0 ?] eqn:Hslice; [done|].
  injection Hys as <-.
  assert (i_name_0 ∈ Py.set_of a) as Helem; [|by rewrite Hempty in Helem].
  unfold Py.set_of. rewrite elem_of_list_to_set.
  rewrite (extend_each_elem _ _ _ i_name_0 Hstep).
  exists i_column, [i_name_0]. split_and!; [done| |by left].
  simpl. by rewrite Hunder, Hslice.
Qed.

(** The index [i_name[0]] is never out of range: the loop over the columns
    raises nothing. *)
Lemma permission_column_of_total prefix_name_column columns :
  ∃ permission_column,
    permission_column_of prefix_name_column columns = Ok permission_column.
Proof.
  unfold permission_column_of.
  assert (∃ names, extend_each
            (λ i_column,
               if under_prefix prefix_name_column i_column then
                 match Py.slice_from
                         (if bool_decide (prefix_name_column = "") then 0
                          else length (Py.split dot prefix_name_column))
                         (Py.split dot i_column) with
                 | i_name_0 :: _ => Ok [i_name_0]
                 | [] => Raise IndexError
                 end
               else Ok []) columns = Ok names) as [names ->]; [|simpl; eauto].
  induction columns as [|i_column columns [names IH]]; simpl; [eauto|].
  rewrite IH. unfold under_prefix, Py.slice_from.
  destruct (Py.startswith i_column _) eqn:Hstart; simpl; [|eauto].
  destruct (bool_decide (i_column ≠ prefix_name_column)); simpl; [|eauto].
  case_bool_decide as Hprefix.
  - simpl. pose proof (split_nonempty dot i_column) as Hne.
    destruct (Py.split dot i_column); [done|]. simpl. eauto.
  - apply startswith_app in Hstart as [rest ->].
    change (prefix_name_column +:+ ".") with (prefix_name_column +:+ String dot "").
    rewrite append_assoc_String, split_app_sep, drop_app_length.
    pose proof (split_nonempty dot rest) as Hne.
    destruct (Py.split dot rest); [done|]. simpl. eauto.
Qed.

Variable models : string → Model.
Variable class_registry : string → option SchemaClass.

(** C4: when the allowed-columns set is missing or empty, or no allowed
    name is computed for the prefix of the visited node, the pruner
    returns without touching any schema: [fields], [dump_fields], [only]
    and [include_data] of the node stay as they are, so every field at
    that level remains visible. *)
Theorem empty_allowlist_unrestricted fuel σ schema model prefix_name_column
    columns is_nested :
  columns = None ∨ columns = Some []
  ∨ (∃ cols, columns = Some cols
             ∧ permission_column_of prefix_name_column cols = Ok []) →
  _permission_for_link_schema models class_registry (S fuel) σ schema model
    prefix_name_column columns is_nested = Ok σ.
Proof.
  intros [->|[->|(cols & -> & Hempty)]]; simpl; [done..|].
  destruct cols as [|c cs]; [done|]. by rewrite Hempty.
Qed.

End PrunerAllowlist.

Section PrunerAllowlistExamples.

Import Pruner Sample.

(** The clerk's paths say nothing below [customer]: the customer schema
    keeps all its fields. *)
Lemma empty_allowlist_unrestricted_witness :
  _permission_for_link_schema models class_registry 1 schemas (RefInstance 2)
    (Some customer) "customer" (Some ["id"; "total"; "customer"]) false
  = Ok schemas.
Proof.
  apply (empty_allowlist_unrestricted models class_registry 0 schemas).
  right. right. exists ["id"; "total"; "customer"]. split; [reflexivity|].
  vm_compute. reflexivity.
Defined.

Example no_columns_no_pruning :
  _permission_for_schema models class_registry 5 schemas 0 order
    (Some {| pu_descriptors := λ _, descriptor [] |})
  = Ok schemas.
Proof. reflexivity. Qed.

End PrunerAllowlistExamples.

(** ** The schema pruner: what is pruned in place and what is new *)

Section PrunerFrame.

Import Pruner.

Lemma assoc_elem {A} k (l : list (string * A)) v :
  assoc k l = Some v → (k, v) ∈ l.
Proof.
  induction l as [|[k' v'] l IH]; simpl; [done|].
  destruct (decide (k = k')) as [->|_].
  - intros [= ->]. by left.
  - intros Hl. right. by apply IH.
Qed.

Lemma field_evolves_refl σ kv : field_evolves σ kv kv.
Proof. by split_and!; [..|left]. Qed.

Lemma fields_evolve_refl σ l : fields_evolve σ l l.
Proof. apply Forall2_same_length_lookup_2; [done|]. intros i x y ? ?.
  simplify_eq. apply field_evolves_refl. Qed.

Lemma field_evolves_trans (σ σ' : Store) kv1 kv2 kv3 :
  (∀ n, σ' !! n = None → σ !! n = None) →
  field_evolves σ kv1 kv2 → field_evolves σ' kv2 kv3 → field_evolves σ kv1 kv3.
Proof.
  intros Hdom (Hk1 & Hd1 & Hi1) (Hk2 & Hd2 & Hi2).
  split_and!; [congruence..|].
  destruct Hi2 as [Hi2|(nested & n & Hkind & Hn & Hnew)].
  - rewrite Hi2. exact Hi1.
  - right. exists nested, n. split_and!; [congruence|done|by apply Hdom].
Qed.

Lemma fields_evolve_trans (σ σ' : Store) l1 l2 l3 :
  (∀ n, σ' !! n = None → σ !! n = None) →
  fields_evolve σ l1 l2 → fields_evolve σ' l2 l3 → fields_evolve σ l1 l3.
Proof.
  intros Hdom H12. revert l3.
  induction H12 as [|kv1 kv2 l1 l2 Hkv _ IH]; intros l3 H23.
  - apply Forall2_nil_inv_l in H23 as ->. constructor.
  - apply Forall2_cons_inv_l in H23 as (kv3 & l3' & Hkv' & Hl' & ->).
    constructor; [by eapply field_evolves_trans|by apply IH].
Qed.

Lemma fields_evolve_omap σ l l' :
  fields_evolve σ l l' →
  omap (λ kv : string * Field,
          match fd_kind (f_decl kv.2) with
          | FRelationship _ => f_instance kv.2
          | _ => None
          end) l'
  = omap (λ kv : string * Field,
            match fd_kind (f_decl kv.2) with
            | FRelationship _ => f_instance kv.2
            | _ => None
            end) l.
Proof.
  intros Hevolve. apply list_omap_ext, Forall2_flip.
  eapply Forall2_impl; [exact Hevolve|].
  intros kv kv' (_ & Hdecl & Hinst). simpl. rewrite Hdecl.
  destruct (fd_kind (f_decl kv.2)) eqn:Hkind; try done.
  destruct Hinst as [->|(? & ? & ? & _)]; [done|congruence].
Qed.

Lemma fields_evolve_rel_targets σ s s' :
  fields_evolve σ (s_declared_fields s) (s_declared_fields s') →
  rel_targets s' = rel_targets s.
Proof. apply fields_evolve_omap. Qed.

Lemma preserves_dom σ σ' n : preserves σ σ' → σ' !! n = None → σ !! n = None.
Proof.
  intros [Hold _] Hn. destruct (σ !! n) as [s|] eqn:Hs; [|done].
  destruct (Hold _ _ Hs) as (s' & Hs' & _). congruence.
Qed.

Lemma preserves_refl σ : preserves σ σ.
Proof.
  split.
  - intros a s Hs. exists s. split; [done|apply fields_evolve_refl].
  - intros a s' Hs' Hnone. congruence.
Qed.

Lemma preserves_trans σ1 σ2 σ3 :
  preserves σ1 σ2 → preserves σ2 σ3 → preserves σ1 σ3.
Proof.
  intros H12 H23. split.
  - intros a s1 Hs1.
    destruct (proj1 H12 _ _ Hs1) as (s2 & Hs2 & He12).
    destruct (proj1 H23 _ _ Hs2) as (s3 & Hs3 & He23).
    exists s3. split; [done|].
    eapply fields_evolve_trans; [|exact He12|exact He23].
    intros n. by apply preserves_dom.
  - intros a s3 Hs3 Hnone.
    destruct (σ2 !! a) as [s2|] eqn:Hs2.
    + destruct (proj1 H23 _ _ Hs2) as (s3' & Hs3' & He23).
      assert (s3' = s3) as -> by congruence.
      rewrite (fields_evolve_rel_targets _ _ _ He23).
      by eapply (proj2 H12).
    + by eapply (proj2 H23).
Qed.

Lemma preserves_rel_targets σ σ' a s s' :
  preserves σ σ' → σ !! a = Some s → σ' !! a = Some s' →
  rel_targets s' = rel_targets s.
Proof.
  intros [Hold _] Hs Hs'. destruct (Hold _ _ Hs) as (s'' & Hs'' & He).
  assert (s'' = s') as -> by congruence. by eapply fields_evolve_rel_targets.
Qed.

Lemma preserves_is_Some σ σ' a :
  preserves σ σ' → is_Some (σ !! a) → is_Some (σ' !! a).
Proof. intros [Hold _] [s Hs]. destruct (Hold _ _ Hs) as (s' & -> & _). eauto. Qed.

Lemma preserves_closed σ σ' : closed σ → preserves σ σ' → closed σ'.
Proof.
  intros Hclosed Hpres x s' y Hs' Hy.
  destruct (σ !! x) as [s|] eqn:Hs.
  - rewrite (preserves_rel_targets _ _ _ _ _ Hpres Hs Hs') in Hy.
    eapply preserves_is_Some; [done|]. by eapply Hclosed.
  - rewrite (proj2 Hpres _ _ Hs' Hs) in Hy. by apply elem_of_nil in Hy.
Qed.

(** A relationship path of the later store that starts at an instance of
    the earlier one is a path of the earlier store. *)
Lemma reach_back σ σ' x a :
  closed σ → preserves σ σ' → is_Some (σ !! x) →
  rtc (related σ') x a → rtc (related σ) x a.
Proof.
  intros Hclosed Hpres Hx Hreach. induction Hreach as [x|x z a (s' & Hs' & Hz) _ IH];
    [done|].
  destruct Hx as [s Hs].
  rewrite (preserves_rel_targets _ _ _ _ _ Hpres Hs Hs') in Hz.
  eapply rtc_l; [by exists s|]. apply IH. by eapply Hclosed.
Qed.

Lemma bind_field_evolves (σ : Store) name n l f nested :
  assoc name l = Some f → fd_kind (f_decl f) = FNested nested → σ !! n = None →
  fields_evolve σ l (bind_field name n l).
Proof.
  intros Hf Hkind Hn. induction l as [|[k f0] l IH]; simpl in *; [done|].
  destruct (decide (name = k)) as [->|_].
  - injection Hf as ->. constructor; [|apply fields_evolve_refl].
    split_and!; [done..|]. right. by exists nested, n.
  - constructor; [apply field_evolves_refl|by apply IH].
Qed.

Lemma new_schema_rel_targets cls_schema many only exclude :
  rel_targets (new_schema cls_schema many only exclude) = [].
Proof.
  destruct (rel_targets _) as [|y ys] eqn:Htargets; [done|].
  assert (y ∈ rel_targets (new_schema cls_schema many only exclude)) as Hy.
  { rewrite Htargets. by left. }
  unfold rel_targets, new_schema in Hy. simpl in Hy.
  apply list_elem_of_omap in Hy as ([k f] & Hin & Hf).
  apply list_elem_of_fmap in Hin as ([k' decl] & [= -> ->] & _).
  simpl in Hf. by destruct (fd_kind decl).
Qed.

Lemma relationship_schema_target s i_include r :
  relationship_schema s i_include = Ok (RefInstance r) → r ∈ rel_targets s.
Proof.
  unfold relationship_schema, rel_targets, field_ref.
  destruct (assoc i_include (s_declared_fields s)) as [f|] eqn:Hf; [|done].
  destruct (fd_kind (f_decl f)) eqn:Hkind; try done.
  destruct (f_instance f) as [r'|] eqn:Hr; [|done]. intros [= ->].
  apply list_elem_of_omap. exists (i_include, f).
  split; [by apply assoc_elem|]. simpl. by rewrite Hkind.
Qed.

End PrunerFrame.

Section PrunerFrameLoops.

Import Pruner.

Variable models : string → Model.
Variable class_registry : string → option SchemaClass.

(** Binding a new instance to a nested field of the schema at [a]. *)
Lemma bind_new_instance (σ : Store) a s name i_field nested i_schema :
  σ !! a = Some s →
  assoc name (s_declared_fields s) = Some i_field →
  fd_kind (f_decl i_field) = FNested nested →
  rel_targets i_schema = [] →
  let fresh_address := fresh (dom σ) in
  let σ2 := alter (set_field_instance name fresh_address) a
                  (<[fresh_address := i_schema]> σ) in
  preserves σ σ2
  ∧ σ2 !! fresh_address = Some i_schema
  ∧ σ !! fresh_address = None
  ∧ ∀ b, b ≠ a → b ≠ fresh_address → σ2 !! b = σ !! b.
Proof.
  intros Hs Hfield Hkind Hnew fresh_address σ2.
  assert (σ !! fresh_address = None) as Hfresh.
  { apply not_elem_of_dom. apply is_fresh. }
  assert (a ≠ fresh_address) as Hne by congruence.
  assert (σ2 !! a = Some (set_field_instance name fresh_address s)) as Ha.
  { unfold σ2. by rewrite lookup_alter_eq, lookup_insert_ne, Hs. }
  assert (∀ b, b ≠ a → b ≠ fresh_address → σ2 !! b = σ !! b) as Hother.
  { intros b Hba Hbf. unfold σ2. by rewrite lookup_alter_ne, lookup_insert_ne. }
  split_and!; [|by unfold σ2; rewrite lookup_alter_ne, lookup_insert_eq|done|done].
  split.
  - intros b sb Hb. destruct (decide (b = a)) as [->|Hba].
    + exists (set_field_instance name fresh_address s). split; [done|].
      assert (sb = s) as -> by congruence. simpl.
      by eapply bind_field_evolves.
    + exists sb. split; [|apply fields_evolve_refl].
      rewrite Hother; [done..|]. congruence.
  - intros b s' Hb Hnone. destruct (decide (b = fresh_address)) as [->|Hbf].
    + unfold σ2 in Hb. rewrite lookup_alter_ne, lookup_insert_eq in Hb by done.
      by injection Hb as <-.
    + rewrite Hother in Hb; [congruence|congruence|done].
Qed.

Lemma nested_loop_frame recurse a permission_column prefix_name_column names σ σ' :
  (∀ prefix, frames (λ σ i_schema, recurse σ i_schema prefix)) →
  nested_loop class_registry recurse a permission_column prefix_name_column names σ
  = Ok σ' →
  closed σ →
  preserves σ σ' ∧ ∀ b, is_Some (σ !! b) → b ≠ a → σ' !! b = σ !! b.
Proof.
  intros Hrec. revert σ. induction names as [|i_field_name names IH]; intros σ; simpl.
  { intros [= <-] _. split; [apply preserves_refl|done]. }
  intros Hrun Hclosed. inv_bind Hrun. rename a0 into σ1.
  assert (preserves σ σ1 ∧ ∀ b, is_Some (σ !! b) → b ≠ a → σ1 !! b = σ !! b)
    as [Hpres Hframe].
  { destruct (σ !! a) as [s|] eqn:Hs; simpl in Hstep;
      [|injection Hstep as <-; split; [apply preserves_refl|done]].
    destruct (assoc i_field_name (s_declared_fields s)) as [i_field|] eqn:Hfield;
      [|injection Hstep as <-; split; [apply preserves_refl|done]].
    destruct (fd_kind (f_decl i_field)) as [|nested|] eqn:Hkind;
      try (injection Hstep as <-; split; [apply preserves_refl|done]).
    destruct (bool_decide (i_field_name ∈ permission_column));
      [|injection Hstep as <-; split; [apply preserves_refl|done]].
    destruct (class_registry nested) as [cls_schema|]; [|done].
    destruct (bind_new_instance σ a s i_field_name i_field nested
                (new_schema cls_schema (fd_many (f_decl i_field))
                   (fd_only (f_decl i_field)) (fd_exclude (f_decl i_field))))
      as (Hpres2 & Hnew & Hfresh & Hother);
      [done|done|done|apply new_schema_rel_targets|].
    pose proof (preserves_closed _ _ Hclosed Hpres2) as Hclosed2.
    destruct (Hrec _ _ _ _ Hstep Hclosed2) as [Hpres1 Hframe1].
    split; [by eapply preserves_trans|].
    intros b [sb Hb] Hba.
    assert (b ≠ fresh (dom σ)) as Hbf by congruence.
    trans (alter (set_field_instance i_field_name (fresh (dom σ))) a
             (<[fresh (dom σ) :=
                  new_schema cls_schema (fd_many (f_decl i_field))
                    (fd_only (f_decl i_field)) (fd_exclude (f_decl i_field))]> σ)
           !! b); [apply Hframe1|by apply Hother].
    - rewrite Hother by done. eauto.
    - intros (r & [= <-] & Hreach).
      apply rtc_inv in Hreach as [?|(z & (s' & Hs' & Hz) & _)]; [done|].
      rewrite Hnew in Hs'. injection Hs' as <-.
      rewrite new_schema_rel_targets in Hz. by apply elem_of_nil in Hz. }
  pose proof (preserves_closed _ _ Hclosed Hpres) as Hclosed1.
  destruct (IH _ Hrun Hclosed1) as [Hpres' Hframe'].
  split; [by eapply preserves_trans|].
  intros b Hb Hba. trans (σ1 !! b); [apply Hframe'|apply Hframe]; try done.
  by eapply preserves_is_Some.
Qed.

Lemma include_loop_frame recurse a model prefix_name_column includes σ0 σ σ' :
  (∀ i_model prefix, frames (λ σ related, recurse σ related i_model prefix)) →
  include_loop models recurse a model prefix_name_column includes σ = Ok σ' →
  closed σ0 → preserves σ0 σ → is_Some (σ0 !! a) →
  preserves σ0 σ'
  ∧ ∀ b, is_Some (σ0 !! b) → ¬ rtc (related σ0) a b →
         σ !! b = σ0 !! b → σ' !! b = σ0 !! b.
Proof.
  intros Hrec. revert σ. induction includes as [|i_include includes IH]; intros σ; simpl.
  { intros [= <-] _ Hpres _. done. }
  intros Hrun Hclosed Hpres Ha. inv_bind Hrun. rename a0 into σ1.
  assert (preserves σ σ1
          ∧ ∀ b, is_Some (σ0 !! b) → ¬ rtc (related σ0) a b →
                 σ !! b = σ0 !! b → σ1 !! b = σ0 !! b) as [Hpres1 Hframe1].
  { destruct (σ !! a) as [s|] eqn:Hs; [|done].
    destruct (bool_decide (i_include ∈ s_fields s));
      [|injection Hstep as <-; split; [apply preserves_refl|done]].
    inv_bind Hstep. rename a2 into related_schema.
    pose proof (preserves_closed _ _ Hclosed Hpres) as Hclosed1.
    destruct (Hrec _ _ _ _ _ Hstep Hclosed1) as [Hpres1 Hframe1].
    split; [done|]. intros b Hb Hreach Hsame.
    trans (σ !! b); [apply Hframe1|done]; [by rewrite Hsame|].
    intros (r & -> & Hreach'). apply Hreach.
    apply relationship_schema_target in Hstep2.
    destruct Ha as [s0 Hs0].
    rewrite (preserves_rel_targets _ _ _ _ _ Hpres Hs0 Hs) in Hstep2.
    eapply rtc_l; [by exists s0|].
    eapply reach_back; [done|done| |done]. by eapply Hclosed. }
  pose proof (preserves_trans _ _ _ Hpres Hpres1) as Hpres01.
  destruct (IH _ Hrun Hclosed Hpres01 Ha) as [Hpres' Hframe'].
  split; [done|]. intros b Hb Hreach Hsame. by apply Hframe', Hframe1.
Qed.

(** The pruner, at every depth of recursion. *)
Lemma permission_for_link_schema_frames fuel model prefix_name_column columns is_nested :
  frames (λ σ schema,
            _permission_for_link_schema models class_registry fuel σ schema model
              prefix_name_column columns is_nested).
Proof.
  revert model prefix_name_column is_nested.
  induction fuel as [|fuel IH]; intros model prefix_name_column is_nested σ schema σ';
    simpl; [done|].
  destruct columns as [[|c cs]|];
    try (intros [= <-] _; split; [apply preserves_refl|done]).
  intros Hrun Hclosed. inv_bind Hrun. rename a into permission_column.
  destruct (bool_decide (permission_column = []));
    [injection Hrun as <-; split; [apply preserves_refl|done]|].
  destruct schema as [a|]; [|done].
  destruct (σ !! a) as [s|] eqn:Hs; [|done].
  inv_bind Hrun. rename a0 into σ2.
  set (s1 := restrict s _ _ _ _) in Hstep0.
  assert (preserves σ (<[a := s1]> σ)) as Hpres1.
  { split.
    - intros b sb Hb. destruct (decide (b = a)) as [->|Hba].
      + exists s1. rewrite lookup_insert_eq. split; [done|].
        assert (sb = s) as -> by congruence. apply fields_evolve_refl.
      + exists sb. rewrite lookup_insert_ne by done.
        split; [done|apply fields_evolve_refl].
    - intros b s' Hb Hnone. rewrite lookup_insert_ne in Hb by congruence. congruence. }
  pose proof (preserves_closed _ _ Hclosed Hpres1) as Hclosed1.
  destruct (nested_loop_frame _ _ _ _ _ _ _ (λ prefix, IH None prefix true)
              Hstep0 Hclosed1) as [Hpres2 Hframe2].
  assert (preserves σ σ2) as Hpres by (by eapply preserves_trans).
  assert (∀ b, is_Some (σ !! b) → b ≠ a → σ2 !! b = σ !! b) as Hframe.
  { intros b Hb Hba. trans (<[a := s1]> σ !! b); [apply Hframe2|];
      by rewrite ?lookup_insert_ne. }
  assert (∀ b, ¬ in_place σ (RefInstance a) b → ¬ rtc (related σ) a b) as Hplace.
  { intros b Hb Hreach. apply Hb. by exists a. }
  destruct is_nested.
  - injection Hrun as <-. split; [done|]. intros b Hb Hnot. apply Hframe; [done|].
    intros ->. by apply (Hplace a Hnot).
  - destruct (include_loop_frame _ _ _ _ _ σ _ _
                (λ i_model prefix, IH i_model prefix false) Hrun Hclosed Hpres
                (mk_is_Some _ _ Hs)) as [Hpres' Hframe'].
    split; [done|]. intros b Hb Hnot. apply Hframe'; [done|by apply Hplace|].
    apply Hframe; [done|]. intros ->. by apply (Hplace a Hnot).
Qed.

End PrunerFrameLoops.

Section PrunerClaims.

Import Pruner.

Variable models : string → Model.
Variable class_registry : string → option SchemaClass.

(** A store is closed when the check over its instances succeeds. *)
Lemma closed_by_check (σ : Store) :
  map_Forall (λ _ s, Forall (λ y, is_Some (σ !! y)) (rel_targets s)) σ → closed σ.
Proof.
  intros Hcheck x s y Hs Hy. specialize (Hcheck x s Hs). simpl in Hcheck.
  rewrite Forall_forall in Hcheck. by apply Hcheck.
Qed.

(** X22: one run of the pruner restricts in place the schema it is called
    for and the related schemas reachable from it through relationship
    fields, and it restricts every nested sub-schema on a newly
    constructed instance. Every other schema instance that exists before
    the call is left unchanged; in every instance the relationship fields
    keep their schema, and a nested field keeps its schema or is bound to
    an instance that did not exist before. *)
Theorem pruning_in_place_or_new fuel σ schema model prefix_name_column columns
    is_nested σ' :
  closed σ →
  _permission_for_link_schema models class_registry fuel σ (RefInstance schema)
    model prefix_name_column columns is_nested = Ok σ' →
  ∀ a s,
    σ !! a = Some s →
    ∃ s',
      σ' !! a = Some s'
      ∧ fields_evolve σ (s_declared_fields s) (s_declared_fields s')
      ∧ (¬ rtc (related σ) schema a → s' = s).
Proof.
  intros Hclosed Hrun a s Hs.
  destruct (permission_for_link_schema_frames models class_registry fuel model
              prefix_name_column columns is_nested σ (RefInstance schema) σ'
              Hrun Hclosed) as [[Hold _] Hframe].
  destruct (Hold a s Hs) as (s' & Hs' & Hevolve).
  exists s'. split_and!; [done..|].
  intros Hreach. rewrite Hframe in Hs'; [congruence|by eauto|].
  by intros (r & [= <-] & ?).
Qed.

End PrunerClaims.

Section PrunerExamples.

Import Pruner Sample.

Lemma schemas_closed : closed schemas.
Proof. apply closed_by_check. apply (bool_decide_unpack _). vm_compute. exact I. Qed.

Lemma pruning_in_place_or_new_witness :
  ∃ σ',
    _permission_for_link_schema models class_registry 5 schemas (RefInstance 0)
      (Some order) "" (Some paths_A) false = Ok σ'
    ∧ ∀ a s,
        schemas !! a = Some s →
        ∃ s',
          σ' !! a = Some s'
          ∧ fields_evolve schemas (s_declared_fields s) (s_declared_fields s')
          ∧ (¬ rtc (related schemas) 0 a → s' = s).
Proof.
  destruct (_permission_for_link_schema models class_registry 5 schemas
              (RefInstance 0) (Some order) "" (Some paths_A) false)
    as [σ'|e] eqn:Hrun.
  - exists σ'. split; [reflexivity|].
    exact (pruning_in_place_or_new models class_registry 5 schemas 0 (Some order) ""
             (Some paths_A) false σ' schemas_closed Hrun).
  - exfalso. vm_compute in Hrun. discriminate Hrun.
Defined.


Example nested_schema_rebuilt :
  ∃ σA,
    _permission_for_link_schema models class_registry 5 schemas (RefInstance 0)
      (Some order) "" (Some paths_A) false = Ok σA
    ∧ schemas !! 4 = None
    ∧ s_fields <$> σA !! 4 = Some ["city"]
    ∧ σA !! 3 = schemas !! 3
    ∧ σA !! 1 = schemas !! 1.
Proof. eexists. split_and!; [reflexivity|..]; vm_compute; reflexivity. Qed.

End PrunerExamples.

(** * Further properties *)

(** ** The required-field closure, cycles and the call stack *)

Section RequiredFieldsMore.

Variable model : Model.

#[local] Abbreviation requires := (requires model).

Lemma reaches_cycle_step x :
  reaches_cycle model x → ∃ z, requires x z ∧ reaches_cycle model z.
Proof.
  intros (y & Hxy & Hcycle). apply rtc_inv in Hxy as [->|(z & Hxz & Hzy)].
  - apply tc_nsteps in Hcycle as (n & Hn & Hsteps).
    destruct n as [|n]; [lia|]. inversion Hsteps as [|? ? z ? Hyz Hrest]; subst.
    exists z. split; [done|]. exists z. split; [done|].
    eapply tc_rtc_l; [by eapply rtc_nsteps_2|]. by apply tc_once.
  - exists z. split; [done|]. by exists y.
Qed.

(** A field from which a cycle can be reached exhausts every call stack. *)
Lemma reaches_cycle_Raise fuel x :
  reaches_cycle model x → get_required_fields fuel x model = Raise RecursionError.
Proof.
  revert x. induction fuel as [|fuel IH]; intros x Hx; simpl; [done|].
  destruct (reaches_cycle_step x Hx) as (z & (deps & Hdeps & Hz) & Hcycle).
  rewrite Hdeps.
  destruct (extend_each _ deps) as [rest|e] eqn:Hrest; simpl.
  - destruct (extend_each_Ok_inv _ _ _ z Hrest Hz) as [ys Hys].
    by rewrite (IH z Hcycle) in Hys.
  - apply extend_each_Raise_inv in Hrest as (d & _ & Hd).
    by apply get_required_fields_Raise in Hd as [-> _].
Qed.

(** Along a chain that starts where no cycle can be reached, the keys are
    distinct. *)
Lemma chain_bound_from x0 (visited : gset string) n x y :
  ¬ reaches_cycle model x0 →
  rtc requires x0 x →
  visited ⊆ dom (m_required_fields model) →
  (∀ v, v ∈ visited → tc requires v x) →
  nsteps requires n x y →
  size visited + n ≤ size (dom (m_required_fields model)).
Proof.
  intros Hfree. revert visited x.
  induction n as [|n IH]; intros visited x Hx0 Hsub Hreach Hsteps.
  - rewrite Nat.add_0_r. by apply subseteq_size.
  - inversion Hsteps as [|? ? x' ? Hstep Hrest]; subst.
    assert (x ∉ visited) as Hfresh.
    { intros Hin. apply Hfree. exists x. split; [done|]. by apply Hreach. }
    assert (x ∈ dom (m_required_fields model)) as Hdom.
    { destruct Hstep as (deps & Hx & _). apply elem_of_dom. eauto. }
    specialize (IH ({[x]} ∪ visited) x').
    rewrite size_union in IH by (by apply disjoint_singleton_l).
    rewrite size_singleton in IH.
    etrans; [|apply IH; [|clear IH| |done]]; [lia|..].
    { eapply rtc_r; [exact Hx0|exact Hstep]. }
    { apply union_subseteq. split; [|done]. by apply singleton_subseteq_l. }
    intros v [->%elem_of_singleton|Hv]%elem_of_union.
    + by apply tc_once.
    + eapply tc_r; [by apply Hreach|done].
Qed.

Lemma extend_each_mono {A B} (f g : A → result (list B)) l r :
  (∀ x ys, x ∈ l → f x = Ok ys → g x = Ok ys) →
  extend_each f l = Ok r → extend_each g l = Ok r.
Proof.
  revert r. induction l as [|a l IH]; intros r Hfg; simpl; [done|].
  intros H. inv_bind H. injection H as <-.
  rewrite (Hfg a a0) by (done || by left). simpl.
  rewrite (IH a1); [done| |done]. intros x ys Hx. apply Hfg. by right.
Qed.

End RequiredFieldsMore.

(** X1: a field from which a dependency cycle can be reached makes
    [get_required_fields] exhaust the call stack, however deep it is: the
    call never returns a list. *)
Theorem required_fields_cycle_never_returns (model : Model) (field_name : string)
    (fuel : nat) :
  reaches_cycle model field_name →
  get_required_fields fuel field_name model = Raise RecursionError.
Proof. apply reaches_cycle_Raise. Qed.

(** X2: when no dependency cycle can be reached from the field, the call
    returns with any call stack deeper than the number of declared keys,
    whatever cycles the declarations have elsewhere. *)
Theorem required_fields_returns_without_reachable_cycle (model : Model)
    (field_name : string) (fuel : nat) :
  ¬ reaches_cycle model field_name →
  size (dom (m_required_fields model)) < fuel →
  ∃ found,
    get_required_fields fuel field_name model = Ok found
    ∧ ∀ y, y ∈ found ↔ tc (requires model) field_name y.
Proof.
  intros Hfree Hfuel.
  destruct (get_required_fields fuel field_name model) as [found|e] eqn:Hrun.
  - exists found. split; [done|]. by apply get_required_fields_reachable with fuel.
  - apply get_required_fields_Raise in Hrun as (_ & y & Hsteps).
    pose proof (chain_bound_from model field_name ∅ fuel field_name y Hfree) as Hbound.
    rewrite size_empty in Hbound. simpl in Hbound.
    assert (fuel ≤ size (dom (m_required_fields model))); [|lia].
    apply Hbound; [done|done| |done]. by intros v ?%not_elem_of_empty.
Qed.

(** X3: the result does not depend on the depth of the call stack: a call
    that returns with some depth returns the same list with any greater
    depth. *)
Theorem required_fields_stable (model : Model) (fuel fuel' : nat)
    (field_name : string) (found : list string) :
  get_required_fields fuel field_name model = Ok found →
  fuel ≤ fuel' →
  get_required_fields fuel' field_name model = Ok found.
Proof.
  revert fuel' field_name found.
  induction fuel as [|fuel IH]; intros fuel' x found; simpl; [done|].
  intros Hrun Hle. destruct fuel' as [|fuel']; [lia|]. simpl.
  destruct (m_required_fields model !! x) as [deps|]; [|done].
  inv_bind Hrun. injection Hrun as <-.
  erewrite extend_each_mono; [done| |exact Hstep].
  intros d ys _ Hd. simpl in Hd. apply IH; [done|lia].
Qed.

Lemma returns_no_cycle (model : Model) fuel field_name found :
  get_required_fields fuel field_name model = Ok found →
  ¬ reaches_cycle model field_name.
Proof. intros Hrun Hcycle. by rewrite (reaches_cycle_Raise model fuel) in Hrun. Qed.

Lemma ledger_a_reaches_cycle : reaches_cycle Sample2.ledger "a".
Proof.
  exists "a". split; [done|].
  eapply tc_l; [|apply tc_once].
  - exists ["b"]. split; [reflexivity|by left].
  - exists ["a"]. split; [reflexivity|by left].
Qed.

Lemma required_fields_cycle_never_returns_witness :
  get_required_fields 1000 "a" Sample2.ledger = Raise RecursionError.
Proof.
  apply (required_fields_cycle_never_returns Sample2.ledger "a" 1000).
  exact ledger_a_reaches_cycle.
Defined.

Lemma required_fields_returns_without_reachable_cycle_witness :
  ∃ found,
    get_required_fields 4 "net" Sample2.ledger = Ok found
    ∧ ∀ y, y ∈ found ↔ tc (requires Sample2.ledger) "net" y.
Proof.
  apply (required_fields_returns_without_reachable_cycle Sample2.ledger "net" 4).
  - apply (returns_no_cycle Sample2.ledger 2 "net" ["gross"]). reflexivity.
  - vm_compute. lia.
Defined.

Lemma required_fields_stable_witness :
  get_required_fields 10 "total" Sample.invoice = Ok ["tax"; "subtotal"].
Proof.
  apply (required_fields_stable Sample.invoice 2 10 "total" ["tax"; "subtotal"]).
  - reflexivity.
  - lia.
Defined.

(** ** Route installation, method by method *)

Section RouteMore.

Import Route RouteSpec.

(** One call of [_permission_method] on a list or detail resource. *)
Lemma permission_method_spec strict resource m reg model :
  r_base resource ≠ BaseOther →
  dl_model (r_data_layer resource) = Some model →
  _permission_method strict resource m reg
  = match r_attrs resource !! lower m with
    | None => Ok (resource, reg)
    | Some old_method =>
        if strict && offending resource m
        then Raise (PermissionException
                      (no_permission_case model (type_of (r_base resource) m)))
        else Ok (setattr resource (lower m) (installed resource m old_method),
                 add_permission (type_of (r_base resource) m) model
                                (permissions_of resource m) reg)
    end.
Proof.
  intros Hbase Hmodel.
  unfold _permission_method, offending, installed, enabled_methods, permissions_of,
    type_of, many_of.
  rewrite Hmodel.
  destruct (r_base resource); [| |done]; simpl;
    (destruct (r_attrs resource !! lower m) as [old_method|]; simpl; [|done]);
    destruct strict, (event_is_False resource); simpl; try done;
    destruct (bool_decide (upper m ∈ _)); simpl; try done;
    by destruct (bool_decide (_ = [])).
Qed.

Lemma offending_setattr resource k h m :
  k ≠ lower m → offending (setattr resource k h) m = offending resource m.
Proof.
  intros Hk. unfold offending. simpl. by rewrite lookup_insert_ne.
Qed.

Lemma registrations_setattr resource k h model methods :
  (∀ m, m ∈ methods → k ≠ lower m) →
  registrations (setattr resource k h) model methods
  = registrations resource model methods.
Proof.
  intros Hk. unfold registrations. apply list_omap_ext, Forall2_same_length_lookup_2;
    [done|].
  intros i m m' Hm Hm'. assert (m' = m) as -> by congruence.
  simpl. rewrite lookup_insert_ne; [done|]. apply Hk. by eapply list_elem_of_lookup_2.
Qed.

Lemma registrations_cons resource model m methods :
  registrations resource model (m :: methods)
  = match r_attrs resource !! lower m with
    | Some _ =>
        [(type_of (r_base resource) m, m_name model, permissions_of resource m)]
    | None => []
    end ++ registrations resource model methods.
Proof.
  unfold registrations. change (m :: methods) with ([m] ++ methods).
  rewrite omap_app. f_equal. simpl.
  by destruct (r_attrs resource !! lower m).
Qed.

(** The walk over the methods, when it completes. *)
Lemma permission_methods_spec strict methods resource reg resource' reg' model :
  r_base resource ≠ BaseOther →
  dl_model (r_data_layer resource) = Some model →
  NoDup methods →
  permission_methods strict methods resource reg = Ok (resource', reg') →
  r_base resource' = r_base resource
  ∧ r_permission_plugin_inited resource' = r_permission_plugin_inited resource
  ∧ r_methods resource' = r_methods resource
  ∧ r_event resource' = r_event resource
  ∧ r_data_layer resource' = r_data_layer resource
  ∧ r_decorators resource' = r_decorators resource
  ∧ (∀ m, m ∈ methods →
          r_attrs resource' !! lower m
          = installed resource m <$> r_attrs resource !! lower m)
  ∧ (∀ k, (∀ m, m ∈ methods → k ≠ lower m) →
          r_attrs resource' !! k = r_attrs resource !! k)
  ∧ reg' = reg ++ registrations resource model methods
  ∧ (strict = true → Forall (λ m, offending resource m = false) methods).
Proof.
  intros Hbase Hmodel Hnd. revert resource reg Hbase Hmodel.
  induction Hnd as [|m methods Hfresh Hnd IH]; intros resource reg Hbase Hmodel;
    rewrite ?registrations_cons; simpl.
  { intros [= <- <-]. rewrite app_nil_r.
    split_and!; first [done|by intros m ?%elem_of_nil|by intros _; constructor]. }
  rewrite (permission_method_spec strict resource m reg model) by done.
  assert (∀ m', m' ∈ methods → lower m ≠ lower m') as Hkeys.
  { intros m' Hm' Heq. apply lower_inj in Heq as ->. done. }
  destruct (r_attrs resource !! lower m) as [old_method|] eqn:Hattr; simpl.
  - destruct (strict && offending resource m) eqn:Hoff; simpl; [done|].
    intros Hrun. apply IH in Hrun; [|done..].
    destruct Hrun as (Hb & Hi & Hm & He & Hd & Hdec & Hwalk & Hother & Hreg & Hstrict).
    simpl in Hb, Hi, Hm, He, Hd, Hdec, Hwalk, Hother.
    split_and!; [done|done|done|done|done|done|..].
    + intros m' [->|Hm']%elem_of_cons.
      * rewrite Hother by done. by rewrite lookup_insert_eq, Hattr.
      * rewrite Hwalk by done. by rewrite lookup_insert_ne by by apply Hkeys.
    + intros k Hk. rewrite Hother.
      * rewrite lookup_insert_ne; [done|]. intros <-. by apply (Hk m); [left|].
      * intros m' Hm'. apply Hk. by right.
    + rewrite Hreg, registrations_setattr by done.
      unfold add_permission. by rewrite <-(assoc_L (++)).
    + intros ->. constructor; [by destruct (offending resource m)|].
      rewrite Forall_forall. intros m' Hm'.
      rewrite <-(offending_setattr resource (lower m)
                   (installed resource m old_method) m') by by apply Hkeys.
      specialize (Hstrict eq_refl). rewrite Forall_forall in Hstrict.
      by apply Hstrict.
  - intros Hrun. apply IH in Hrun; [|done..].
    destruct Hrun as (Hb & Hi & Hm & He & Hd & Hdec & Hwalk & Hother & Hreg & Hstrict).
    split_and!; [done|done|done|done|done|done|..].
    + intros m' [->|Hm']%elem_of_cons; [|by apply Hwalk].
      rewrite Hother by done. by rewrite Hattr.
    + intros k Hk. apply Hother. intros m' Hm'. apply Hk. by right.
    + by rewrite Hreg.
    + intros ->. constructor; [|by apply Hstrict].
      unfold offending. rewrite Hattr.
      rewrite bool_decide_eq_false_2; [done|]. by intros [? ?].
Qed.

Lemma permission_methods_KeyError strict m methods resource reg :
  r_base resource ≠ BaseOther →
  dl_model (r_data_layer resource) = None →
  permission_methods strict (m :: methods) resource reg = Raise KeyError.
Proof.
  intros Hbase Hmodel. simpl. unfold _permission_method. rewrite Hmodel.
  by destruct (r_base resource).
Qed.

Lemma permission_method_lenient_of_strict resource m reg st :
  _permission_method true resource m reg = Ok st →
  _permission_method false resource m reg = Ok st.
Proof.
  unfold _permission_method.
  destruct (r_base resource); [| |done];
    (destruct (dl_model (r_data_layer resource)); simpl; [|done]);
    (destruct (r_attrs resource !! lower m); simpl; [|done]);
    by destruct (event_is_False resource && _ && _).
Qed.

Lemma permission_methods_lenient_of_strict methods resource reg st :
  permission_methods true methods resource reg = Ok st →
  permission_methods false methods resource reg = Ok st.
Proof.
  revert resource reg. induction methods as [|m methods IH]; intros resource reg;
    simpl; [done|].
  intros H. inv_bind H.
  rewrite (permission_method_lenient_of_strict _ _ _ _ Hstep). simpl. by apply IH.
Qed.

Lemma permission_methods_Ok strict methods resource reg model :
  r_base resource ≠ BaseOther →
  dl_model (r_data_layer resource) = Some model →
  NoDup methods →
  Forall (λ m, offending resource m = false) methods →
  ∃ st, permission_methods strict methods resource reg = Ok st.
Proof.
  intros Hbase Hmodel Hnd. revert resource reg Hbase Hmodel.
  induction Hnd as [|m methods Hfresh Hnd IH]; intros resource reg Hbase Hmodel Hall;
    simpl; [eauto|].
  apply Forall_cons in Hall as [Hm Hall].
  rewrite (permission_method_spec strict resource m reg model) by done.
  destruct (r_attrs resource !! lower m) as [old_method|]; simpl.
  - rewrite Hm, andb_false_r. simpl. apply IH; [done..|].
    rewrite Forall_forall in Hall |- *. intros m' Hm'.
    rewrite offending_setattr; [by apply Hall|].
    intros Heq. apply lower_inj in Heq as ->. done.
  - by apply IH.
Qed.

Lemma base_other_cases resource :
  r_base resource = BaseOther ∨ r_base resource ≠ BaseOther.
Proof. destruct (r_base resource); [by right|by right|by left]. Qed.

Lemma route_methods_NoDup base : NoDup (route_methods base).
Proof. destruct base; simpl; compute_done. Qed.

(** A completed installation on a list or detail resource is the marker
    set on a completed walk over the methods of the base class. *)
Lemma after_route_Ok_inv strict resource reg resource' reg' :
  r_permission_plugin_inited resource = false →
  r_base resource ≠ BaseOther →
  after_route strict resource reg = Ok (resource', reg') →
  ∃ resource1 model,
    dl_model (r_data_layer resource) = Some model
    ∧ permission_methods strict (route_methods (r_base resource)) resource reg
      = Ok (resource1, reg')
    ∧ resource' = set_inited resource1.
Proof.
  intros Hinit Hbase. unfold after_route. rewrite Hinit.
  destruct (dl_model (r_data_layer resource)) as [model|] eqn:Hmodel.
  - destruct (r_base resource); [| |done]; simpl;
      intros H; inv_bind H; destruct a as [resource1 reg1];
      injection H as <- <-; by exists resource1, model.
  - destruct (r_base resource) eqn:Hb; [| |done];
      by rewrite permission_methods_KeyError by congruence.
Qed.

End RouteMore.

Section RouteProperties.

Import Route RouteSpec.

(** X4: after a completed installation every view method that
    [after_route] walks through is replaced: by the permission wrapper
    around the original method when the method is among the resource's
    [methods], by the bad-request stub when it is not. *)
Theorem install_wraps_or_disables strict resource reg resource' reg' m old_method :
  r_permission_plugin_inited resource = false →
  m ∈ route_methods (r_base resource) →
  r_attrs resource !! lower m = Some old_method →
  after_route strict resource reg = Ok (resource', reg') →
  r_attrs resource' !! lower m
  = Some (if bool_decide (upper m ∈ enabled_methods resource)
          then permission old_method (lower m) (many_of (r_base resource))
                          (r_decorators resource)
          else HBadRequest).
Proof.
  intros Hinit Hm Hattr Hrun.
  assert (r_base resource ≠ BaseOther) as Hbase.
  { intros Heq. rewrite Heq in Hm. by apply elem_of_nil in Hm. }
  apply after_route_Ok_inv in Hrun as (resource1 & model & Hmodel & Hrun & ->);
    [|done..].
  apply (permission_methods_spec _ _ _ _ _ _ model) in Hrun
    as (_ & _ & _ & _ & _ & _ & Hwalk & _); [|done|done|apply route_methods_NoDup].
  simpl. by rewrite Hwalk, Hattr.
Qed.

(** X5: a completed installation appends to the registry one registration
    for each view method the resource has, in the order [after_route]
    walks through the methods, and nothing else: disabled methods are
    registered too, methods without a view method are not. *)
Theorem install_registers_in_order strict resource reg resource' reg' model :
  r_permission_plugin_inited resource = false →
  dl_model (r_data_layer resource) = Some model →
  after_route strict resource reg = Ok (resource', reg') →
  reg' = reg ++ registrations resource model (route_methods (r_base resource)).
Proof.
  intros Hinit Hmodel Hrun.
  destruct (base_other_cases resource) as [Hother|Hbase].
  { unfold after_route in Hrun. rewrite Hinit, Hother in Hrun.
    injection Hrun as <- <-. rewrite Hother. simpl. by rewrite app_nil_r. }
  apply after_route_Ok_inv in Hrun as (resource1 & model' & Hmodel' & Hrun & ->);
    [|done..].
  assert (model' = model) as -> by congruence.
  by apply (permission_methods_spec _ _ _ _ _ _ model) in Hrun
    as (_ & _ & _ & _ & _ & _ & _ & _ & Hreg & _);
    [|done|done|apply route_methods_NoDup].
Qed.

(** X6: installation touches the view methods and the marker only. The
    base class, [methods], [event], the data layer and the decorators of
    the resource stay as they are, no attribute other than the walked view
    methods changes, and no view method is added. *)
Theorem install_touches_view_methods_only strict resource reg resource' reg' :
  after_route strict resource reg = Ok (resource', reg') →
  r_base resource' = r_base resource
  ∧ r_methods resource' = r_methods resource
  ∧ r_event resource' = r_event resource
  ∧ r_data_layer resource' = r_data_layer resource
  ∧ r_decorators resource' = r_decorators resource
  ∧ (∀ k, k ∉ lower <$> route_methods (r_base resource) →
          r_attrs resource' !! k = r_attrs resource !! k)
  ∧ (∀ k, is_Some (r_attrs resource' !! k) ↔ is_Some (r_attrs resource !! k)).
Proof.
  intros Hrun.
  destruct (r_permission_plugin_inited resource) eqn:Hinit.
  { unfold after_route in Hrun. rewrite Hinit in Hrun. by injection Hrun as <- <-. }
  destruct (base_other_cases resource) as [Hother|Hbase].
  { unfold after_route in Hrun. rewrite Hinit, Hother in Hrun.
    by injection Hrun as <- <-. }
  apply after_route_Ok_inv in Hrun as (resource1 & model & Hmodel & Hrun & ->);
    [|done..].
  apply (permission_methods_spec _ _ _ _ _ _ model) in Hrun
    as (Hb & _ & Hm & He & Hd & Hdec & Hwalk & Hframe & _);
    [|done|done|apply route_methods_NoDup].
  simpl. split_and!; [done..| |].
  - intros k Hk. apply Hframe. intros m Hm' ->. apply Hk.
    by apply list_elem_of_fmap_2.
  - intros k.
    destruct (decide (k ∈ lower <$> route_methods (r_base resource))) as [Hk|Hk].
    + apply list_elem_of_fmap in Hk as (m & -> & Hm').
      rewrite (Hwalk m Hm'). by rewrite fmap_is_Some.
    + rewrite Hframe; [done|]. intros m Hm' ->. apply Hk.
      by apply list_elem_of_fmap_2.
Qed.

(** X7: strict mode only refuses. Whenever the installation of a strict
    plugin completes, the installation of a non-strict plugin gives the
    same resource and the same registry. *)
Theorem strict_install_only_refuses resource reg resource' reg' :
  after_route true resource reg = Ok (resource', reg') →
  after_route false resource reg = Ok (resource', reg').
Proof.
  unfold after_route.
  destruct (r_permission_plugin_inited resource); [done|].
  destruct (r_base resource); [| |done]; cbv beta zeta;
    intros H; apply rbind_Ok in H as (st & Hstep & H);
    by rewrite (permission_methods_lenient_of_strict _ _ _ _ Hstep).
Qed.

(** X8: a strict plugin completes the first installation on a list or
    detail resource exactly when none of the walked methods is one that
    has a view method, is enabled, belongs to no event resource and has
    an empty permission list. In particular event resources and disabled
    methods never make it fail. *)
Theorem strict_install_completes_iff resource reg model :
  r_permission_plugin_inited resource = false →
  r_base resource ≠ BaseOther →
  dl_model (r_data_layer resource) = Some model →
  (∃ resource' reg', after_route true resource reg = Ok (resource', reg'))
  ↔ Forall (λ m, offending resource m = false) (route_methods (r_base resource)).
Proof.
  intros Hinit Hbase Hmodel. split.
  - intros (resource' & reg' & Hrun).
    apply after_route_Ok_inv in Hrun as (resource1 & model' & _ & Hrun & _); [|done..].
    apply (permission_methods_spec _ _ _ _ _ _ model) in Hrun
      as (_ & _ & _ & _ & _ & _ & _ & _ & _ & Hstrict);
      [by apply Hstrict|done|done|apply route_methods_NoDup].
  - intros Hall.
    destruct (permission_methods_Ok true (route_methods (r_base resource)) resource
                reg model Hbase Hmodel (route_methods_NoDup _) Hall)
      as [[resource1 reg1] Hrun].
    exists (set_inited resource1), reg1. unfold after_route. rewrite Hinit.
    by destruct (r_base resource); [..|done]; simpl in *; rewrite Hrun.
Qed.

End RouteProperties.

Section RouteWitnesses.

Import Route RouteSpec.

Lemma install_wraps_or_disables_witness :
  ∃ resource' reg',
    after_route true Sample2.person_detail [] = Ok (resource', reg')
    ∧ r_attrs resource' !! "patch" = Some HBadRequest.
Proof.
  destruct (after_route true Sample2.person_detail []) as [[resource' reg']|e] eqn:Hrun.
  - exists resource', reg'. split; [reflexivity|].
    apply (install_wraps_or_disables true Sample2.person_detail [] resource' reg'
             PATCH (HView "patch")).
    + reflexivity.
    + vm_compute. right. by left.
    + reflexivity.
    + exact Hrun.
  - exfalso. vm_compute in Hrun. discriminate Hrun.
Defined.

Lemma install_registers_in_order_witness :
  ∃ resource' reg',
    after_route true Sample2.person_detail [("get_list", "Person", ["PersonList"])]
    = Ok (resource', reg')
    ∧ reg' = [("get_list", "Person", ["PersonList"]); ("get", "Person", ["PersonGet"]);
              ("patch", "Person", []); ("delete", "Person", [])].
Proof.
  destruct (after_route true Sample2.person_detail
              [("get_list", "Person", ["PersonList"])])
    as [[resource' reg']|e] eqn:Hrun.
  - exists resource', reg'. split; [reflexivity|].
    apply (install_registers_in_order true Sample2.person_detail
             [("get_list", "Person", ["PersonList"])] resource' reg' Sample.person).
    + reflexivity.
    + reflexivity.
    + exact Hrun.
  - exfalso. vm_compute in Hrun. discriminate Hrun.
Defined.

Lemma install_touches_view_methods_only_witness :
  ∃ resource' reg',
    after_route false Sample.person_list [] = Ok (resource', reg')
    ∧ r_data_layer resource' = r_data_layer Sample.person_list
    ∧ r_attrs resource' !! "delete" = None.
Proof.
  destruct (after_route false Sample.person_list []) as [[resource' reg']|e] eqn:Hrun.
  - exists resource', reg'. split; [reflexivity|].
    destruct (install_touches_view_methods_only false Sample.person_list []
                resource' reg' Hrun) as (_ & _ & _ & Hdl & _ & Hframe & _).
    split; [exact Hdl|]. rewrite Hframe; [reflexivity|]. vm_compute.
    intros Hin. repeat (apply elem_of_cons in Hin as [Heq|Hin]; [discriminate Heq|]).
    by apply elem_of_nil in Hin.
  - exfalso. vm_compute in Hrun. discriminate Hrun.
Defined.

Lemma strict_install_only_refuses_witness :
  ∃ resource' reg',
    after_route true Sample2.person_detail [] = Ok (resource', reg')
    ∧ after_route false Sample2.person_detail [] = Ok (resource', reg').
Proof.
  destruct (after_route true Sample2.person_detail []) as [[resource' reg']|e] eqn:Hrun.
  - exists resource', reg'. split; [reflexivity|].
    exact (strict_install_only_refuses Sample2.person_detail [] resource' reg' Hrun).
  - exfalso. vm_compute in Hrun. discriminate Hrun.
Defined.

Lemma strict_install_completes_iff_witness :
  (∃ resource' reg', after_route true Sample2.person_detail [] = Ok (resource', reg'))
  ↔ Forall (λ m, offending Sample2.person_detail m = false)
           (route_methods (r_base Sample2.person_detail)).
Proof.
  apply (strict_install_completes_iff Sample2.person_detail [] Sample.person).
  - reflexivity.
  - vm_compute. discriminate.
  - reflexivity.
Defined.

End RouteWitnesses.

(** ** Foreign keys, mappers and the query string *)

Section RewriterMore.

Import Rewriter.

Variable models : string → Model.

Lemma get_model_loop_app mapper l1 l2 :
  _get_model_loop models mapper (l1 ++ l2)
  = (mapper' <~ _get_model_loop models mapper l1;;
     _get_model_loop models mapper' l2).
Proof.
  revert mapper. induction l1 as [|name l1 IH]; intros mapper; simpl; [done|].
  destruct (assoc name (m_dict mapper)) as [attr|]; [|done].
  destruct (mapper_class_ models attr) as [mapper'|]; simpl; [|done]. apply IH.
Qed.

Lemma last_split_app (sep : ascii) a b d :
  List.last (Py.split sep a ++ Py.split sep b) d = List.last (Py.split sep b) d.
Proof.
  pose proof (split_nonempty sep b) as Hb.
  induction (Py.split sep a) as [|w ws IH]; [done|].
  simpl. destruct (ws ++ Py.split sep b) eqn:Happ; [|done].
  apply app_eq_nil in Happ as [_ ?]. done.
Qed.

(** X9: [_get_model] follows a dotted foreign-key path one relationship
    after the other: the model of [a.b] is the model of [b] taken from the
    model of [a], and an exception of the first walk ends the whole walk.
    A name without a dot is looked up on the mapper: a missing attribute
    raises [ValueError] with the name and the mapper, an attribute that
    is no relationship raises [AttributeError]. *)
Theorem get_model_follows_path model a b :
  _get_model models model (a +:+ "." +:+ b)
  = (mapper <~ _get_model models model a;; _get_model models mapper b)
  ∧ (Py.contains SPLIT_REL a = false →
     _get_model models model a
     = match assoc a (m_dict model) with
       | None => Raise (ValueError (not_foreign_key a model))
       | Some (ARelationship target) => Ok (models target)
       | Some _ => Raise AttributeError
       end).
Proof.
  split.
  - unfold _get_model.
    change (a +:+ "." +:+ b) with (a +:+ String SPLIT_REL b).
    by rewrite split_app_sep, get_model_loop_app.
  - intros Ha. unfold _get_model. rewrite split_word by done. simpl.
    destruct (assoc a (m_dict model)) as [[| |]|]; simpl; done.
Qed.

(** X10: [_is_access_foreign_key] looks at the last segment of a dotted
    name only, and looks for it among the allowed columns of the model it
    is given: the segments before the last one do not matter. *)
Theorem is_access_foreign_key_last_segment a b model permission :
  _is_access_foreign_key (a +:+ "." +:+ b) model permission
  = _is_access_foreign_key b model permission.
Proof.
  unfold _is_access_foreign_key.
  change (a +:+ "." +:+ b) with (a +:+ String SPLIT_REL b).
  by rewrite split_app_sep, last_split_app.
Qed.

End RewriterMore.

Section RewriterMoreWitnesses.

Import Rewriter Sample.

Lemma get_model_follows_path_witness :
  _get_model models order ("customer" +:+ "." +:+ "address")
  = (mapper <~ _get_model models order "customer";;
     _get_model models mapper "address")
  ∧ (Py.contains SPLIT_REL "customer" = false →
     _get_model models order "customer"
     = match assoc "customer" (m_dict order) with
       | None => Raise (ValueError (not_foreign_key "customer" order))
       | Some (ARelationship target) => Ok (models target)
       | Some _ => Raise AttributeError
       end).
Proof. exact (get_model_follows_path models order "customer" "address"). Defined.

Example get_model_customer_address :
  _get_model models order "customer.address" = Ok address
  ∧ _get_model models order "customer.email" = Raise AttributeError
  ∧ _get_model models order "customer.phone"
    = Raise (ValueError "Not foreign ket phone in mapper Customer").
Proof. split_and!; reflexivity. Qed.

End RewriterMoreWitnesses.

Section QueryStringMore.

Import Rewriter.

Lemma update_qs_fields_unfold type_schema fields q name_foreign_key :
  _update_qs_fields type_schema fields q name_foreign_key
  = let new_fields := requested_accessible q type_schema fields in
    let new_qs := filter (λ kv, kv.2 ≠ "") (qs q) in
    let include := Py.split comma (default "" (new_qs !! "include")) in
    if bool_decide (new_fields = []) && bool_decide (include ≠ [])
       && bool_decide (name_foreign_key ∈ include)
    then
      {| qs := <["include" :=
                   Py.join comma (filter (λ inc, inc ≠ name_foreign_key) include)]> new_qs |}
    else
      {| qs := <[fields_key type_schema := Py.join comma new_fields]> new_qs |}.
Proof. reflexivity. Qed.

(** X11: [_update_qs_fields] rebuilds the query string without its empty
    parameters. Every parameter other than [include] and the
    [fields[<type>]] of the type keeps its value when the value is not
    empty and disappears when it is empty. *)
Theorem update_qs_fields_other_parameters type_schema fields q name_foreign_key k :
  k ≠ "include" → k ≠ fields_key type_schema →
  qs (_update_qs_fields type_schema fields q name_foreign_key) !! k
  = match qs q !! k with
    | Some v => if bool_decide (v = "") then None else Some v
    | None => None
    end.
Proof.
  intros Hinclude Hfields. rewrite update_qs_fields_unfold. cbv zeta.
  assert (filter (λ kv : string * string, kv.2 ≠ "") (qs q) !! k
          = match qs q !! k with
            | Some v => if bool_decide (v = "") then None else Some v
            | None => None
            end) as Hfilter.
  { rewrite map_lookup_filter. destruct (qs q !! k) as [v|]; simpl; [|done].
    case_guard as Hv; simpl in *.
    - by rewrite bool_decide_eq_false_2.
    - subst v. done. }
  destruct (_ && _ && _); simpl; by rewrite lookup_insert_ne.
Qed.

Lemma requested_accessible_fields q type_schema fields x :
  x ∈ requested_accessible q type_schema fields → x ∈ fields.
Proof. unfold requested_accessible. rewrite new_fields_spec. tauto. Qed.

(** X12: what [_update_qs_fields] writes is what [qs.fields] reads back.
    When the computed field list is not empty (and no field name contains
    a comma), the requested fields of the type are afterwards exactly that
    list. When the list is empty and the relationship is not among the
    includes, [fields[<type>]] is written as the empty string, which reads
    back as one empty field name. *)
Theorem update_qs_fields_read_back type_schema fields q name_foreign_key :
  Forall (λ w, Py.contains comma w = false) fields →
  name_foreign_key ≠ "" →
  let new_fields := requested_accessible q type_schema fields in
  let q' := _update_qs_fields type_schema fields q name_foreign_key in
  (new_fields ≠ [] → qs_fields_get q' type_schema = Some new_fields)
  ∧ (new_fields = [] → name_foreign_key ∉ qs_include q →
     qs_fields_get q' type_schema = Some [""]).
Proof.
  intros Hcomma Hname. cbv zeta. rewrite update_qs_fields_unfold. cbv zeta.
  split.
  - intros Hnew. rewrite (bool_decide_eq_false_2 (_ = [])) by done. simpl.
    unfold qs_fields_get. simpl. rewrite lookup_insert_eq. simpl.
    rewrite split_join; [done..|].
    rewrite Forall_forall in Hcomma |- *. intros w Hw.
    by eapply Hcomma, requested_accessible_fields.
  - intros Hnew Hnot.
    rewrite (bool_decide_eq_false_2 (name_foreign_key ∈ _)), andb_false_r
      by (by rewrite include_entries).
    unfold qs_fields_get. simpl. rewrite lookup_insert_eq, Hnew. done.
Qed.

End QueryStringMore.

Section QueryStringMoreWitnesses.

Import Rewriter Sample.

Lemma update_qs_fields_other_parameters_witness :
  qs (_update_qs_fields "customer" ["id"; "name"]
        (request [("include", "customer"); ("sort", "name"); ("filter", "")])
        "customer") !! "sort"
  = match qs (request [("include", "customer"); ("sort", "name"); ("filter", "")])
          !! "sort" with
    | Some v => if bool_decide (v = "") then None else Some v
    | None => None
    end.
Proof.
  apply (update_qs_fields_other_parameters "customer" ["id"; "name"]
           (request [("include", "customer"); ("sort", "name"); ("filter", "")])
           "customer" "sort").
  - vm_compute. discriminate.
  - vm_compute. discriminate.
Defined.

Example update_qs_fields_drops_empty_parameter :
  let q' := _update_qs_fields "customer" ["id"; "name"]
              (request [("include", "customer"); ("sort", "name"); ("filter", "")])
              "customer" in
  qs q' !! "filter" = None ∧ qs q' !! "sort" = Some "name"
  ∧ qs q' !! "fields[customer]" = Some "id,name".
Proof. split_and!; reflexivity. Qed.

Lemma update_qs_fields_read_back_witness :
  let q := request [("include", "customer.address"); ("fields[customer]", "email,name")] in
  let new_fields := requested_accessible q "customer" ["id"; "name"] in
  let q' := _update_qs_fields "customer" ["id"; "name"] q "customer" in
  (new_fields ≠ [] → qs_fields_get q' "customer" = Some new_fields)
  ∧ (new_fields = [] → "customer" ∉ qs_include q →
     qs_fields_get q' "customer" = Some [""]).
Proof.
  apply (update_qs_fields_read_back "customer" ["id"; "name"]
           (request [("include", "customer.address"); ("fields[customer]", "email,name")])
           "customer").
  - repeat constructor.
  - discriminate.
Defined.

End QueryStringMoreWitnesses.

(** ** The loader options of the includes *)

Section EagerloadMore.

Import Rewriter.

Variable models : string → Model.
Variable class_registry : string → option SchemaClass.
Variable fuel : nat.

(** X13: an include without a dot whose relationship the principal may
    follow completes only when the relationship holds a schema instance.
    It then adds one [joinedload] of the relationship attribute with one
    [load_only]. Its columns are the fields declared by the related schema
    that the descriptor of the related model allows, that are among the
    fields requested for the related type in the rewritten query string
    when there are any and that are column attributes of the joined
    class, together with everything these columns require. *)
Theorem plain_include_load_set permission self_json_api include query q query' q' :
  Py.contains SPLIT_REL include = false →
  _is_access_foreign_key include (api_model self_json_api) permission = true →
  eagerload_include models class_registry fuel permission self_json_api include
    (query, q) = Ok (query', q') →
  ∃ field attr mapper joined class_name related_schema_cls load,
    get_model_field (api_schema self_json_api) include = Ok field
    ∧ getattr (api_model self_json_api) field = Ok attr
    ∧ _get_model models (api_model self_json_api) field = Ok mapper
    ∧ mapper_class_ models (ba_attr attr) = Ok joined
    ∧ get_related_schema (api_schema self_json_api) include
      = Ok (SchemaInstance class_name)
    ∧ instance_class class_registry class_name = Ok related_schema_cls
    ∧ let accessible :=
        Py.set_of (sc_declared_fields related_schema_cls).*1
        ∩ columns (permission_for_get permission mapper) in
      q' = _update_qs_fields (sc_type_ related_schema_cls) (elements accessible) q include
      ∧ query' = query_options query
                   (OptJoinedLoad (Some {| jl_path := [attr]; jl_load_only := [load] |}))
      ∧ is_load_set_of joined
          (visible_column accessible
             (qs_fields_get q' (sc_type_ related_schema_cls))
             (scalar_column joined))
          load.
Proof.
  intros Hdot Haccess. unfold Rewriter.eagerload_include. cbn [fst snd].
  rewrite Hdot.
  destruct (get_model_field (api_schema self_json_api) include)
    as [field|] eqn:Hfield; [|done].
  cbn [except_Exception_as_InvalidInclude rbind]. rewrite Haccess. cbn [negb].
  destruct (getattr (api_model self_json_api) field) as [attr|] eqn:Hattr; [|done].
  cbn [rbind].
  unfold _get_access_fields_in_schema, _get_schema. rewrite Hfield. cbn [rbind].
  destruct (_get_model models (api_model self_json_api) field)
    as [mapper|] eqn:Hmapper; [|done].
  cbn [rbind].
  destruct (get_related_schema (api_schema self_json_api) include)
    as [[class_name|name]|] eqn:Hrelated; cbn [rbind meta_type_];
    [|by destruct (get_class class_registry name)|done].
  destruct (instance_class class_registry class_name)
    as [related_schema_cls|] eqn:Hclass; [|done].
  cbn [rbind fst snd].
  unfold restrict_columns, path_class_. cbn [joinedload jl_path lookup list_lookup].
  destruct (mapper_class_ models (ba_attr attr)) as [joined|] eqn:Hjoined; [|done].
  cbn [rbind]. cbv zeta.
  match goal with
  | |- context [extend_each ?f ?l] => destruct (extend_each f l) as [required|] eqn:Hrequired
  end; cbn [rbind]; [|done].
  intros [= <- <-].
  eexists field, attr, mapper, joined, class_name, related_schema_cls, _.
  do 6 (split; [done|]). cbv zeta. do 2 (split; [done|]).
  apply (is_load_set_spec _ _ _ (get_columns_for_query joined));
    [apply get_columns_for_query_spec|].
  unfold visible_columns, Py.set_of in *.
  rewrite list_to_set_elements_L in Hrequired |- *.
  destruct (qs_fields_get _ (sc_type_ related_schema_cls)) as [[|c cs]|];
    (eapply is_load_set_intro; [|exact Hrequired]);
    intros x; by rewrite elem_of_elements.
Qed.

(** X23: an include without a dot whose relationship holds the registered
    name of the related schema. Where the principal may follow the
    relationship and the field, the model attribute, the related model and
    the registered class are found, the rewriter raises [AttributeError]:
    it reads [Meta.type_] off the name. *)
Theorem plain_include_by_name_raises permission self_json_api include query q
    field attr mapper name related_schema_cls :
  Py.contains SPLIT_REL include = false →
  _is_access_foreign_key include (api_model self_json_api) permission = true →
  get_model_field (api_schema self_json_api) include = Ok field →
  getattr (api_model self_json_api) field = Ok attr →
  _get_model models (api_model self_json_api) field = Ok mapper →
  get_related_schema (api_schema self_json_api) include = Ok (RegisteredName name) →
  get_class class_registry name = Ok related_schema_cls →
  eagerload_include models class_registry fuel permission self_json_api include
    (query, q) = Raise AttributeError.
Proof.
  intros Hdot Haccess Hfield Hattr Hmapper Hrelated Hclass.
  unfold Rewriter.eagerload_include. cbn [fst snd].
  rewrite Hdot, Hfield. cbn [except_Exception_as_InvalidInclude rbind].
  rewrite Haccess, Hattr. cbn [negb rbind].
  unfold _get_access_fields_in_schema, _get_schema.
  rewrite Hfield. cbn [rbind]. rewrite Hmapper. cbn [rbind].
  rewrite Hrelated. cbn [rbind]. rewrite Hclass. by cbn [rbind fst snd meta_type_].
Qed.

Lemma eagerload_include_options permission self_json_api include query q query' q' :
  eagerload_include models class_registry fuel permission self_json_api include
    (query, q) = Ok (query', q') →
  q_joins query' = q_joins query
  ∧ q_filters query' = q_filters query
  ∧ ∃ added,
      q_options query' = q_options query ++ added
      ∧ Forall (λ o, ∃ joinload_object, o = OptJoinedLoad joinload_object) added
      ∧ length added ≤ 1
      ∧ (Py.contains SPLIT_REL include = true → length added = 1)
      ∧ (Py.contains SPLIT_REL include = false →
         Forall (λ o, ∃ joinload_object, o = OptJoinedLoad (Some joinload_object))
                added).
Proof.
  unfold Rewriter.eagerload_include. cbn [fst snd].
  destruct (Py.contains SPLIT_REL include).
  - intros H. inv_bind H. injection H as <- <-.
    split_and!; [done|done|]. eexists [_]. split_and!; [done| |done|done|done].
    repeat constructor. by eexists.
  - intros H. inv_bind H. destruct (negb _).
    + injection H as <- <-. split_and!; [done|done|]. exists [].
      split_and!; [by rewrite app_nil_r|done|simpl; lia|done|done].
    + inv_bind H. injection H as <- <-.
      split_and!; [done|done|]. eexists [_].
      split_and!; [done| |done|done|]; [|intros _]; repeat constructor; by eexists.
Qed.

(** X14: [_eagerload_includes] leaves the joins and filters of the query
    alone and appends to its options only what it hands to
    [query.options]: the [joinload_object] of an include, never a
    [load_only] of the primary entity. That object is a [joinedload] chain
    or, for a dotted include whose segments were all skipped, [None].
    There is at most one added option per include of the request and
    exactly one for each dotted include; when no include has a dot every
    added option is a [joinedload] chain. *)
Theorem eagerload_adds_include_options query q permission self_json_api query' q' :
  _eagerload_includes models class_registry fuel query q permission self_json_api
  = Ok (query', q') →
  q_joins query' = q_joins query
  ∧ q_filters query' = q_filters query
  ∧ ∃ added,
      q_options query' = q_options query ++ added
      ∧ Forall (λ o, ∃ joinload_object, o = OptJoinedLoad joinload_object) added
      ∧ length (filter (λ include, Py.contains SPLIT_REL include = true) (qs_include q))
        ≤ length added ≤ length (qs_include q)
      ∧ (Forall (λ include, Py.contains SPLIT_REL include = false) (qs_include q) →
         Forall (λ o, ∃ joinload_object, o = OptJoinedLoad (Some joinload_object))
                added).
Proof.
  unfold Rewriter._eagerload_includes.
  generalize (qs_include q) as includes. generalize q at 1 as q0.
  intros q0 includes. revert query q0.
  induction includes as [|include includes IH]; intros query q0.
  { intros [= <- <-]. split_and!; [done|done|]. exists [].
    split_and!; [by rewrite app_nil_r|done|simpl; lia|simpl; lia|done]. }
  cbn [Rewriter.eagerload_loop]. intros H.
  apply rbind_Ok in H as ([query1 q1] & Hstep & H).
  destruct (eagerload_include_options _ _ _ _ _ _ _ Hstep)
    as (Hj1 & Hf1 & added1 & Ho1 & Hadded1 & Hle1 & Hdot1 & Hplain1).
  destruct (IH _ _ H) as (Hj & Hf & added & Ho & Hadded & [Hlo Hhi] & Hplain).
  split_and!; [congruence|congruence|]. exists (added1 ++ added).
  split_and!.
  - by rewrite Ho, Ho1, <-(assoc_L (++)).
  - by apply Forall_app.
  - rewrite filter_cons, length_app. case_decide as Hdot; simpl; [|lia].
    rewrite (Hdot1 Hdot). lia.
  - rewrite length_app. simpl. lia.
  - intros [Hinclude Hincludes]%Forall_cons. apply Forall_app. auto.
Qed.

End EagerloadMore.

Section EagerloadMoreWitnesses.

Import Rewriter Sample Sample2.

(** The manager includes the customer of an order and asks for its [name]
    and [email]; only [name] is accessible. The relationship holds a
    schema instance. *)
Lemma plain_include_load_set_witness :
  let q := request [("include", "customer"); ("fields[customer]", "name,email")] in
  ∃ query' q' field attr mapper joined class_name related_schema_cls load,
    eagerload_include models class_registry 3 manager order_bound_api "customer"
      (empty_query, q) = Ok (query', q')
    ∧ get_model_field order_schema_bound "customer" = Ok field
    ∧ getattr order field = Ok attr
    ∧ _get_model models order field = Ok mapper
    ∧ mapper_class_ models (ba_attr attr) = Ok joined
    ∧ get_related_schema order_schema_bound "customer" = Ok (SchemaInstance class_name)
    ∧ instance_class class_registry class_name = Ok related_schema_cls
    ∧ let accessible :=
        Py.set_of (sc_declared_fields related_schema_cls).*1
        ∩ columns (permission_for_get manager mapper) in
      q' = _update_qs_fields (sc_type_ related_schema_cls) (elements accessible) q "customer"
      ∧ query' = query_options empty_query
                   (OptJoinedLoad (Some {| jl_path := [attr]; jl_load_only := [load] |}))
      ∧ is_load_set_of joined
          (visible_column accessible
             (qs_fields_get q' (sc_type_ related_schema_cls))
             (scalar_column joined))
          load.
Proof.
  intros q.
  destruct (eagerload_include models class_registry 3 manager order_bound_api "customer"
              (empty_query, q)) as [[query' q']|e] eqn:Hrun.
  - destruct (plain_include_load_set models class_registry 3 manager order_bound_api
                "customer" empty_query q query' q')
      as (field & attr & mapper & joined & class_name & related_schema_cls & load & H);
      [reflexivity|vm_compute; reflexivity|exact Hrun|].
    exists query', q', field, attr, mapper, joined, class_name, related_schema_cls, load.
    split; [reflexivity|exact H].
  - exfalso. vm_compute in Hrun. discriminate Hrun.
Defined.

Example plain_include_customer_name :
  ∃ query' q' jl,
    eagerload_include models class_registry 3 manager order_bound_api "customer"
      (empty_query, request [("include", "customer"); ("fields[customer]", "name,email")])
    = Ok (query', q')
    ∧ q_options query' = [OptJoinedLoad (Some jl)]
    ∧ ba_key <$> jl_path jl = ["customer"]
    ∧ elements <$> jl_load_only jl = [["name"]]
    ∧ qs q' !! "fields[customer]" = Some "name".
Proof. eexists _, _, _. split; [reflexivity|]. vm_compute. done. Qed.

(** The same include where the relationship is declared by the name of
    the related schema. *)
Lemma plain_include_by_name_raises_witness :
  eagerload_include models class_registry 3 manager order_api "customer"
    (empty_query, request [("include", "customer")])
  = Raise AttributeError.
Proof.
  apply (plain_include_by_name_raises models class_registry 3 manager order_api
           "customer" empty_query _ "customer"
           {| ba_model := "Order"; ba_key := "customer";
              ba_attr := ARelationship "Customer" |}
           customer "CustomerSchema" customer_schema).
  - reflexivity.
  - vm_compute. reflexivity.
  - reflexivity.
  - reflexivity.
  - reflexivity.
  - reflexivity.
  - reflexivity.
Defined.

(** One plain and one dotted include: the manager follows [customer] and
    no further. *)
Lemma eagerload_adds_include_options_witness :
  let q := request [("include", "customer,customer.address")] in
  ∃ query' q',
    _eagerload_includes models class_registry 3 empty_query q manager order_bound_api
    = Ok (query', q')
    ∧ q_joins query' = q_joins empty_query
    ∧ q_filters query' = q_filters empty_query
    ∧ ∃ added,
        q_options query' = q_options empty_query ++ added
        ∧ Forall (λ o, ∃ joinload_object, o = OptJoinedLoad joinload_object) added
        ∧ length (filter (λ include, Py.contains SPLIT_REL include = true) (qs_include q))
          ≤ length added ≤ length (qs_include q)
        ∧ (Forall (λ include, Py.contains SPLIT_REL include = false) (qs_include q) →
           Forall (λ o, ∃ joinload_object, o = OptJoinedLoad (Some joinload_object))
                  added).
Proof.
  intros q.
  destruct (_eagerload_includes models class_registry 3 empty_query q manager
              order_bound_api) as [[query' q']|e] eqn:Hrun.
  - exists query', q'. split; [reflexivity|].
    exact (eagerload_adds_include_options models class_registry 3
             empty_query q manager order_bound_api query' q' Hrun).
  - exfalso. vm_compute in Hrun. discriminate Hrun.
Defined.

(** A dotted include whose segments are all skipped hands [None] to
    [query.options]. *)
Example skipped_include_option :
  ∃ query' q',
    _eagerload_includes models class_registry 3 empty_query
      (request [("include", "customer.customer")]) clerk order_api = Ok (query', q')
    ∧ q_options query' = [OptJoinedLoad None].
Proof. eexists _, _. split; reflexivity. Qed.

End EagerloadMoreWitnesses.

(** ** The allowed names of a level *)

Section AllowedNames.

Import Pruner.

Lemma startswith_app_intro p rest : Py.startswith (p +:+ rest) p = true.
Proof.
  unfold Py.startswith. induction p as [|c p IH]; simpl; [by destruct rest|].
  by destruct (Ascii.ascii_dec c c).
Qed.

Lemma length_append p rest :
  String.length (p +:+ rest) = String.length p + String.length rest.
Proof.
  induction p as [|c p IH]; [done|].
  change (S (String.length (p +:+ rest)) = S (String.length p + String.length rest)).
  by rewrite IH.
Qed.

Lemma append_String_neq p (c : ascii) rest : p +:+ String c rest ≠ p.
Proof.
  intros Heq. apply (f_equal String.length) in Heq.
  rewrite length_append in Heq. simpl in Heq. lia.
Qed.

Lemma extend_prefix_nonempty prefix_name_column name :
  prefix_name_column ≠ "" →
  extend_prefix prefix_name_column name = prefix_name_column +:+ String dot name.
Proof. intros Hp. unfold extend_prefix. by rewrite bool_decide_eq_false_2. Qed.

(** The names one column contributes to the level of the prefix. *)
Lemma column_name_spec prefix_name_column i_column x :
  (under_prefix prefix_name_column i_column = true
   ∧ head (Py.slice_from
             (if bool_decide (prefix_name_column = "") then 0
              else length (Py.split dot prefix_name_column))
             (Py.split dot i_column)) = Some x)
  ↔ ∃ rest, i_column = extend_prefix prefix_name_column rest
            ∧ (prefix_name_column = "" → rest ≠ "")
            ∧ head (Py.split dot rest) = Some x.
Proof.
  unfold under_prefix, extend_prefix, Py.slice_from.
  case_bool_decide as Hprefix.
  - subst prefix_name_column. split.
    + intros [Hunder Hhead]. exists i_column. split_and!; [done| |done].
      intros _ ->. done.
    + intros (rest & -> & Hrest & Hhead). split; [|done].
      rewrite andb_true_iff, bool_decide_eq_true. split; [|by apply Hrest].
      by destruct rest.
  - change (prefix_name_column +:+ ".")
      with (prefix_name_column +:+ String dot "").
    split.
    + intros [[Hstart _]%andb_true_iff Hhead].
      apply startswith_app in Hstart as [rest ->]. exists rest.
      rewrite append_assoc_String in Hhead |- *.
      rewrite split_app_sep, drop_app_length in Hhead. done.
    + intros (rest & -> & _ & Hhead).
      change (prefix_name_column +:+ "." +:+ rest)
        with (prefix_name_column +:+ String dot rest).
      rewrite split_app_sep, drop_app_length. split; [|done].
      rewrite andb_true_iff, bool_decide_eq_true. split.
      * rewrite <-append_assoc_String. apply startswith_app_intro.
      * apply append_String_neq.
Qed.

Lemma permission_column_of_names prefix_name_column columns :
  ∃ permission_column,
    permission_column_of prefix_name_column columns = Ok permission_column
    ∧ NoDup permission_column
    ∧ ∀ x, x ∈ permission_column
           ↔ ∃ rest, extend_prefix prefix_name_column rest ∈ columns
                     ∧ (prefix_name_column = "" → rest ≠ "")
                     ∧ head (Py.split dot rest) = Some x.
Proof.
  destruct (permission_column_of_total prefix_name_column columns)
    as [permission_column Hrun].
  exists permission_column. split; [done|].
  unfold permission_column_of in Hrun.
  apply rbind_Ok in Hrun as (names & Hnames & [= <-]).
  split; [apply NoDup_elements|]. intros x.
  unfold Py.set_of. rewrite elem_of_elements, elem_of_list_to_set.
  rewrite (extend_each_elem _ _ _ x Hnames). split.
  - intros (i_column & ys & Hin & Hys & Hx).
    destruct (under_prefix prefix_name_column i_column) eqn:Hunder;
      [|injection Hys as <-; by apply elem_of_nil in Hx].
    destruct (Py.slice_from _ _) as [|i_name_0 more] eqn:Hslice; [done|].
    injection Hys as <-. apply list_elem_of_singleton in Hx as ->.
    destruct (proj1 (column_name_spec prefix_name_column i_column i_name_0))
      as (rest & -> & Hrest & Hhead); [by rewrite Hslice|].
    by exists rest.
  - intros (rest & Hin & Hrest & Hhead).
    destruct (proj2 (column_name_spec prefix_name_column
                       (extend_prefix prefix_name_column rest) x))
      as [Hunder Hslice]; [by exists rest|].
    eexists _, [x]. split_and!; [exact Hin| |by left].
    simpl. rewrite Hunder.
    destruct (Py.slice_from _ _) as [|i_name_0 more]; [done|].
    by injection Hslice as ->.
Qed.

(** X15: the allowed names at the level of a prefix. The loop over the
    columns never raises [IndexError]; its result holds every name once,
    and a name is in it exactly when some column is the prefix extended
    by a remainder whose first segment is the name (below the empty
    prefix the empty column does not count). *)
Theorem permission_column_of_spec prefix_name_column columns :
  ∃ permission_column,
    permission_column_of prefix_name_column columns = Ok permission_column
    ∧ NoDup permission_column
    ∧ ∀ x, x ∈ permission_column
           ↔ ∃ rest, extend_prefix prefix_name_column rest ∈ columns
                     ∧ (prefix_name_column = "" → rest ≠ "")
                     ∧ head (Py.split dot rest) = Some x.
Proof. apply permission_column_of_names. Qed.

End AllowedNames.


(** ** Pruning only removes *)

Section PrunerShrinks.

Import Pruner PrunerSpec.

Lemma shrinks_to_refl s : shrinks_to s s.
Proof. split_and!; [done|done|done|done|done|by left]. Qed.

Lemma shrinks_to_trans s1 s2 s3 :
  shrinks_to s1 s2 → shrinks_to s2 s3 → shrinks_to s1 s3.
Proof.
  intros (Hc1 & Hm1 & Hd1 & Hf1 & Hi1 & Hdump1) (Hc2 & Hm2 & Hd2 & Hf2 & Hi2 & Hdump2).
  split_and!.
  - congruence.
  - congruence.
  - congruence.
  - by etrans.
  - by etrans.
  - destruct Hdump2 as [[Hf Hd]|Hd]; [|by right].
    destruct Hdump1 as [[Hf' Hd']|Hd']; [left|right]; split_and?; congruence.
Qed.

Lemma store_shrinks_refl σ : store_shrinks σ σ.
Proof. intros a s Hs. exists s. split; [done|apply shrinks_to_refl]. Qed.

Lemma store_shrinks_trans σ1 σ2 σ3 :
  store_shrinks σ1 σ2 → store_shrinks σ2 σ3 → store_shrinks σ1 σ3.
Proof.
  intros H12 H23 a s1 Hs1.
  destruct (H12 _ _ Hs1) as (s2 & Hs2 & Hshr12).
  destruct (H23 _ _ Hs2) as (s3 & Hs3 & Hshr23).
  exists s3. split; [done|by eapply shrinks_to_trans].
Qed.

Lemma bind_field_names name n l : (bind_field name n l).*1 = l.*1.
Proof.
  induction l as [|[k f] l IH]; [done|]. cbn [bind_field].
  destruct (decide (name = k)); [done|]. rewrite !fmap_cons. by f_equal.
Qed.

Lemma store_shrinks_fresh (σ : Store) n s : σ !! n = None → store_shrinks σ (<[n := s]> σ).
Proof.
  intros Hn a s0 Hs0. exists s0. split; [|apply shrinks_to_refl].
  rewrite lookup_insert_ne; [done|]. intros ->. congruence.
Qed.

Lemma store_shrinks_bind (σ : Store) name n a :
  store_shrinks σ (alter (set_field_instance name n) a σ).
Proof.
  intros b s Hs. destruct (decide (a = b)) as [->|Hne].
  - exists (set_field_instance name n s). rewrite lookup_alter_eq, Hs. split; [done|].
    split_and!; [done|done|apply bind_field_names|done|done|by left].
  - exists s. rewrite lookup_alter_ne by done. split; [done|apply shrinks_to_refl].
Qed.

Lemma filter_idemp {A} (P : A → Prop) `{!∀ x, Decision (P x)} (l : list A) :
  filter P (filter P l) = filter P l.
Proof.
  induction l as [|x l IH]; [done|]. rewrite filter_cons.
  case_decide as Hx; [|done]. rewrite filter_cons, decide_True by done. by rewrite IH.
Qed.

Lemma store_shrinks_restrict (σ : Store) a s fields only include_data :
  σ !! a = Some s →
  fields `sublist_of` s_fields s →
  include_data `sublist_of` s_include_data s →
  store_shrinks σ (<[a := restrict s fields fields only include_data]> σ).
Proof.
  intros Hs Hf Hi b s0 Hs0. destruct (decide (a = b)) as [->|Hne].
  - rewrite lookup_insert_eq. eexists. split; [done|].
    assert (s0 = s) as -> by congruence.
    split_and!; [done|done|done|done|done|by right].
  - exists s0. rewrite lookup_insert_ne by done. split; [done|apply shrinks_to_refl].
Qed.

Variable models : string → Model.
Variable class_registry : string → option SchemaClass.

Lemma nested_loop_shrinks recurse a permission_column prefix_name_column names σ σ' :
  (∀ σ i_schema prefix σ', recurse σ i_schema prefix = Ok σ' → store_shrinks σ σ') →
  nested_loop class_registry recurse a permission_column prefix_name_column names σ
  = Ok σ' →
  store_shrinks σ σ'.
Proof.
  intros Hrec. revert σ. induction names as [|i_field_name names IH]; intros σ;
    cbn [nested_loop].
  { intros [= <-]. apply store_shrinks_refl. }
  intros Hrun. apply rbind_Ok in Hrun as (σ1 & Hstep & Hrun).
  eapply store_shrinks_trans; [|by eapply IH]. clear Hrun IH.
  destruct (σ !! a ≫= _) as [i_field|];
    [|injection Hstep as <-; apply store_shrinks_refl].
  destruct (fd_kind (f_decl i_field)) as [|nested|];
    try (injection Hstep as <-; apply store_shrinks_refl).
  destruct (bool_decide (i_field_name ∈ permission_column));
    [|injection Hstep as <-; apply store_shrinks_refl].
  destruct (class_registry nested) as [cls_schema|]; [|done].
  cbv zeta in Hstep. apply Hrec in Hstep.
  eapply store_shrinks_trans; [|exact Hstep].
  eapply store_shrinks_trans; [|apply store_shrinks_bind].
  apply store_shrinks_fresh, not_elem_of_dom, is_fresh.
Qed.

Lemma include_loop_shrinks recurse a model prefix_name_column includes σ σ' :
  (∀ σ related i_model prefix σ',
     recurse σ related i_model prefix = Ok σ' → store_shrinks σ σ') →
  include_loop models recurse a model prefix_name_column includes σ = Ok σ' →
  store_shrinks σ σ'.
Proof.
  intros Hrec. revert σ. induction includes as [|i_include includes IH]; intros σ;
    cbn [include_loop].
  { intros [= <-]. apply store_shrinks_refl. }
  intros Hrun. apply rbind_Ok in Hrun as (σ1 & Hstep & Hrun).
  eapply store_shrinks_trans; [|by eapply IH]. clear Hrun IH.
  destruct (σ !! a) as [s|]; [|done].
  destruct (bool_decide (i_include ∈ s_fields s));
    [|injection Hstep as <-; apply store_shrinks_refl].
  apply rbind_Ok in Hstep as (field & _ & Hstep).
  apply rbind_Ok in Hstep as (i_model & _ & Hstep).
  apply rbind_Ok in Hstep as (related & _ & Hstep).
  by eapply Hrec.
Qed.

Lemma link_schema_shrinks fuel σ schema model prefix_name_column columns is_nested σ' :
  _permission_for_link_schema models class_registry fuel σ schema model
    prefix_name_column columns is_nested = Ok σ' →
  store_shrinks σ σ'.
Proof.
  revert σ schema model prefix_name_column is_nested σ'.
  induction fuel as [|fuel IH]; intros σ schema model prefix_name_column is_nested σ';
    cbn [_permission_for_link_schema]; [done|].
  destruct columns as [[|c cs]|]; try (intros [= <-]; apply store_shrinks_refl).
  intros Hrun. apply rbind_Ok in Hrun as (permission_column & _ & Hrun).
  destruct (bool_decide (permission_column = []));
    [injection Hrun as <-; apply store_shrinks_refl|].
  destruct schema as [a|]; [|done].
  destruct (σ !! a) as [s|] eqn:Hs; [|done].
  cbv zeta in Hrun. rewrite filter_idemp in Hrun.
  apply rbind_Ok in Hrun as (σ1 & Hnested & Hrun).
  match type of Hnested with
  | nested_loop _ _ _ _ _ _ (<[_ := restrict _ ?fields _ ?only ?include_data]> _) = _ =>
      pose proof (store_shrinks_restrict σ a s fields only include_data Hs
                    (sublist_filter _ _) (sublist_filter _ _)) as Hrestrict
  end.
  eapply store_shrinks_trans; [exact Hrestrict|].
  eapply store_shrinks_trans.
  { eapply nested_loop_shrinks; [|exact Hnested].
    intros σ2 i_schema prefix σ3. apply IH. }
  destruct is_nested; [injection Hrun as <-; apply store_shrinks_refl|].
  eapply include_loop_shrinks; [|exact Hrun].
  intros σ2 related i_model prefix σ3. apply IH.
Qed.

(** X16: the pruner only removes. After a successful run every schema
    instance that existed before is still there with its class, its
    [many] flag and its declared field names; its [fields] and
    [include_data] have lost entries at most, the remaining ones keep
    their order; and [dump_fields] is either untouched together with
    [fields] or equal to the pruned [fields]. This holds for the visited
    schema as for every schema reached from it. *)
Theorem pruner_only_removes fuel σ schema model permission_user σ' a s :
  _permission_for_schema models class_registry fuel σ schema model permission_user
  = Ok σ' →
  σ !! a = Some s →
  ∃ s', σ' !! a = Some s'
        ∧ s_class s' = s_class s
        ∧ s_many s' = s_many s
        ∧ (s_declared_fields s').*1 = (s_declared_fields s).*1
        ∧ s_fields s' `sublist_of` s_fields s
        ∧ s_include_data s' `sublist_of` s_include_data s
        ∧ ((s_fields s' = s_fields s ∧ s_dump_fields s' = s_dump_fields s)
           ∨ s_dump_fields s' = s_fields s').
Proof.
  unfold _permission_for_schema. destruct permission_user as [permission_user|]; [|done].
  intros Hrun%link_schema_shrinks Hs. exact (Hrun a s Hs).
Qed.

(** X17: the allow-list of a visited schema. When the allowed names of the
    level are not empty, the fields the schema keeps are allowed, were
    declared, were among its fields, and are in its own [only] when that
    was not empty; the includes it keeps are allowed and declared; and
    [dump_fields] is rebuilt from the remaining [fields], whatever it was
    before. *)
Theorem pruned_schema_allowlist fuel σ a model prefix_name_column columns is_nested
    σ' permission_column s :
  _permission_for_link_schema models class_registry fuel σ (RefInstance a) model
    prefix_name_column (Some columns) is_nested = Ok σ' →
  permission_column_of prefix_name_column columns = Ok permission_column →
  permission_column ≠ [] →
  σ !! a = Some s →
  ∃ s', σ' !! a = Some s'
        ∧ (∀ x, x ∈ s_fields s' →
                x ∈ permission_column ∧ x ∈ (s_declared_fields s).*1 ∧ x ∈ s_fields s
                ∧ ∀ only, s_only s = Some only → only ≠ ∅ → x ∈ only)
        ∧ (∀ x, x ∈ s_include_data s' →
                x ∈ permission_column ∧ x ∈ (s_declared_fields s).*1
                ∧ x ∈ s_include_data s)
        ∧ s_dump_fields s' = s_fields s'.
Proof.
  destruct fuel as [|fuel]; [done|]. cbn [_permission_for_link_schema].
  intros Hrun Hcolumn Hne Hs.
  destruct columns as [|c cs]; [by injection Hcolumn as <-|].
  rewrite Hcolumn in Hrun. cbn [rbind] in Hrun.
  rewrite bool_decide_eq_false_2, Hs in Hrun by done.
  cbv zeta in Hrun. rewrite filter_idemp in Hrun.
  set (name_fields := filter (λ i_name_field, i_name_field ∈ permission_column)
                             (s_declared_fields s).*1) in *.
  set (only := _ ∩ Py.set_of name_fields) in *.
  set (fields := filter (λ name, name ∈ only) (s_fields s)) in *.
  set (include_data := filter (λ i_include, i_include ∈ name_fields) (s_include_data s)) in *.
  assert (store_shrinks (<[a := restrict s fields fields only include_data]> σ) σ')
    as Hshrinks.
  { apply rbind_Ok in Hrun as (σ1 & Hnested & Hrun).
    eapply store_shrinks_trans.
    { eapply nested_loop_shrinks; [|exact Hnested].
      intros σ2 i_schema prefix σ3. apply link_schema_shrinks. }
    destruct is_nested; [injection Hrun as <-; apply store_shrinks_refl|].
    eapply include_loop_shrinks; [|exact Hrun].
    intros σ2 related i_model prefix σ3. apply link_schema_shrinks. }
  destruct (Hshrinks a _ (lookup_insert_eq _ _ _))
    as (s' & Hs' & _ & _ & _ & Hfields & Hincludes & Hdump).
  cbn [restrict s_fields s_include_data s_dump_fields] in *.
  exists s'. split_and!; [done| | |].
  - intros x Hx. eapply elem_of_sublist in Hx; [|exact Hfields].
    apply list_elem_of_filter in Hx as [Honly Hx].
    apply elem_of_intersection in Honly as [Honly Hname].
    apply elem_of_list_to_set, list_elem_of_filter in Hname as [Hallowed Hdeclared].
    split_and!; [done..|]. intros only0 Hsome Hnonempty.
    rewrite Hsome, bool_decide_eq_false_2 in Honly by done. done.
  - intros x Hx. eapply elem_of_sublist in Hx; [|exact Hincludes].
    apply list_elem_of_filter in Hx as [Hname Hx].
    apply list_elem_of_filter in Hname as [Hallowed Hdeclared]. done.
  - destruct Hdump as [[Hf Hd]|Hd]; congruence.
Qed.

End PrunerShrinks.

Section PrunerShrinksExamples.

Import Pruner PrunerSpec Sample Sample2.

(** The customer schema, reached through the include of the order schema,
    loses fields and nothing else. *)
Lemma pruner_only_removes_witness :
  let s := instance_of customer_schema [] [] in
  ∃ σ' s',
    _permission_for_schema models class_registry 5 schemas 0 order (Some auditor) = Ok σ'
    ∧ σ' !! 2 = Some s'
    ∧ s_class s' = s_class s
    ∧ s_many s' = s_many s
    ∧ (s_declared_fields s').*1 = (s_declared_fields s).*1
    ∧ s_fields s' `sublist_of` s_fields s
    ∧ s_include_data s' `sublist_of` s_include_data s
    ∧ ((s_fields s' = s_fields s ∧ s_dump_fields s' = s_dump_fields s)
       ∨ s_dump_fields s' = s_fields s').
Proof.
  intros s.
  destruct (_permission_for_schema models class_registry 5 schemas 0 order (Some auditor))
    as [σ'|e] eqn:Hrun.
  - destruct (pruner_only_removes models class_registry 5 schemas 0 order (Some auditor)
                σ' 2 s Hrun) as (s' & H); [reflexivity|].
    exists σ', s'. split; [reflexivity|exact H].
  - exfalso. vm_compute in Hrun. discriminate Hrun.
Defined.

Example pruner_removes_customer_fields :
  ∃ σ',
    _permission_for_schema models class_registry 5 schemas 0 order (Some auditor) = Ok σ'
    ∧ s_fields <$> σ' !! 0 = Some ["id"; "shipping"; "customer"]
    ∧ s_fields <$> σ' !! 2 = Some ["id"]
    ∧ s_dump_fields <$> σ' !! 2 = Some ["id"].
Proof. eexists. split_and!; [reflexivity|..]; vm_compute; reflexivity. Qed.

Lemma pruned_schema_allowlist_witness :
  let s := instance_of order_schema [("customer", 2); ("shipping", 3)] ["customer"] in
  ∃ σ' permission_column s',
    _permission_for_link_schema models class_registry 5 schemas (RefInstance 0)
      (Some order) "" (Some paths_A) false = Ok σ'
    ∧ permission_column_of "" paths_A = Ok permission_column
    ∧ σ' !! 0 = Some s'
    ∧ (∀ x, x ∈ s_fields s' →
            x ∈ permission_column ∧ x ∈ (s_declared_fields s).*1 ∧ x ∈ s_fields s
            ∧ ∀ only, s_only s = Some only → only ≠ ∅ → x ∈ only)
    ∧ (∀ x, x ∈ s_include_data s' →
            x ∈ permission_column ∧ x ∈ (s_declared_fields s).*1
            ∧ x ∈ s_include_data s)
    ∧ s_dump_fields s' = s_fields s'.
Proof.
  intros s.
  destruct (_permission_for_link_schema models class_registry 5 schemas (RefInstance 0)
              (Some order) "" (Some paths_A) false) as [σ'|e] eqn:Hrun;
    [|exfalso; vm_compute in Hrun; discriminate Hrun].
  destruct (permission_column_of "" paths_A) as [permission_column|e] eqn:Hcolumn;
    [|exfalso; vm_compute in Hcolumn; discriminate Hcolumn].
  destruct (pruned_schema_allowlist models class_registry 5 schemas 0 (Some order) ""
              paths_A false σ' permission_column s Hrun Hcolumn)
    as (s' & H).
  - intros ->. vm_compute in Hcolumn. discriminate Hcolumn.
  - reflexivity.
  - exists σ', permission_column, s'. split_and!; [reflexivity|reflexivity|..]; apply H.
Defined.

End PrunerShrinksExamples.

(** ** The depth of the recursion *)

Section PrunerDepth.

Import Pruner.

Variable models : string → Model.
Variable class_registry : string → option SchemaClass.

Lemma head_split_empty (c : ascii) s :
  head (Py.split dot (String c s)) = Some "" → Py.startswith (String c s) "." = true.
Proof.
  unfold Py.startswith. cbn [Py.split].
  destruct (decide (c = dot)) as [->|Hc]; [intros _; by destruct s|].
  by destruct (Py.split dot s).
Qed.

(** A name allowed at the level of the prefix extends the prefix by at
    least one character. *)
Lemma child_prefix_longer columns prefix_name_column permission_column name :
  (prefix_name_column = "" →
   Forall (λ i_column, Py.startswith i_column "." = false) columns) →
  permission_column_of prefix_name_column columns = Ok permission_column →
  name ∈ permission_column →
  extend_prefix prefix_name_column name ≠ ""
  ∧ String.length prefix_name_column + 1
    ≤ String.length (extend_prefix prefix_name_column name).
Proof.
  intros Hdot Hcolumn Hname.
  destruct (permission_column_of_names prefix_name_column columns)
    as (permission_column' & Hcolumn' & _ & Hspec).
  assert (permission_column' = permission_column) as -> by congruence.
  apply Hspec in Hname as (rest & Hin & Hrest & Hhead).
  unfold extend_prefix in *. case_bool_decide as Hprefix.
  - subst prefix_name_column. specialize (Hdot eq_refl). specialize (Hrest eq_refl).
    rewrite Forall_forall in Hdot. specialize (Hdot _ Hin).
    destruct name as [|c name]; [|split; [done|simpl; lia]].
    destruct rest as [|c rest]; [done|].
    apply head_split_empty in Hhead. congruence.
  - change (prefix_name_column +:+ "." +:+ name)
      with (prefix_name_column +:+ String dot name).
    rewrite length_append. simpl. split; [|lia].
    destruct prefix_name_column; done.
Qed.

(** Where a name is allowed under the prefix, a column is longer than the
    prefix. *)
Lemma allowed_prefix_shorter columns prefix_name_column permission_column L :
  Forall (λ i_column, String.length i_column ≤ L) columns →
  permission_column_of prefix_name_column columns = Ok permission_column →
  permission_column ≠ [] →
  String.length prefix_name_column + 1 ≤ L.
Proof.
  intros Hlen Hcolumn Hne.
  destruct (permission_column_of_names prefix_name_column columns)
    as (permission_column' & Hcolumn' & _ & Hspec).
  assert (permission_column' = permission_column) as -> by congruence.
  destruct permission_column as [|name ?]; [done|].
  destruct (proj1 (Hspec name)) as (rest & Hin & Hrest & _); [by left|].
  rewrite Forall_forall in Hlen. specialize (Hlen _ Hin).
  unfold extend_prefix in *. case_bool_decide as Hprefix.
  - subst prefix_name_column. specialize (Hrest eq_refl).
    destruct rest; [done|]. simpl in *. lia.
  - change (prefix_name_column +:+ "." +:+ rest)
      with (prefix_name_column +:+ String dot rest) in Hlen.
    rewrite length_append in Hlen. simpl in Hlen. lia.
Qed.

Lemma nested_loop_depth recurse1 recurse2 a permission_column prefix_name_column
    names σ :
  (∀ σ i_schema name,
     name ∈ permission_column →
     recurse1 σ i_schema (extend_prefix prefix_name_column name)
     = recurse2 σ i_schema (extend_prefix prefix_name_column name)
     ∧ recurse1 σ i_schema (extend_prefix prefix_name_column name)
       ≠ Raise RecursionError) →
  nested_loop class_registry recurse1 a permission_column prefix_name_column names σ
  = nested_loop class_registry recurse2 a permission_column prefix_name_column names σ
  ∧ nested_loop class_registry recurse1 a permission_column prefix_name_column names σ
    ≠ Raise RecursionError.
Proof.
  intros Hrec. revert σ. induction names as [|i_field_name names IH]; intros σ;
    cbn [nested_loop]; [done|].
  destruct (σ !! a ≫= _) as [i_field|]; [|apply IH].
  destruct (fd_kind (f_decl i_field)) as [|nested|]; [apply IH| |apply IH].
  case_bool_decide as Hallowed; [|apply IH].
  destruct (class_registry nested) as [cls_schema|]; [|done].
  cbv zeta.
  match goal with
  | |- context [recurse1 ?σ0 ?i_schema _] =>
      destruct (Hrec σ0 i_schema i_field_name Hallowed) as [<- Hne];
      destruct (recurse1 σ0 i_schema (extend_prefix prefix_name_column i_field_name))
        as [σ1|e]
  end.
  - apply IH.
  - split; [done|]. cbn [rbind]. congruence.
Qed.

Lemma include_loop_depth recurse1 recurse2 a model prefix_name_column includes σ :
  (∀ σ related i_model name,
     name ∈ includes →
     recurse1 σ related i_model (extend_prefix prefix_name_column name)
     = recurse2 σ related i_model (extend_prefix prefix_name_column name)
     ∧ recurse1 σ related i_model (extend_prefix prefix_name_column name)
       ≠ Raise RecursionError) →
  include_loop models recurse1 a model prefix_name_column includes σ
  = include_loop models recurse2 a model prefix_name_column includes σ
  ∧ include_loop models recurse1 a model prefix_name_column includes σ
    ≠ Raise RecursionError.
Proof.
  revert σ. induction includes as [|i_include includes IH]; intros σ Hrec;
    cbn [include_loop]; [done|].
  assert (∀ σ, include_loop models recurse1 a model prefix_name_column includes σ
               = include_loop models recurse2 a model prefix_name_column includes σ
               ∧ include_loop models recurse1 a model prefix_name_column includes σ
                 ≠ Raise RecursionError) as IH'.
  { intros σ0. apply IH. intros σ1 related i_model name Hname.
    apply Hrec. by right. }
  clear IH.
  destruct (σ !! a) as [s|]; [|done].
  case_bool_decide as Hfield; [|apply IH'].
  unfold get_model_field.
  destruct (assoc i_include (s_declared_fields s)) as [f|] eqn:Hassoc; [|done].
  cbn [rbind].
  destruct model as [model|]; [|done].
  destruct (Rewriter._get_model models model _) as [i_model|e] eqn:Hmodel.
  2:{ cbn [rbind]. split; [done|]. intros [= ->].
      apply get_model_loop_Raise in Hmodel as [?|[? ?]]; done. }
  cbn [rbind]. unfold relationship_schema. rewrite Hassoc.
  destruct (fd_kind (f_decl f)); [done|done|]. cbn [rbind].
  destruct (Hrec σ (field_ref f) (Some i_model) i_include) as [<- Hne]; [by left|].
  destruct (recurse1 σ (field_ref f) (Some i_model)
              (extend_prefix prefix_name_column i_include)) as [σ1|e].
  - apply IH'.
  - split; [done|]. cbn [rbind]. congruence.
Qed.

Lemma link_schema_depth columns L :
  Forall (λ i_column, String.length i_column ≤ L) columns →
  ∀ fuel1 fuel2 σ schema model prefix_name_column is_nested,
    (prefix_name_column = "" →
     Forall (λ i_column, Py.startswith i_column "." = false) columns) →
    1 ≤ fuel1 → 1 ≤ fuel2 →
    L + 1 ≤ fuel1 + String.length prefix_name_column →
    L + 1 ≤ fuel2 + String.length prefix_name_column →
    _permission_for_link_schema models class_registry fuel1 σ schema model
      prefix_name_column (Some columns) is_nested
    = _permission_for_link_schema models class_registry fuel2 σ schema model
        prefix_name_column (Some columns) is_nested
    ∧ _permission_for_link_schema models class_registry fuel1 σ schema model
        prefix_name_column (Some columns) is_nested
      ≠ Raise RecursionError.
Proof.
  intros Hlen fuel1.
  induction fuel1 as [|fuel1 IH];
    intros fuel2 σ schema model prefix_name_column is_nested Hdot H1 H2 Hf1 Hf2; [lia|].
  destruct fuel2 as [|fuel2]; [lia|]. cbn [_permission_for_link_schema].
  destruct columns as [|c cs]; [done|]. set (columns := c :: cs) in *.
  destruct (permission_column_of prefix_name_column columns)
    as [permission_column|e] eqn:Hcolumn;
    [|destruct (permission_column_of_total prefix_name_column columns); congruence].
  cbn [rbind]. case_bool_decide as Hempty; [done|].
  destruct schema as [a|]; [|done].
  destruct (σ !! a) as [s|]; [|done]. cbv zeta.
  pose proof (allowed_prefix_shorter _ _ _ _ Hlen Hcolumn Hempty) as Hshort.
  assert (∀ σ0 i_schema i_model nested name,
            name ∈ permission_column →
            _permission_for_link_schema models class_registry fuel1 σ0 i_schema i_model
              (extend_prefix prefix_name_column name) (Some columns) nested
            = _permission_for_link_schema models class_registry fuel2 σ0 i_schema i_model
                (extend_prefix prefix_name_column name) (Some columns) nested
            ∧ _permission_for_link_schema models class_registry fuel1 σ0 i_schema i_model
                (extend_prefix prefix_name_column name) (Some columns) nested
              ≠ Raise RecursionError) as Hrec.
  { intros σ0 i_schema i_model nested name Hname.
    destruct (child_prefix_longer _ _ _ _ Hdot Hcolumn Hname) as [Hne Hlonger].
    apply IH; [done|lia..]. }
  match goal with
  | |- context [nested_loop _ _ a permission_column prefix_name_column ?names ?σ0] =>
      destruct (nested_loop_depth
                  (λ σ i_schema prefix,
                     _permission_for_link_schema models class_registry fuel1 σ i_schema
                       None prefix (Some columns) true)
                  (λ σ i_schema prefix,
                     _permission_for_link_schema models class_registry fuel2 σ i_schema
                       None prefix (Some columns) true)
                  a permission_column prefix_name_column names σ0) as [Heq Hne]
  end.
  { intros σ0 i_schema name Hname. by apply Hrec. }
  rewrite <-Heq.
  destruct (nested_loop _ _ a permission_column prefix_name_column _ _) as [σ1|e];
    [|split; [done|cbn [rbind]; congruence]].
  cbn [rbind]. destruct is_nested; [done|].
  apply (include_loop_depth
           (λ σ related i_model prefix,
              _permission_for_link_schema models class_registry fuel1 σ related i_model
                prefix (Some columns) false)
           (λ σ related i_model prefix,
              _permission_for_link_schema models class_registry fuel2 σ related i_model
                prefix (Some columns) false)).
  intros σ0 related i_model name Hname. apply Hrec.
  apply list_elem_of_filter in Hname as [Hname _].
  by apply list_elem_of_filter in Hname as [Hname _].
Qed.

(** X18: the pruner descends no deeper than the allowed paths are long.
    When no allowed path is longer than [L] characters or starts with a
    dot, more than [L] levels of recursion are never entered: every depth
    bound above [L] gives the same result, and the result is no
    [RecursionError], also where the relationships of the schemas form a
    cycle. *)
Theorem pruner_depth_bounded fuel1 fuel2 σ schema model columns is_nested L :
  Forall (λ i_column, String.length i_column ≤ L) columns →
  Forall (λ i_column, Py.startswith i_column "." = false) columns →
  L < fuel1 → L < fuel2 →
  _permission_for_link_schema models class_registry fuel1 σ schema model ""
    (Some columns) is_nested
  = _permission_for_link_schema models class_registry fuel2 σ schema model ""
      (Some columns) is_nested
  ∧ _permission_for_link_schema models class_registry fuel1 σ schema model ""
      (Some columns) is_nested
    ≠ Raise RecursionError.
Proof.
  intros Hlen Hdot H1 H2. apply (link_schema_depth columns L Hlen); simpl; [done|lia..].
Qed.

End PrunerDepth.

Section PrunerDepthExamples.

Import Pruner Sample.

Lemma pruner_depth_bounded_witness :
  _permission_for_link_schema models class_registry 14 schemas (RefInstance 0)
    (Some order) "" (Some paths_A) false
  = _permission_for_link_schema models class_registry 40 schemas (RefInstance 0)
      (Some order) "" (Some paths_A) false
  ∧ _permission_for_link_schema models class_registry 14 schemas (RefInstance 0)
      (Some order) "" (Some paths_A) false
    ≠ Raise RecursionError.
Proof.
  apply (pruner_depth_bounded models class_registry 14 40 schemas (RefInstance 0)
           (Some order) paths_A false 13).
  - repeat constructor; simpl; lia.
  - repeat constructor.
  - lia.
  - lia.
Defined.

End PrunerDepthExamples.

(** ** The segments of a dotted include *)

Section SegmentsMore.

Import Rewriter.

Variable models : string → Model.
Variable class_registry : string → option SchemaClass.
Variable fuel : nat.

#[local] Abbreviation dotted_step := (dotted_step models class_registry fuel).

Lemma accessible_segment_spec permission i obj w w' :
  _is_access_foreign_key obj (w_model w) permission = true →
  dotted_step permission i obj w = Ok w' →
  ∃ field attr at_i joined load,
    get_model_field (w_current_schema w) obj = Ok field
    ∧ getattr (w_model w) field = Ok attr
    ∧ _get_model models (w_model w) field = Ok (w_model w')
    ∧ _get_schema class_registry (w_current_schema w) obj
      = Ok (w_current_schema w')
    ∧ let accessible :=
        Py.set_of (sc_declared_fields (w_current_schema w')).*1
        ∩ columns (permission_for_get permission (w_model w')) in
      w_qs w' = _update_qs_fields (sc_type_ (w_current_schema w'))
                  (elements accessible) (w_qs w) obj
      ∧ walk_path w' = walk_path w ++ [attr]
      ∧ walk_load_only w' = walk_load_only w ++ [load]
      ∧ walk_path w' !! i = Some at_i
      ∧ mapper_class_ models (ba_attr at_i) = Ok joined
      ∧ is_load_set_of joined
          (visible_column accessible
             (qs_fields_get (w_qs w') (sc_type_ (w_current_schema w')))
             (scalar_column joined))
          load.
Proof.
  intros Haccess. unfold Rewriter.dotted_step. cbv zeta.
  destruct (get_model_field (w_current_schema w) obj) as [field|] eqn:Hfield; [|done].
  cbn [except_Exception_as_InvalidInclude rbind]. rewrite Haccess. cbn [negb].
  destruct (getattr (w_model w) field) as [attr|] eqn:Hattr; [|done].
  cbn [rbind].
  unfold _get_access_fields_in_schema. rewrite Hfield. cbn [rbind].
  destruct (_get_model models (w_model w) field) as [mapper|] eqn:Hmapper; [|done].
  cbn [rbind except_ValueError_as_InvalidInclude].
  destruct (_get_schema class_registry (w_current_schema w) obj)
    as [current_schema|] eqn:Hrelated; [|done].
  cbn [rbind fst snd].
  set (joinload_object := match w_joinload_object w with
                          | Some joinload_object => joinedload_next joinload_object attr
                          | None => joinedload attr
                          end).
  assert (jl_path joinload_object = walk_path w ++ [attr]
          ∧ jl_load_only joinload_object = walk_load_only w) as [Hpath Hload].
  { unfold joinload_object, walk_path, walk_load_only.
    by destruct (w_joinload_object w). }
  unfold restrict_columns, path_class_.
  destruct (jl_path joinload_object !! i) as [at_i|] eqn:Hi; [|done].
  destruct (mapper_class_ models (ba_attr at_i)) as [joined|] eqn:Hjoined; [|done].
  cbn [rbind]. cbv zeta.
  match goal with
  | |- context [extend_each ?f ?l] => destruct (extend_each f l) as [required|] eqn:Hrequired
  end; cbn [rbind]; [|done].
  intros [= <-]. unfold walk_path at 1 3, walk_load_only at 1.
  cbn [w_joinload_object w_current_schema w_model w_qs load_only jl_path jl_load_only].
  eexists field, attr, at_i, joined, _.
  do 4 (split; [done|]). cbv zeta. split; [done|]. split; [done|].
  split; [by rewrite Hload|]. split; [done|]. split; [done|].
  apply (is_load_set_spec _ _ _ (get_columns_for_query joined));
    [apply get_columns_for_query_spec|].
  unfold visible_columns, Py.set_of in *.
  rewrite list_to_set_elements_L in Hrequired |- *.
  destruct (qs_fields_get _ (sc_type_ current_schema)) as [[|c cs]|];
    (eapply is_load_set_intro; [|exact Hrequired]);
    intros x; by rewrite elem_of_elements.
Qed.

(** X19: a segment of a dotted include whose relationship the principal
    may follow. The [joinedload] chain is extended by the relationship
    attribute and gets one more [load_only]; the walk moves on to the
    related schema and model; [fields[<type>]] of the related type is
    rewritten. The columns of the [load_only] are the fields declared by
    the related schema that the descriptor of the related model allows,
    that are among the requested fields when there are any and that are
    column attributes of the class found at position [i] of the chain,
    together with everything these columns require. *)
Theorem accessible_segment_extends_chain permission i obj w w' :
  _is_access_foreign_key obj (w_model w) permission = true →
  dotted_step permission i obj w = Ok w' →
  ∃ field attr at_i joined load,
    get_model_field (w_current_schema w) obj = Ok field
    ∧ getattr (w_model w) field = Ok attr
    ∧ _get_model models (w_model w) field = Ok (w_model w')
    ∧ _get_schema class_registry (w_current_schema w) obj
      = Ok (w_current_schema w')
    ∧ let accessible :=
        Py.set_of (sc_declared_fields (w_current_schema w')).*1
        ∩ columns (permission_for_get permission (w_model w')) in
      w_qs w' = _update_qs_fields (sc_type_ (w_current_schema w'))
                  (elements accessible) (w_qs w) obj
      ∧ walk_path w' = walk_path w ++ [attr]
      ∧ walk_load_only w' = walk_load_only w ++ [load]
      ∧ walk_path w' !! i = Some at_i
      ∧ mapper_class_ models (ba_attr at_i) = Ok joined
      ∧ is_load_set_of joined
          (visible_column accessible
             (qs_fields_get (w_qs w') (sc_type_ (w_current_schema w')))
             (scalar_column joined))
          load.
Proof. apply accessible_segment_spec. Qed.

(** X20: the position in the [joinedload] chain is the position of the
    segment in the include. Once a segment has been skipped the chain is
    shorter than that, and the next segment the principal may follow does
    not extend it: whenever its field, its model attribute and its related
    schema are found, the lookup [path[i]] raises [IndexError]. *)
Theorem segment_after_skipped_raises permission i obj w field attr mapper
    related_schema_cls :
  _is_access_foreign_key obj (w_model w) permission = true →
  get_model_field (w_current_schema w) obj = Ok field →
  getattr (w_model w) field = Ok attr →
  _get_model models (w_model w) field = Ok mapper →
  _get_schema class_registry (w_current_schema w) obj = Ok related_schema_cls →
  length (walk_path w) < i →
  dotted_step permission i obj w = Raise IndexError.
Proof.
  intros Haccess Hfield Hattr Hmapper Hrelated Hlen.
  unfold Rewriter.dotted_step. cbv zeta.
  rewrite Hfield. cbn [except_Exception_as_InvalidInclude rbind].
  rewrite Haccess, Hattr. cbn [negb rbind].
  unfold _get_access_fields_in_schema.
  rewrite Hfield. cbn [rbind]. rewrite Hmapper. cbn [rbind].
  rewrite Hrelated. cbn [rbind fst snd].
  unfold restrict_columns, path_class_.
  set (joinload_object := match w_joinload_object w with
                          | Some joinload_object => joinedload_next joinload_object attr
                          | None => joinedload attr
                          end).
  assert (jl_path joinload_object = walk_path w ++ [attr]) as ->.
  { unfold joinload_object, walk_path. by destruct (w_joinload_object w). }
  rewrite lookup_ge_None_2; [done|]. rewrite length_app. simpl. lia.
Qed.

Lemma skipped_step_unchanged permission i obj w w' :
  dotted_step permission i obj w = Ok w' →
  length (walk_path w) < i →
  w' = w.
Proof.
  intros Hrun Hlen.
  destruct (_is_access_foreign_key obj (w_model w) permission) eqn:Haccess.
  - destruct (accessible_segment_spec _ _ _ _ _ Haccess Hrun)
      as (field & attr & at_i & joined & load & _ & _ & _ & _ & _ & Hpath & _ & Hi & _).
    apply lookup_lt_Some in Hi. rewrite Hpath, length_app in Hi. simpl in Hi. lia.
  - revert Hrun. unfold Rewriter.dotted_step. cbv zeta.
    destruct (get_model_field (w_current_schema w) obj) as [field|]; [|done].
    cbn [except_Exception_as_InvalidInclude rbind]. rewrite Haccess. cbn [negb].
    by intros [= <-].
Qed.

(** X21: once a segment of a dotted include has been skipped, a walk that
    completes follows no later segment: the [joinedload] chain, the
    current schema and model and the query string at its end are those it
    had after the skipped segment. *)
Theorem walk_after_skipped_segment permission i objs w w' :
  dotted_loop models class_registry fuel permission i objs w = Ok w' →
  length (walk_path w) < i →
  w' = w.
Proof.
  revert i w. induction objs as [|obj objs IH]; intros i w; cbn [Rewriter.dotted_loop].
  { by intros [= <-]. }
  intros Hrun Hlen. apply rbind_Ok in Hrun as (w1 & Hstep & Hrun).
  apply skipped_step_unchanged in Hstep as ->; [|done].
  apply (IH (S i)); [done|lia].
Qed.

End SegmentsMore.

Section SegmentsMoreExamples.

Import Rewriter Sample.

(** The manager follows [customer] of an order, the first segment of the
    include [customer.address]. *)
Lemma accessible_segment_extends_chain_witness :
  let w := {| w_joinload_object := None; w_current_schema := order_schema;
              w_model := order;
              w_qs := request [("include", "customer.address")] |} in
  ∃ w' field attr at_i joined load,
    dotted_step models class_registry 3 manager 0 "customer" w = Ok w'
    ∧ get_model_field (w_current_schema w) "customer" = Ok field
    ∧ getattr (w_model w) field = Ok attr
    ∧ _get_model models (w_model w) field = Ok (w_model w')
    ∧ _get_schema class_registry (w_current_schema w) "customer"
      = Ok (w_current_schema w')
    ∧ let accessible :=
        Py.set_of (sc_declared_fields (w_current_schema w')).*1
        ∩ columns (permission_for_get manager (w_model w')) in
      w_qs w' = _update_qs_fields (sc_type_ (w_current_schema w'))
                  (elements accessible) (w_qs w) "customer"
      ∧ walk_path w' = walk_path w ++ [attr]
      ∧ walk_load_only w' = walk_load_only w ++ [load]
      ∧ walk_path w' !! 0 = Some at_i
      ∧ mapper_class_ models (ba_attr at_i) = Ok joined
      ∧ is_load_set_of joined
          (visible_column accessible
             (qs_fields_get (w_qs w') (sc_type_ (w_current_schema w')))
             (scalar_column joined))
          load.
Proof.
  intros w.
  destruct (dotted_step models class_registry 3 manager 0 "customer" w)
    as [w'|e] eqn:Hrun.
  - destruct (accessible_segment_extends_chain models class_registry 3 manager 0
                "customer" w w')
      as (field & attr & at_i & joined & load & H);
      [vm_compute; reflexivity|exact Hrun|].
    exists w', field, attr, at_i, joined, load. split; [reflexivity|exact H].
  - exfalso. vm_compute in Hrun. discriminate Hrun.
Defined.

(** The manager may not follow [shipping], so the segment is skipped; the
    segment [customer] that comes after it is in position 1 of an empty
    chain. *)
Lemma segment_after_skipped_raises_witness :
  dotted_step models class_registry 3 manager 1 "customer"
    {| w_joinload_object := None; w_current_schema := order_schema;
       w_model := order;
       w_qs := request [("include", "shipping.customer")] |}
  = Raise IndexError.
Proof.
  apply (segment_after_skipped_raises models class_registry 3 manager 1 "customer" _
           "customer"
           {| ba_model := "Order"; ba_key := "customer";
              ba_attr := ARelationship "Customer" |}
           customer customer_schema).
  - vm_compute. reflexivity.
  - reflexivity.
  - reflexivity.
  - reflexivity.
  - reflexivity.
  - simpl. lia.
Defined.

(** The clerk may follow neither [customer] nor [shipping]: after the
    first segment the walk is behind and stays where it was. *)
Lemma walk_after_skipped_segment_witness :
  let w := {| w_joinload_object := None; w_current_schema := order_schema;
              w_model := order;
              w_qs := request [("include", "customer.shipping")] |} in
  ∃ w', dotted_loop models class_registry 3 clerk 1 ["shipping"] w = Ok w' ∧ w' = w.
Proof.
  intros w.
  destruct (dotted_loop models class_registry 3 clerk 1 ["shipping"] w)
    as [w'|e] eqn:Hrun.
  - exists w'. split; [reflexivity|].
    apply (walk_after_skipped_segment models class_registry 3 clerk 1 ["shipping"] w w'
             Hrun).
    simpl. lia.
  - exfalso. vm_compute in Hrun. discriminate Hrun.
Defined.

Example include_after_skipped_segment :
  _eagerload_includes models class_registry 3 empty_query
    (request [("include", "shipping.customer")]) manager order_api
  = Raise IndexError.
Proof. vm_compute. reflexivity. Qed.

End SegmentsMoreExamples.
